(** * val.hpp: value-semantic type erasure ([val]) and its observer handle ([ptr])

    A shallow embedding of [include/val.hpp].  The C++ heap is an explicit
    state: reference-counted blocks, erased objects and handle objects live in
    finite maps, every function of the header is a computation in a small
    state-and-error monad, and atomic and lock operations are logged in a
    trace so that their order can be stated. *)

From stdpp Require Import gmap list fin_maps.
From Stdlib Require Import ZArith Lia.

Local Open Scope Z_scope.

(** ** Machine integers and pointers *)

(** [size_t] and [intptr_t] on the LP64 targets the header is built for. *)
Definition size_bits : Z := 64.

(** Unsigned wrap-around of [size_t] arithmetic. *)
Definition wrap_size (z : Z) : Z := z mod 2 ^ size_bits.

(** Two's complement wrap-around of [std::atomic<intptr_t>] arithmetic. *)
Definition wrap_intptr (z : Z) : Z :=
  (z + 2 ^ (size_bits - 1)) mod 2 ^ size_bits - 2 ^ (size_bits - 1).

(** Allocations are named by locations; classes by numbers. *)
Abbreviation loc := positive.
Abbreviation cls := nat.

(** A pointer is null or a byte offset into an allocation. *)
Inductive pointer :=
| Null
| Ptr (a : loc) (off : Z).

#[global] Instance pointer_eq_dec : EqDecision pointer.
Proof. solve_decision. Defined.

(** [reinterpret_cast<int8_t *>(p) + n] with [n : size_t]. *)
Definition ptr_add (p : pointer) (n : Z) : option pointer :=
  match p with
  | Null => None
  | Ptr a off => Some (Ptr a (wrap_size (off + n)))
  end.

(** ** The class hierarchy the templates are instantiated at

    [base_disp T U = Some d] when [T] is [U] or a non-virtual, unambiguous
    base of [U] whose sub-object sits [d] bytes into a [U] object, which is
    what [std::is_base_of<T, U>] and the pointer conversions of the compiler
    provide.  [copy_ctor U] is [U]'s copy constructor when
    [std::is_copy_constructible<U>] holds, [move_ctor U] likewise.  Virtual
    bases, which [std::is_base_of] admits as well, are added by
    [vhierarchy] below. *)
Record hierarchy := {
  base_disp : cls → cls → option Z;
  sizeof : cls → Z;
  copy_ctor : cls → option (list Z → list Z);
  move_ctor : cls → option (list Z → list Z)
}.

(** [(size_t)((T * )((U * )z))] for a non-null [z]: the C-style cast is a
    static up-cast when [T] is a base of [U], a static down-cast when [U] is
    a base of [T], and a reinterpretation otherwise. *)
Definition cast_address (H : hierarchy) (T U : cls) (z : Z) : Z :=
  match base_disp H T U with
  | Some d => wrap_size (z + d)
  | None =>
      match base_disp H U T with
      | Some d => wrap_size (z - d)
      | None => wrap_size z
      end
  end.

(** ** namespace val_detail: data *)

Inductive operation := CLONE | DELETE | DESTRUCT | SIZE | TYPE.

Module block.
Record t := mk { count : Z; data : pointer }.
End block.

(** [op_ptr] is the address of [op<U>]; it is represented by [U]. *)
Record descriptor_t := {
  block_ptr : loc;
  upcast_offset : Z;
  op_ptr : cls
}.

#[global] Instance descriptor_eq_dec : EqDecision descriptor_t.
Proof. solve_decision. Defined.

(** What the [intptr_t] returned by [op] stands for. *)
Inductive op_result :=
| RPtr (p : pointer)
| RInt (z : Z)
| RName (U : cls).

(** ** The heap *)

(** Storage holds a live object of some dynamic class, or raw bytes. *)
Inductive cell :=
| Object (dyn : cls) (payload : list Z)
| RawStorage.

Inductive event :=
| EvLock (h : loc)
| EvUnlock (h : loc)
| EvStoreDescriptor (h : loc) (d : descriptor_t)
| EvFetchAdd (b : loc) (old : Z)
| EvFetchSub (b : loc) (old : Z)
| EvDeleteBlock (b : loc)
| EvDataLoad (b : loc) (p : pointer)
| EvDataExchange (b : loc) (old new : pointer)
| EvOp (U : cls) (o : operation) (value placement : pointer).

#[global] Instance operation_eq_dec : EqDecision operation.
Proof. solve_decision. Defined.

#[global] Instance event_eq_dec : EqDecision event.
Proof. solve_decision. Defined.

Record state := mkState {
  blocks : gmap loc block.t;
  objs : gmap loc cell;
  handles : gmap loc descriptor_t;
  trace : list event
}.

Definition set_blocks (f : gmap loc block.t → gmap loc block.t) (σ : state) : state :=
  mkState (f (blocks σ)) (objs σ) (handles σ) (trace σ).
Definition set_objs (f : gmap loc cell → gmap loc cell) (σ : state) : state :=
  mkState (blocks σ) (f (objs σ)) (handles σ) (trace σ).
Definition set_handles (f : gmap loc descriptor_t → gmap loc descriptor_t) (σ : state) : state :=
  mkState (blocks σ) (objs σ) (f (handles σ)) (trace σ).
Definition log (es : list event) (σ : state) : state :=
  mkState (blocks σ) (objs σ) (handles σ) (trace σ ++ es).

Definition empty_state : state := mkState ∅ ∅ ∅ [].

(** ** Outcomes of a call *)

Inductive exn :=
| invalid_argument   (* std::invalid_argument *)
| logic_error        (* std::logic_error *)
| rethrow_current.   (* [throw;]: the exception being handled, std::terminate without one *)

Inductive outcome (A : Type) :=
| Ok (a : A) (σ : state)
| Throw (e : exn) (σ : state)
| Aborted (σ : state)        (* abort() *)
| Undefined.                 (* no defined behaviour: dangling or ill-typed access *)

Arguments Ok {A} a σ.
Arguments Throw {A} e σ.
Arguments Aborted {A} σ.
Arguments Undefined {A}.

Definition M (A : Type) : Type := state → outcome A.

#[global] Instance M_ret : MRet M := λ A a σ, Ok a σ.
#[global] Instance M_bind : MBind M := λ A B k m σ,
  match m σ with
  | Ok a σ' => k a σ'
  | Throw e σ' => Throw e σ'
  | Aborted σ' => Aborted σ'
  | Undefined => Undefined
  end.

Definition throw {A} (e : exn) : M A := λ σ, Throw e σ.
Definition abort {A} : M A := λ σ, Aborted σ.
Definition undefined {A} : M A := λ _, Undefined.
Definition emit (es : list event) : M unit := λ σ, Ok tt (log es σ).

(** The state a call leaves behind when control returns to the caller,
    normally or by an exception. *)
Definition final_state {A} (o : outcome A) : option state :=
  match o with
  | Ok _ σ | Throw _ σ => Some σ
  | Aborted _ | Undefined => None
  end.

(** ** Primitive heap actions *)

(** [count.fetch_add(n)] and [count.fetch_sub(n)]: the old value is returned. *)
Definition count_fetch_add (b : loc) (n : Z) : M Z := λ σ,
  match blocks σ !! b with
  | Some blk =>
      Ok (block.count blk)
         (log [EvFetchAdd b (block.count blk)]
            (set_blocks <[b := block.mk (wrap_intptr (block.count blk + n)) (block.data blk)]> σ))
  | None => Undefined
  end.

Definition count_fetch_sub (b : loc) (n : Z) : M Z := λ σ,
  match blocks σ !! b with
  | Some blk =>
      Ok (block.count blk)
         (log [EvFetchSub b (block.count blk)]
            (set_blocks <[b := block.mk (wrap_intptr (block.count blk - n)) (block.data blk)]> σ))
  | None => Undefined
  end.

Definition count_load (b : loc) : M Z := λ σ,
  match blocks σ !! b with
  | Some blk => Ok (block.count blk) σ
  | None => Undefined
  end.

Definition data_load (b : loc) : M pointer := λ σ,
  match blocks σ !! b with
  | Some blk => Ok (block.data blk) (log [EvDataLoad b (block.data blk)] σ)
  | None => Undefined
  end.

Definition data_exchange (b : loc) (p : pointer) : M pointer := λ σ,
  match blocks σ !! b with
  | Some blk =>
      Ok (block.data blk)
         (log [EvDataExchange b (block.data blk) p]
            (set_blocks <[b := block.mk (block.count blk) p]> σ))
  | None => Undefined
  end.

(** [delete this] of a block. *)
Definition delete_block (b : loc) : M unit := λ σ,
  match blocks σ !! b with
  | Some _ => Ok tt (log [EvDeleteBlock b] (set_blocks (delete b) σ))
  | None => Undefined
  end.

(** [*p] for an erased object. *)
Definition read_object (p : pointer) : M (cls * list Z) := λ σ,
  match p with
  | Ptr a _ =>
      match objs σ !! a with
      | Some (Object D v) => Ok (D, v) σ
      | _ => Undefined
      end
  | Null => Undefined
  end.

(** [new U(...)]: fresh heap storage holding a [U] with contents [v]. *)
Definition new_object (U : cls) (v : list Z) : M pointer := λ σ,
  let a := fresh (dom (objs σ)) in
  Ok (Ptr a 0) (set_objs <[a := Object U v]> σ).

(** [new (placement) U(...)]: construction into storage the caller owns. *)
Definition placement_new (U : cls) (v : list Z) (placement : pointer) : M pointer := λ σ,
  match placement with
  | Ptr a 0 =>
      match objs σ !! a with
      | Some RawStorage => Ok (Ptr a 0) (set_objs <[a := Object U v]> σ)
      | _ => Undefined
      end
  | _ => Undefined
  end.

(** [delete p]: destroy the object and release its storage. *)
Definition delete_object (p : pointer) : M unit := λ σ,
  match p with
  | Ptr a _ =>
      match objs σ !! a with
      | Some (Object _ _) => Ok tt (set_objs (delete a) σ)
      | _ => Undefined
      end
  | Null => Undefined
  end.

(** [p->~U()]: destroy the object, keep the storage. *)
Definition destroy_object (p : pointer) : M unit := λ σ,
  match p with
  | Ptr a _ =>
      match objs σ !! a with
      | Some (Object _ _) => Ok tt (set_objs <[a := RawStorage]> σ)
      | _ => Undefined
      end
  | Null => Undefined
  end.

(** Storage of a [ptr] object: [descriptor = d] in a constructor gives the
    handle its first descriptor, without taking the lock. *)
Definition handle_init (d : descriptor_t) : M loc := λ σ,
  let h := fresh (dom (handles σ)) in
  Ok h (log [EvStoreDescriptor h d] (set_handles <[h := d]> σ)).

(** A read of the member [descriptor] in a constructor. *)
Definition handle_member (h : loc) : M descriptor_t := λ σ,
  match handles σ !! h with
  | Some d => Ok d σ
  | None => Undefined
  end.

(** A write to the member [descriptor] in a constructor. *)
Definition handle_store (h : loc) (d : descriptor_t) : M unit := λ σ,
  match handles σ !! h with
  | Some _ => Ok tt (log [EvStoreDescriptor h d] (set_handles <[h := d]> σ))
  | None => Undefined
  end.

(** The storage of a [ptr] object goes away when its destructor returns. *)
Definition handle_release (h : loc) : M unit := λ σ,
  match handles σ !! h with
  | Some _ => Ok tt (set_handles (delete h) σ)
  | None => Undefined
  end.

(** ** Early exits

    A function body is a sequence of statements, each of which returns or
    falls through to the next. *)
Inductive flow (A : Type) :=
| Return (a : A)
| Fallthrough.

Arguments Return {A} a.
Arguments Fallthrough {A}.

Definition then_flow {A} (s1 s2 : flow A) : flow A :=
  match s1 with
  | Return a => Return a
  | Fallthrough => s2
  end.

Definition returned {A} (last : A) (s : flow A) : A :=
  match s with
  | Return a => a
  | Fallthrough => last
  end.

Section val_hpp.
Context (H : hierarchy).

(** ** namespace val_detail: functions *)

(** [new (placement) T(data)] *)
Definition placement_copy (T : cls) (data : list Z) (placement : pointer) : M pointer :=
  match copy_ctor H T with
  | Some copy => placement_new T (copy data) placement
  | None => undefined
  end.

(** [new (placement) T(std::forward<T>(data))] *)
Definition placement_move (T : cls) (data : list Z) (placement : pointer) : M pointer :=
  match move_ctor H T with
  | Some move => placement_new T (move data) placement
  | None => undefined
  end.

(** [block::block(void * d)] under [new]: [count(0), data(d)], and a null
    [d] throws, in which case no block remains allocated. *)
Definition block_new (d : pointer) : M loc :=
  if decide (d = Null) then throw invalid_argument
  else λ σ,
    let b := fresh (dom (blocks σ)) in
    Ok b (set_blocks <[b := block.mk 0 d]> σ).

Definition block_increment (b : loc) : M unit :=
  _ ← count_fetch_add b 1; mret tt.

Definition block_decrement (b : loc) : M unit :=
  old ← count_fetch_sub b 1;
  if decide (old = 1) then delete_block b else mret tt.

(** [compute_upcast_offset<T, U>()]: [(size_t)((T * )((U * )1)) - 1] *)
Definition compute_upcast_offset (T U : cls) : Z :=
  wrap_size (cast_address H T U 1 - 1).

(** [clone_impl<T, IsClonable>::clone]; the second argument is
    [std::is_copy_constructible<T>] together with the constructor. *)
Definition clone_impl (T : cls) (IsClonable : option (list Z → list Z))
    (data placement : pointer) : M pointer :=
  match IsClonable with
  | Some copy =>
      '(_, v) ← read_object data;
      if decide (placement = Null) then new_object T (copy v)
      else placement_copy T v placement
  | None => throw logic_error
  end.

(** [op<T>] *)
Definition op (T : cls) (o : operation) (value placement : pointer) : M op_result :=
  emit [EvOp T o value placement];;
  match o with
  | CLONE => p ← clone_impl T (copy_ctor H T) value placement; mret (RPtr p)
  | DELETE => delete_object value;; mret (RInt 0)
  | DESTRUCT => destroy_object value;; mret (RInt 0)
  | SIZE => mret (RInt (sizeof H T))
  | TYPE => mret (RName T)
  end.

Definition clone (op_ptr : cls) (value placement : pointer) : M pointer :=
  r ← op op_ptr CLONE value placement;
  match r with RPtr p => mret p | _ => undefined end.

Definition delete_ (op_ptr : cls) (value : pointer) : M unit :=
  _ ← op op_ptr DELETE value Null; mret tt.

Definition destruct_ (op_ptr : cls) (value : pointer) : M unit :=
  _ ← op op_ptr DESTRUCT value Null; mret tt.

Definition size (op_ptr : cls) : M Z :=
  r ← op op_ptr SIZE Null Null;
  match r with RInt z => mret (wrap_size z) | _ => undefined end.

Definition type (op_ptr : cls) : M cls :=
  r ← op op_ptr TYPE Null Null;
  match r with RName U => mret U | _ => undefined end.

(** [emit_heap_warning] and [emit_heap_warning2] print nothing. *)
Definition emit_heap_warning (T u_name : cls) : M unit := mret tt.
Definition emit_heap_warning2 (T U : cls) : M unit := mret tt.

(** ** class ptr<T>

    A handle is named by the location of its [ptr] object. *)

Definition get_descriptor (this : loc) : M descriptor_t := λ σ,
  match handles σ !! this with
  | Some d => Ok d (log [EvLock this; EvUnlock this] σ)
  | None => Undefined
  end.

Definition exchange_descriptor (this : loc) (v : descriptor_t) : M descriptor_t := λ σ,
  match handles σ !! this with
  | Some saved =>
      Ok saved
         (log [EvLock this; EvStoreDescriptor this v; EvUnlock this]
            (set_handles <[this := v]> σ))
  | None => Undefined
  end.

Definition add_offset (d : descriptor_t) (n : Z) : descriptor_t :=
  {| block_ptr := block_ptr d;
     upcast_offset := wrap_size (upcast_offset d + n);
     op_ptr := op_ptr d |}.

Definition sub_offset (d : descriptor_t) (n : Z) : descriptor_t :=
  {| block_ptr := block_ptr d;
     upcast_offset := wrap_size (upcast_offset d - n);
     op_ptr := op_ptr d |}.

(** [ptr(ptr const & other)] *)
Definition ptr_copy (other : loc) : M loc :=
  d ← get_descriptor other;
  this ← handle_init d;
  d' ← handle_member this;
  block_increment (block_ptr d');;
  mret this.

(** [~ptr()] *)
Definition ptr_dtor (this : loc) : M unit :=
  d ← get_descriptor this;
  block_decrement (block_ptr d);;
  handle_release this.

(** The body of [ptr & operator =(ptr other)], [other] being the
    parameter object. *)
Definition ptr_assign_body (this other : loc) : M unit :=
  new_descriptor ← get_descriptor other;
  block_increment (block_ptr new_descriptor);;
  old_descriptor ← exchange_descriptor this new_descriptor;
  block_decrement (block_ptr old_descriptor).

(** [this = src] for a handle [src] of the same type: the by-value
    parameter is copy-constructed from [src] and destroyed after the call. *)
Definition ptr_assign (this src : loc) : M unit :=
  other ← ptr_copy src;
  ptr_assign_body this other;;
  ptr_dtor other.

(** [ptr(ptr<U> const & other)], [U] inheriting [T] *)
Definition ptr_widen (T U : cls) (other : loc) : M loc :=
  d ← get_descriptor other;
  this ← handle_init d;
  d' ← handle_member this;
  block_increment (block_ptr d');;
  handle_store this (add_offset d' (compute_upcast_offset T U));;
  mret this.

(** The body of [ptr & operator =(ptr<U> other)], [U] inheriting [T]. *)
Definition ptr_assign_widen_body (T U : cls) (this other : loc) : M unit :=
  new_descriptor ← get_descriptor other;
  block_increment (block_ptr new_descriptor);;
  let new_descriptor := add_offset new_descriptor (compute_upcast_offset T U) in
  old_descriptor ← exchange_descriptor this new_descriptor;
  block_decrement (block_ptr old_descriptor).

Definition ptr_assign_widen (T U : cls) (this src : loc) : M unit :=
  other ← ptr_copy src;
  ptr_assign_widen_body T U this other;;
  ptr_dtor other.

(** [T * operator ->() const] *)
Definition ptr_arrow (this : loc) : M pointer :=
  d ← get_descriptor this;
  data ← data_load (block_ptr d);
  match ptr_add data (upcast_offset d) with
  | Some result => mret result
  | None => undefined
  end.

(** [explicit ptr(descriptor_t const & d)] *)
Definition ptr_of_descriptor (d : descriptor_t) : M loc :=
  this ← handle_init d;
  block_increment (block_ptr d);;
  mret this.

(** [ptr(block * b, size_t upcast_offset, op_sig op_ptr)] *)
Definition ptr_of_block (b : loc) (upcast_offset : Z) (op_ptr : cls) : M loc :=
  this ← handle_init {| block_ptr := b; upcast_offset := upcast_offset; op_ptr := op_ptr |};
  block_increment b;;
  mret this.

(** [descriptor_t clone(size_t upcast_offset, void * placement) const] *)
Definition ptr_clone (T : cls) (this : loc) (upcast_offset' : Z) (placement : pointer)
    : M descriptor_t :=
  d ← get_descriptor this;
  (if decide (placement = Null) then
     uName ← type (op_ptr d);
     emit_heap_warning T uName
   else mret tt);;
  data ← data_load (block_ptr d);
  cloned ← clone (op_ptr d) data placement;
  b ← block_new cloned;
  mret {| block_ptr := b;
          upcast_offset := wrap_size (upcast_offset d + upcast_offset');
          op_ptr := op_ptr d |}.

(** [size_t get_size_of_data() const] *)
Definition get_size_of_data (this : loc) : M Z :=
  d ← get_descriptor this;
  size (op_ptr d).

(** [dynamic_cast<T *>(p)] for [p : U *].  When [T] is [U] the cast is the
    identity and when [T] is a base of [U] it is a static up-cast; neither
    inspects the object.  Otherwise it consults the
    dynamic class [D] of the complete object [p] points into and yields the
    [T] sub-object when [D] has one, null when it has none. *)
Definition dynamic_cast (T U : cls) (p : pointer) : M pointer := λ σ,
  match p with
  | Null => Ok Null σ
  | Ptr a off =>
      if decide (T = U) then Ok p σ else
      match base_disp H T U with
      | Some d => Ok (Ptr a (wrap_size (off + d))) σ
      | None =>
          match objs σ !! a with
          | Some (Object D _) =>
              if decide (base_disp H U D = Some off) then
                match base_disp H T D with
                | Some d => Ok (Ptr a d) σ
                | None => Ok Null σ
                end
              else Undefined
          | _ => Undefined
          end
      end
  end.

(** [explicit ptr(ptr<U> const & other)], [T] inheriting [U] *)
Definition ptr_narrow (T U : cls) (other : loc) : M loc :=
  p ← ptr_arrow other;
  result ← dynamic_cast U U p;
  d ← get_descriptor other;
  this ← handle_init d;
  d' ← handle_member this;
  block_increment (block_ptr d');;
  handle_store this (sub_offset d' (compute_upcast_offset T U));;
  mret this.

(** ** class val<T, SmallStorageSize>

    A container is its template argument [SmallStorageSize], the location
    of its member [small_storage] and the handle that is its member
    [data]. *)
Record val := {
  SmallStorageSize : Z;
  small_storage : loc;
  data : loc
}.

(** [void * emplacement_ptr(size_t dataSize)] *)
Definition emplacement_ptr (SmallStorageSize : Z) (small_storage : loc) (dataSize : Z)
    : pointer :=
  returned Null
    (then_flow (Return Null)
       (then_flow
          (if dataSize <=? SmallStorageSize then Return (Ptr small_storage 0)
           else Fallthrough)
          (Return Null))).

(** The storage of a [val] object, which holds [small_storage]. *)
Definition val_storage : M loc := λ σ,
  let a := fresh (dom (objs σ)) in
  Ok a (set_objs <[a := RawStorage]> σ).

(** The member initialiser [small_storage()] zeroes the buffer. *)
Definition small_storage_init (small_storage : loc) : M unit := λ σ,
  match objs σ !! small_storage with
  | Some _ => Ok tt (set_objs <[small_storage := RawStorage]> σ)
  | None => Undefined
  end.

(** [construct(U const & other)] *)
Definition construct_copy (T : cls) (SmallStorageSize : Z) (small_storage : loc)
    (U : cls) (other : list Z) : M pointer :=
  let ptr := emplacement_ptr SmallStorageSize small_storage (sizeof H U) in
  if decide (ptr = Null) then
    emit_heap_warning2 T U;;
    match copy_ctor H U with
    | Some copy => new_object U (copy other)
    | None => undefined
    end
  else placement_copy U other ptr.

(** [construct(U && other)] *)
Definition construct_move (T : cls) (SmallStorageSize : Z) (small_storage : loc)
    (U : cls) (other : list Z) : M pointer :=
  let ptr := emplacement_ptr SmallStorageSize small_storage (sizeof H U) in
  if decide (ptr = Null) then
    emit_heap_warning2 T U;;
    match move_ctor H U with
    | Some move => new_object U (move other)
    | None => undefined
    end
  else placement_move U other ptr.

(** The private [explicit val(U * v)], run on storage [small_storage]. *)
Definition val_of_pointer (T : cls) (SmallStorageSize : Z) (small_storage : loc)
    (U : cls) (v : pointer) : M val :=
  small_storage_init small_storage;;
  b ← block_new v;
  h ← ptr_of_block b (compute_upcast_offset T U) U;
  mret {| SmallStorageSize := SmallStorageSize; small_storage := small_storage; data := h |}.

(** [explicit val(T * v)] *)
Definition val_from_pointer (T : cls) (SmallStorageSize : Z) (v : pointer) : M val :=
  ss ← val_storage;
  small_storage_init ss;;
  b ← block_new v;
  h ← ptr_of_block b 0 T;
  mret {| SmallStorageSize := SmallStorageSize; small_storage := ss; data := h |}.

(** [val(T const & v)] and [val(U const & v)], [U] inheriting [T] *)
Definition val_from_value (T : cls) (SmallStorageSize : Z) (U : cls) (v : list Z) : M val :=
  ss ← val_storage;
  p ← construct_copy T SmallStorageSize ss U v;
  val_of_pointer T SmallStorageSize ss U p.

(** [val(T && v)] and [val(U && v)], [U] inheriting [T] *)
Definition val_from_rvalue (T : cls) (SmallStorageSize : Z) (U : cls) (v : list Z) : M val :=
  ss ← val_storage;
  p ← construct_move T SmallStorageSize ss U v;
  val_of_pointer T SmallStorageSize ss U p.

(** [val(val const & other)] *)
Definition val_copy (T : cls) (other : val) : M val :=
  ss ← val_storage;
  small_storage_init ss;;
  d ← ptr_clone T (data other) 0
        (emplacement_ptr (SmallStorageSize other) ss (SmallStorageSize other));
  h ← ptr_of_descriptor d;
  mret {| SmallStorageSize := SmallStorageSize other; small_storage := ss; data := h |}.

(** [val(val<U, SmallStorageSizeU> const & other)], for [U] inheriting [T]
    and, explicit, for [T] inheriting [U]: the two bodies are the same. *)
Definition val_convert (T : cls) (SmallStorageSize : Z) (U : cls) (other : val) : M val :=
  ss ← val_storage;
  small_storage_init ss;;
  sz ← get_size_of_data (data other);
  d ← ptr_clone U (data other) (compute_upcast_offset T U)
        (emplacement_ptr SmallStorageSize ss sz);
  h ← ptr_of_descriptor d;
  mret {| SmallStorageSize := SmallStorageSize; small_storage := ss; data := h |}.

(** The body of [~val()] *)
Definition val_dtor_body (this : val) : M unit :=
  d ← get_descriptor (data this);
  let b := block_ptr d in
  buffer ← data_exchange b Null;
  c ← count_load b;
  if decide (c ≠ 1) then
    _ ← count_load b;   (* the count printed in the message *)
    abort
  else if decide (buffer = Ptr (small_storage this) 0) then destruct_ (op_ptr d) buffer
  else delete_ (op_ptr d) buffer.

(** [~val()]: the body, then the destructor of the member [data]. *)
Definition val_dtor (this : val) : M unit :=
  val_dtor_body this;;
  ptr_dtor (data this).

(** [T * operator ->()] *)
Definition val_arrow (this : val) : M pointer :=
  ptr_arrow (data this).

(** [std::unique_ptr<T> clone() const]: the pointer the [unique_ptr] owns *)
Definition val_clone (T : cls) (this : val) : M pointer :=
  d ← ptr_clone T (data this) 0 Null;
  p ← data_load (block_ptr d);
  match ptr_add p (upcast_offset d) with
  | Some result => mret result
  | None => undefined
  end.

(** [ptr(val<U, SmallStorageSizeU> const & other)], [U] inheriting [T] *)
Definition ptr_from_val (T U : cls) (other : val) : M loc :=
  d ← get_descriptor (data other);
  this ← handle_init d;
  d' ← handle_member this;
  block_increment (block_ptr d');;
  handle_store this (add_offset d' (compute_upcast_offset T U));;
  mret this.

(** [explicit ptr(val<U, SmallStorageSizeU> const & other)], [T] properly
    inheriting [U] *)
Definition ptr_narrow_from_val (T U : cls) (other : val) : M loc :=
  p ← val_arrow other;
  result ← dynamic_cast T U p;
  if decide (result = Null) then throw rethrow_current
  else
    d ← get_descriptor (data other);
    this ← handle_init d;
    d' ← handle_member this;
    block_increment (block_ptr d');;
    handle_store this (sub_offset d' (compute_upcast_offset T U));;
    mret this.

(** ** Client code: reading and writing the value behind a pointer *)

Definition write_object (p : pointer) (f : list Z → list Z) : M unit := λ σ,
  match p with
  | Ptr a _ =>
      match objs σ !! a with
      | Some (Object D v) => Ok tt (set_objs <[a := Object D (f v)]> σ)
      | _ => Undefined
      end
  | Null => Undefined
  end.

(** [*v] read, and [*v] updated in place by [f] *)
Definition val_read (v : val) : M (cls * list Z) :=
  p ← val_arrow v; read_object p.

Definition val_write (v : val) (f : list Z → list Z) : M unit :=
  p ← val_arrow v; write_object p f.

End val_hpp.

(** ** An example hierarchy

    [Circle] and [Square] derive from [Shape]; [Label] derives from [Shape]
    and, eight bytes in, from [Named]; [Unique] cannot be copied. *)
Definition Shape : cls := 0%nat.
Definition Circle : cls := 1%nat.
Definition Square : cls := 2%nat.
Definition Named : cls := 3%nat.
Definition Label : cls := 4%nat.
Definition Unique : cls := 5%nat.

Definition shapes : hierarchy := {|
  base_disp T U :=
    if decide (T = U) then Some 0
    else if decide (T = Shape ∧ (U = Circle ∨ U = Square ∨ U = Label)) then Some 0
    else if decide (T = Named ∧ U = Label) then Some 8
    else None;
  sizeof U :=
    if decide (U = Label) then 24 else if decide (U = Named) then 16 else 8;
  copy_ctor U := if decide (U = Unique) then None else Some id;
  move_ctor U := Some id
|}.

(** ** Ways to construct a container that store a value of their own *)
Inductive val_ctor :=
| FromValue (T : cls) (SmallStorageSize : Z) (U : cls) (v : list Z)
| FromRvalue (T : cls) (SmallStorageSize : Z) (U : cls) (v : list Z)
| CopyOf (T : cls) (other : val)
| ConvertOf (T : cls) (SmallStorageSize : Z) (U : cls) (other : val).

Definition run_ctor (H : hierarchy) (c : val_ctor) : M val :=
  match c with
  | FromValue T n U v => val_from_value H T n U v
  | FromRvalue T n U v => val_from_rvalue H T n U v
  | CopyOf T other => val_copy H T other
  | ConvertOf T n U other => val_convert H T n U other
  end.

(** ** Observations *)

(** The value a call returns, when it returns. *)
Definition value_of {A} (o : outcome A) : option A :=
  match o with
  | Ok a _ => Some a
  | _ => None
  end.

(** [static_cast<T *>(p)] for [p : U *] and a base [T] of [U]: the address
    of the [T] sub-object of the [U] object at [p]. *)
Definition upcast (H : hierarchy) (T U : cls) (p : pointer) : pointer :=
  match p, base_disp H T U with
  | Ptr a off, Some d => Ptr a (wrap_size (off + d))
  | _, _ => p
  end.

(** The number of live handles whose descriptor names block [b]. *)
Definition refs (hs : gmap loc descriptor_t) (b : loc) : nat :=
  base.size (filter (λ kd : loc * descriptor_t, block_ptr kd.2 = b) hs).

(** The number of live handles other than [h] whose descriptor names [b]. *)
Definition refs_besides (h : loc) (hs : gmap loc descriptor_t) (b : loc) : nat :=
  base.size (filter (λ kd : loc * descriptor_t, kd.1 ≠ h ∧ block_ptr kd.2 = b) hs).

(** The bookkeeping is sound: every handle names an allocated block, and
    every allocated block counts the handles that name it. *)
Definition counted (hs : gmap loc descriptor_t) (bs : gmap loc block.t) : Prop :=
  (∀ h d, hs !! h = Some d → is_Some (bs !! block_ptr d)) ∧
  (∀ b blk, bs !! b = Some blk → block.count blk = Z.of_nat (refs hs b)).

Definition wf (σ : state) : Prop := counted (handles σ) (blocks σ).

(** ** Sequences of calls made by client code *)
Inductive api_op :=
| CopyHandle (src : loc)                      (* ptr<T> q(p) *)
| WidenHandle (T U : cls) (src : loc)         (* ptr<T> q(p), p a ptr<U> *)
| NarrowHandle (T U : cls) (src : loc)        (* ptr<T> q(p), explicit *)
| HandleFromVal (T U : cls) (v : val)         (* ptr<T> q(v) *)
| NarrowFromVal (T U : cls) (v : val)         (* ptr<T> q(v), explicit *)
| AssignHandle (this src : loc)               (* q = p *)
| AssignWiden (T U : cls) (this src : loc)    (* q = p, p a ptr<U> *)
| DestroyHandle (h : loc)                     (* ~ptr *)
| MakeVal (c : val_ctor)                      (* a val that stores its own value *)
| AdoptPointer (T : cls) (SmallStorageSize : Z) (p : pointer)  (* val<T>(T * ) *)
| CloneVal (T : cls) (v : val)                (* v.clone() *)
| DestroyVal (v : val).                       (* ~val *)

Definition run_op (H : hierarchy) (o : api_op) : M unit :=
  match o with
  | CopyHandle src => _ ← ptr_copy src; mret tt
  | WidenHandle T U src => _ ← ptr_widen H T U src; mret tt
  | NarrowHandle T U src => _ ← ptr_narrow H T U src; mret tt
  | HandleFromVal T U v => _ ← ptr_from_val H T U v; mret tt
  | NarrowFromVal T U v => _ ← ptr_narrow_from_val H T U v; mret tt
  | AssignHandle this src => ptr_assign this src
  | AssignWiden T U this src => ptr_assign_widen H T U this src
  | DestroyHandle h => ptr_dtor h
  | MakeVal c => _ ← run_ctor H c; mret tt
  | AdoptPointer T n p => _ ← val_from_pointer T n p; mret tt
  | CloneVal T v => _ ← val_clone H T v; mret tt
  | DestroyVal v => val_dtor H v
  end.

(** The handle a call overwrites or destroys, if any. *)
Definition target (o : api_op) : option loc :=
  match o with
  | AssignHandle this _ | AssignWiden _ _ this _ => Some this
  | DestroyHandle h => Some h
  | DestroyVal v => Some (data v)
  | _ => None
  end.

(** Client code cannot name the private handle of a container: it leaves
    [h] alone when no call has it as target. *)
Definition leaves_alone (h : loc) (o : api_op) : Prop := target o ≠ Some h.

#[global] Instance leaves_alone_dec h o : Decision (leaves_alone h o).
Proof. unfold leaves_alone. apply _. Defined.

(** One call, observed after it returned or threw. *)
Definition step (H : hierarchy) (o : api_op) (σ : state) : option state :=
  final_state (run_op H o σ).

Fixpoint run (H : hierarchy) (ops : list api_op) (σ : state) : option state :=
  match ops with
  | [] => Some σ
  | o :: ops' =>
      match step H o σ with
      | Some σ' => run H ops' σ'
      | None => None
      end
  end.

(** ** Traces *)

(** The value a block's counter has right after an event, for the events
    that change one. *)
Definition count_after (e : event) : option (loc * Z) :=
  match e with
  | EvFetchAdd b old => Some (b, wrap_intptr (old + 1))
  | EvFetchSub b old => Some (b, wrap_intptr (old - 1))
  | _ => None
  end.

(** The successive values the counter of [b] takes along a trace. *)
Definition transient_counts (b : loc) (es : list event) : list Z :=
  omap (λ e, match count_after e with
             | Some (b', c) => if decide (b' = b) then Some c else None
             | None => None
             end) es.

(** ** Bookkeeping updates *)

(** Whether descriptor [d] names block [b], as a number. *)
Definition names (b : loc) (d : descriptor_t) : nat :=
  if decide (block_ptr d = b) then 1%nat else 0%nat.

(** The block map after [increment()] on [b], which held [blk]. *)
Definition bump (b : loc) (blk : block.t) (bs : gmap loc block.t) : gmap loc block.t :=
  <[b := block.mk (wrap_intptr (block.count blk + 1)) (block.data blk)]> bs.

(** The block map after [decrement()] on [b], which held [blk]. *)
Definition drop (b : loc) (blk : block.t) (bs : gmap loc block.t) : gmap loc block.t :=
  if decide (block.count blk = 1) then delete b bs
  else <[b := block.mk (wrap_intptr (block.count blk - 1)) (block.data blk)]> bs.

(** What a constructor, an assignment or a destructor does to the handles
    and the blocks, taken as a whole; the label is the handle it overwrites
    or destroys. *)
Inductive unit_step (σ σ' : state) : option loc → Prop :=
| step_share src d0 h d blk :
    handles σ !! src = Some d0 →
    block_ptr d = block_ptr d0 →
    handles σ !! h = None →
    blocks σ !! block_ptr d = Some blk →
    handles σ' = <[h := d]> (handles σ) →
    blocks σ' = bump (block_ptr d) blk (blocks σ) →
    unit_step σ σ' None
| step_create h d p :
    handles σ !! h = None →
    blocks σ !! block_ptr d = None →
    handles σ' = <[h := d]> (handles σ) →
    blocks σ' = <[block_ptr d := block.mk 1 p]> (blocks σ) →
    unit_step σ σ' None
| step_release h d blk :
    handles σ !! h = Some d →
    blocks σ !! block_ptr d = Some blk →
    handles σ' = delete h (handles σ) →
    blocks σ' = drop (block_ptr d) blk (blocks σ) →
    unit_step σ σ' (Some h)
| step_retarget this d d' other dn blkn blko :
    handles σ !! this = Some d →
    handles σ !! other = Some dn →
    block_ptr d' = block_ptr dn →
    blocks σ !! block_ptr dn = Some blkn →
    bump (block_ptr dn) blkn (blocks σ) !! block_ptr d = Some blko →
    handles σ' = <[this := d']> (handles σ) →
    blocks σ' = drop (block_ptr d) blko (bump (block_ptr dn) blkn (blocks σ)) →
    unit_step σ σ' (Some this)
| step_leak b p :
    blocks σ !! b = None →
    handles σ' = handles σ →
    blocks σ' = <[b := block.mk 0 p]> (blocks σ) →
    unit_step σ σ' None
| step_data h d blk p :
    handles σ !! h = Some d →
    blocks σ !! block_ptr d = Some blk →
    handles σ' = handles σ →
    blocks σ' = <[block_ptr d := block.mk (block.count blk) p]> (blocks σ) →
    unit_step σ σ' None.

(** A call is a short chain of such updates. *)
Inductive chain : state → list (option loc) → state → Prop :=
| chain_done σ σ' :
    handles σ' = handles σ → blocks σ' = blocks σ → chain σ [] σ'
| chain_step σ σ1 σ' t ts :
    unit_step σ σ1 t → chain σ1 ts σ' → chain σ (t :: ts) σ'.

(** ** Weakest preconditions

    [wp m Q E σ]: if [m] returns from [σ] then [Q] holds of its result, and
    if it throws then [E] holds. *)
Definition wp {A} (m : M A) (Q : A → state → Prop) (E : exn → state → Prop)
    (σ : state) : Prop :=
  match m σ with
  | Ok a σ' => Q a σ'
  | Throw e σ' => E e σ'
  | Aborted _ | Undefined => True
  end.

(** Block [b] is allocated, holds [blk], and no handle names it. *)
Definition leaked (b : loc) (blk : block.t) (σ : state) : Prop :=
  blocks σ !! b = Some blk ∧ refs (handles σ) b = 0%nat.

(** A computation that leaves handles and blocks as they are, and throws
    only exceptions in [X]. *)
Definition quiet {A} (X : exn → Prop) (m : M A) : Prop :=
  ∀ σ, wp m (λ _ σ', handles σ' = handles σ ∧ blocks σ' = blocks σ)
            (λ e σ', X e ∧ handles σ' = handles σ ∧ blocks σ' = blocks σ) σ.

(** What the constructors of a handle from the live handle [src] do: a
    fresh handle [h] takes the descriptor of [src], adjusted by [f], and the
    block is incremented. *)
Definition shares (σ : state) (src : loc) (f : descriptor_t → descriptor_t)
    (h : loc) (σ' : state) : Prop :=
  ∃ d blk,
    handles σ !! src = Some d ∧
    blocks σ !! block_ptr d = Some blk ∧
    h = fresh (dom (handles σ)) ∧
    handles σ' = <[h := f d]> (handles σ) ∧
    blocks σ' = bump (block_ptr d) blk (blocks σ).

(** What [~ptr()] does. *)
Definition releases (σ : state) (h : loc) (σ' : state) : Prop :=
  ∃ d blk,
    handles σ !! h = Some d ∧
    blocks σ !! block_ptr d = Some blk ∧
    handles σ' = delete h (handles σ) ∧
    blocks σ' = drop (block_ptr d) blk (blocks σ).

(** What the body of an assignment does: [this] takes the descriptor of the
    parameter [other], adjusted by [f]; the new block is incremented, then
    the old one decremented. *)
Definition retargets (σ : state) (this other : loc) (f : descriptor_t → descriptor_t)
    (σ' : state) : Prop :=
  ∃ d dn blkn blko,
    handles σ !! this = Some d ∧
    handles σ !! other = Some dn ∧
    blocks σ !! block_ptr dn = Some blkn ∧
    bump (block_ptr dn) blkn (blocks σ) !! block_ptr d = Some blko ∧
    handles σ' = <[this := f dn]> (handles σ) ∧
    blocks σ' = drop (block_ptr d) blko (bump (block_ptr dn) blkn (blocks σ)).

(** What a constructor of a container that stores or adopts a value does:
    a fresh block at count one, named by a fresh handle. *)
Definition creates (σ : state) (w : val) (σ' : state) : Prop :=
  ∃ d p,
    handles σ !! data w = None ∧
    blocks σ !! block_ptr d = None ∧
    p ≠ Null ∧
    handles σ' = <[data w := d]> (handles σ) ∧
    blocks σ' = <[block_ptr d := block.mk 1 p]> (blocks σ).

(** A computation that throws leaves the bookkeeping alone. *)
Definition unchanged (σ σ' : state) : Prop :=
  handles σ' = handles σ ∧ blocks σ' = blocks σ.

Definition never : exn → state → Prop := λ _ _, False.

(** What [val::clone] does to the bookkeeping: a fresh block at count zero,
    and no handle for it. *)
Definition leaks (σ : state) (b : loc) (p : pointer) (σ' : state) : Prop :=
  blocks σ !! b = None ∧ p ≠ Null ∧
  handles σ' = handles σ ∧
  blocks σ' = <[b := block.mk 0 p]> (blocks σ).

(** How many handles a chain of updates can add. *)
Definition growth (ts : list (option loc)) : nat :=
  length (filter (λ t : option loc, t = None) ts).

(** What one client call does: a short chain of updates whose targets are
    the call's own target or handles that did not exist before. *)
Definition op_effect (o : api_op) (σ σ' : state) : Prop :=
  ∃ ts, chain σ ts σ' ∧ (length ts ≤ 3)%nat ∧ (growth ts ≤ 1)%nat ∧
        ∀ h, Some h ∈ ts → target o = Some h ∨ handles σ !! h = None.

(** ** Example states *)

(** The heap after [val<Shape> a(Circle{5})]. *)
Definition example_state : state :=
  default empty_state (run shapes [MakeVal (FromValue Shape 16 Circle [5])] empty_state).

(** The container [a] of [example_state]. *)
Definition example_val : val :=
  {| SmallStorageSize := 16; small_storage := 1%positive; data := 1%positive |}.

(** [ptr<Shape> p(a); ptr<Shape> q(p); q = p; ~p] *)
Definition example_ops : list api_op :=
  [HandleFromVal Shape Shape example_val; CopyHandle 2%positive;
   AssignHandle 3%positive 2%positive; DestroyHandle 2%positive].

(** The events of the body of an assignment to [this] from the parameter
    [other], in order: the descriptor of [other] is read under its lock, the
    new block [bn] is incremented from [cn], the descriptor [dn'] is stored
    in [this] under the lock of [this], and only then the old block [bo] is
    decremented from [co], and deleted if that was its last reference. *)
Definition assign_events (this other : loc) (dn' : descriptor_t) (bn bo : loc)
    (cn co : Z) : list event :=
  [EvLock other; EvUnlock other; EvFetchAdd bn cn;
   EvLock this; EvStoreDescriptor this dn'; EvUnlock this;
   EvFetchSub bo co] ++ (if decide (co = 1) then [EvDeleteBlock bo] else []).

(** The events a call appended to the trace. *)
Definition new_events (σ σ' : state) : list event :=
  list.drop (length (trace σ)) (trace σ').

(** [example_state] after [ptr<Shape> p(a)]: the handle [p] is at location 2. *)
Definition example_state2 : state :=
  default empty_state (run shapes [HandleFromVal Shape Shape example_val] example_state).

(** The descriptor both handles of [example_state2] hold, and their block. *)
Definition example_descriptor : descriptor_t :=
  {| block_ptr := 1%positive; upcast_offset := 0; op_ptr := Circle |}.

Definition example_block : block.t := block.mk 2 (Ptr 2%positive 0).

(** The heap after [val<Label> l(Label{1, 2})]: its handle is at location 1
    and its block points at the object at location 2. *)
Definition label_state : state :=
  default empty_state (run shapes [MakeVal (FromValue Label 24 Label [1; 2])] empty_state).

(** The heap after [val<Named> n(Label{1, 2})]: the handle of [n] is at
    location 1 with offset 8, the [Label] object at location 2. *)
Definition named_state : state :=
  default empty_state (run shapes [MakeVal (FromValue Named 24 Label [1; 2])] empty_state).

Definition named_val : val :=
  {| SmallStorageSize := 24; small_storage := 1%positive; data := 1%positive |}.

(** ** Frames and lifetimes *)

(** Every handle, block and cell of [σ] is still there in [σ'], as it was. *)
Definition extends (σ σ' : state) : Prop :=
  handles σ ⊆ handles σ' ∧ blocks σ ⊆ blocks σ' ∧ objs σ ⊆ objs σ'.

(** The state a call ends in, also when it ends in [abort()]. *)
Definition last_state {A} (o : outcome A) : option state :=
  match o with
  | Ok _ σ | Throw _ σ | Aborted σ => Some σ
  | Undefined => None
  end.

(** ** The discipline of the handle mutexes

    [lock_scan held es] follows the events [es], [held] being the handle
    whose mutex is held before them, and gives the handle whose mutex is held
    after them.  It gives [None] when a mutex is taken while one is held, when
    a mutex is released that is not held, when the descriptor of one handle is
    written under the mutex of another, and when a counter, the data pointer
    of a block, a block's storage or the dispatcher is used while a mutex is
    held.  A descriptor written with no mutex held is the initialisation of a
    handle under construction. *)
Fixpoint lock_scan (held : option loc) (es : list event) : option (option loc) :=
  match es with
  | [] => Some held
  | e :: es' =>
      match e, held with
      | EvLock h, None => lock_scan (Some h) es'
      | EvLock _, Some _ => None
      | EvUnlock h, Some h' => if decide (h = h') then lock_scan None es' else None
      | EvUnlock _, None => None
      | EvStoreDescriptor h _, Some h' =>
          if decide (h = h') then lock_scan held es' else None
      | EvStoreDescriptor _ _, None => lock_scan None es'
      | _, None => lock_scan None es'
      | _, Some _ => None
      end
  end.

(** The events of a call keep the discipline and leave no mutex held. *)
Definition lock_disciplined (es : list event) : Prop :=
  lock_scan None es = Some None.

(** A computation that only appends events to the trace, and appends
    disciplined ones, however it ends. *)
Definition tidy {A} (m : M A) : Prop :=
  ∀ σ σ', last_state (m σ) = Some σ' →
    ∃ es, trace σ' = trace σ ++ es ∧ lock_disciplined es.

(** The heap after [val<Shape> a(Circle{5}); ptr<Shape> p(a);
    val<Shape> b(Square{7}); ptr<Shape> q(b)]: [p] is the handle at
    location 2 on block 1, [q] the handle at location 4 on block 2, and the
    objects are at locations 2 and 4. *)
Definition example_state3 : state :=
  default empty_state
    (run shapes
       [MakeVal (FromValue Shape 16 Square [7]);
        HandleFromVal Shape Shape
          {| SmallStorageSize := 16; small_storage := 3%positive; data := 3%positive |}]
       example_state2).

(** ** The default buffer size and the factory functions *)

(** [small_storage_size<DefaultSize, T>]: [sizeof(T)] when [T] is a complete
    type, which is what [is_complete_type<T>] tells, and [DefaultSize]
    otherwise. *)
Definition small_storage_size (H : hierarchy) (DefaultSize : Z) (is_complete_type : bool)
    (T : cls) : Z :=
  if is_complete_type then sizeof H T else DefaultSize.

(** [make_val<T>(args...)]: [val<T>(T(args...))], a [val<T>] with the
    default buffer size built from the temporary [T(args...)], which is
    [v]; [T] is complete where a [T] is constructed, and the [val<T>]
    returned is the caller's object. *)
Definition make_val (H : hierarchy) (T : cls) (v : list Z) : M val :=
  val_from_rvalue H T (small_storage_size H 16 true T) T v.

(** [VAL(v)]: [val<T>(v)] *)
Definition VAL (H : hierarchy) (T : cls) (v : list Z) : M val :=
  val_from_value H T (small_storage_size H 16 true T) T v.

(** ** Virtual bases

    [base_disp] gives the bases whose place in an object is fixed by the
    class.  A class can also have a virtual base.  [std::is_base_of] holds
    of it as of any other base, but where the sub-object of a virtual base
    sits is written in the object, so the conversion of a pointer to the
    class into a pointer to the virtual base reads the object pointed at. *)
Record vhierarchy := {
  classes :> hierarchy;
  virtual_base : cls → cls → bool
}.

(** [std::is_base_of<T, U>::value] *)
Definition is_base_of (V : vhierarchy) (T U : cls) : bool :=
  match base_disp V T U with
  | Some _ => true
  | None => virtual_base V T U
  end.

(** [compute_upcast_offset<T, U>()] as it runs: [(T * )((U * )1)] has an
    offset to add unless [T] is a virtual base of [U]; for a virtual base
    the conversion reads the object at address 1, where there is none. *)
Definition compute_upcast_offset_v (V : vhierarchy) (T U : cls) : M Z :=
  if virtual_base V T U then undefined else mret (compute_upcast_offset V T U).

(** [ptr(ptr<U> const & other)], for every [U] that [std::is_base_of<T, U>]
    admits; where [T] is not a virtual base of [U] this is [ptr_widen], and
    so for the two functions after it. *)
Definition ptr_widen_v (V : vhierarchy) (T U : cls) (other : loc) : M loc :=
  d ← get_descriptor other;
  this ← handle_init d;
  d' ← handle_member this;
  block_increment (block_ptr d');;
  n ← compute_upcast_offset_v V T U;
  handle_store this (add_offset d' n);;
  mret this.

(** [ptr(val<U, SmallStorageSizeU> const & other)], likewise *)
Definition ptr_from_val_v (V : vhierarchy) (T U : cls) (other : val) : M loc :=
  d ← get_descriptor (data other);
  this ← handle_init d;
  d' ← handle_member this;
  block_increment (block_ptr d');;
  n ← compute_upcast_offset_v V T U;
  handle_store this (add_offset d' n);;
  mret this.

(** [ptr & operator =(ptr<U> other)], likewise: the body, and the whole
    call with its by-value parameter *)
Definition ptr_assign_widen_body_v (V : vhierarchy) (T U : cls) (this other : loc)
    : M unit :=
  new_descriptor ← get_descriptor other;
  block_increment (block_ptr new_descriptor);;
  n ← compute_upcast_offset_v V T U;
  let new_descriptor := add_offset new_descriptor n in
  old_descriptor ← exchange_descriptor this new_descriptor;
  block_decrement (block_ptr old_descriptor).

Definition ptr_assign_widen_v (V : vhierarchy) (T U : cls) (this src : loc) : M unit :=
  other ← ptr_copy src;
  ptr_assign_widen_body_v V T U this other;;
  ptr_dtor other.

(** The example hierarchy [shapes], which has no virtual base. *)
Definition shapes_v : vhierarchy :=
  {| classes := shapes; virtual_base _ _ := false |}.

(** [class Stream], and [class File : public virtual Stream] *)
Definition Stream : cls := 0%nat.
Definition File : cls := 1%nat.

Definition streams : vhierarchy := {|
  classes := {|
    base_disp T U := if decide (T = U) then Some 0 else None;
    sizeof U := 16;
    copy_ctor U := Some id;
    move_ctor U := Some id
  |};
  virtual_base T U := bool_decide (T = Stream ∧ U = File)
|}.

(** The heap after [val<Stream> s(Stream{1}); ptr<Stream> q(s);
    val<File> f(File{2}); ptr<File> p(f)]: the handle of [f] is at location
    3, [q] at location 2 and [p] at location 4. *)
Definition file_val : val :=
  {| SmallStorageSize := 16; small_storage := 3%positive; data := 3%positive |}.

Definition streams_state : state :=
  default empty_state
    (run streams
       [MakeVal (FromValue Stream 16 Stream [1]);
        HandleFromVal Stream Stream
          {| SmallStorageSize := 16; small_storage := 1%positive; data := 1%positive |};
        MakeVal (FromValue File 16 File [2]);
        HandleFromVal File File file_val]
       empty_state).

(** Constructor [c] returns from [σ] with a [D] of contents [x] in storage
    that was not allocated before and is not the container's inline buffer,
    which is left raw; the container's block, at count one, points at the
    start of that storage. *)
Definition stored_on_heap (H : hierarchy) (c : val_ctor) (D : cls) (x : list Z)
    (σ : state) : Prop :=
  ∃ w σ' d a,
    run_ctor H c σ = Ok w σ' ∧
    objs σ' !! small_storage w = Some RawStorage ∧
    handles σ' !! data w = Some d ∧
    blocks σ' !! block_ptr d = Some (block.mk 1 (Ptr a 0)) ∧
    a ≠ small_storage w ∧
    objs σ !! a = None ∧
    objs σ' !! a = Some (Object D x).

(** ** Reasoning about computations *)

Lemma bind_unfold {A B} (m : M A) (k : A → M B) (σ : state) :
  (m ≫= k) σ =
  match m σ with
  | Ok a σ' => k a σ'
  | Throw e σ' => Throw e σ'
  | Aborted σ' => Aborted σ'
  | Undefined => Undefined
  end.
Proof. reflexivity. Qed.

Lemma bind_Ok {A B} (m : M A) (k : A → M B) σ a σ1 :
  m σ = Ok a σ1 → (m ≫= k) σ = k a σ1.
Proof. intros Hm. rewrite bind_unfold, Hm. reflexivity. Qed.

Lemma bind_Ok_inv {A B} (m : M A) (k : A → M B) σ b σ' :
  (m ≫= k) σ = Ok b σ' → ∃ a σ1, m σ = Ok a σ1 ∧ k a σ1 = Ok b σ'.
Proof.
  rewrite bind_unfold. destruct (m σ) as [a σ1| | |]; try discriminate.
  intros Hk. exists a, σ1. split; [reflexivity | exact Hk].
Qed.

Lemma ret_unfold {A} (a : A) (σ : state) : mret (M := M) a σ = Ok a σ.
Proof. reflexivity. Qed.

(** ** Block construction *)

Lemma block_new_spec (d : pointer) (σ : state) :
  d ≠ Null →
  block_new d σ =
    Ok (fresh (dom (blocks σ)))
       (set_blocks <[fresh (dom (blocks σ)) := block.mk 0 d]> σ).
Proof. intros Hd. unfold block_new. destruct (decide (d = Null)); [done | reflexivity]. Qed.

Lemma fresh_block_unallocated (σ : state) : blocks σ !! fresh (dom (blocks σ)) = None.
Proof. apply not_elem_of_dom, is_fresh. Qed.

Lemma fresh_object_unallocated (σ : state) : objs σ !! fresh (dom (objs σ)) = None.
Proof. apply not_elem_of_dom, is_fresh. Qed.

Lemma fresh_handle_unallocated (σ : state) : handles σ !! fresh (dom (handles σ)) = None.
Proof. apply not_elem_of_dom, is_fresh. Qed.

(** C6: the Block constructor throws [invalid_argument] on a null data
    address and leaves no block behind; every block it does construct starts
    at count zero, was not allocated before and holds the non-null address it
    was given. *)
Theorem block_null_is_invalid_argument (σ : state) (d : pointer) :
  block_new Null σ = Throw invalid_argument σ ∧
  match block_new d σ with
  | Ok b σ' =>
      d ≠ Null ∧ blocks σ !! b = None ∧
      blocks σ' !! b = Some (block.mk 0 d) ∧
      block.data (block.mk 0 d) ≠ Null
  | Throw e σ' => d = Null ∧ e = invalid_argument ∧ σ' = σ
  | Aborted _ | Undefined => False
  end.
Proof.
  split; [reflexivity |].
  unfold block_new. destruct (decide (d = Null)) as [-> | Hd]; simpl.
  - done.
  - split; [done |]. split; [apply fresh_block_unallocated |].
    split; [apply lookup_insert_eq | done].
Qed.

Ltac inv_M :=
  repeat match goal with
  | H : (_ ≫= _) _ = Ok _ _ |- _ =>
      apply bind_Ok_inv in H; destruct H as (? & ? & ? & H)
  | H : mret _ _ = Ok _ _ |- _ => rewrite ret_unfold in H
  | H : Ok _ _ = Ok _ _ |- _ => injection H as ? ?; subst
  | H : Throw _ _ = Ok _ _ |- _ => discriminate H
  | H : Undefined = Ok _ _ |- _ => discriminate H
  | H : Aborted _ = Ok _ _ |- _ => discriminate H
  | H : throw _ _ = Ok _ _ |- _ => discriminate H
  | H : undefined _ = Ok _ _ |- _ => discriminate H
  | H : abort _ = Ok _ _ |- _ => discriminate H
  end.

Lemma val_storage_inv σ a σ' :
  val_storage σ = Ok a σ' →
  a = fresh (dom (objs σ)) ∧ σ' = set_objs <[a := RawStorage]> σ.
Proof. unfold val_storage. intros [= <- <-]. done. Qed.

Lemma small_storage_init_inv ss σ u σ' :
  small_storage_init ss σ = Ok u σ' →
  is_Some (objs σ !! ss) ∧ σ' = set_objs <[ss := RawStorage]> σ.
Proof.
  unfold small_storage_init. destruct (objs σ !! ss) eqn:E; [| discriminate].
  intros [= <- <-]. eauto.
Qed.

Lemma new_object_inv U v σ p σ' :
  new_object U v σ = Ok p σ' →
  p = Ptr (fresh (dom (objs σ))) 0 ∧
  σ' = set_objs <[fresh (dom (objs σ)) := Object U v]> σ.
Proof. unfold new_object. intros [= <- <-]. done. Qed.

Lemma block_new_inv d σ b σ' :
  block_new d σ = Ok b σ' →
  d ≠ Null ∧ b = fresh (dom (blocks σ)) ∧ σ' = set_blocks <[b := block.mk 0 d]> σ.
Proof.
  unfold block_new. destruct (decide (d = Null)); [discriminate |].
  intros [= <- <-]. done.
Qed.

Lemma count_fetch_add_inv b n σ old σ' :
  count_fetch_add b n σ = Ok old σ' →
  ∃ blk, blocks σ !! b = Some blk ∧ old = block.count blk ∧
    σ' = log [EvFetchAdd b old]
           (set_blocks <[b := block.mk (wrap_intptr (old + n)) (block.data blk)]> σ).
Proof.
  unfold count_fetch_add. destruct (blocks σ !! b) as [blk|]; [| discriminate].
  intros [= <- <-]. eauto.
Qed.

Lemma count_fetch_sub_inv b n σ old σ' :
  count_fetch_sub b n σ = Ok old σ' →
  ∃ blk, blocks σ !! b = Some blk ∧ old = block.count blk ∧
    σ' = log [EvFetchSub b old]
           (set_blocks <[b := block.mk (wrap_intptr (old - n)) (block.data blk)]> σ).
Proof.
  unfold count_fetch_sub. destruct (blocks σ !! b) as [blk|]; [| discriminate].
  intros [= <- <-]. eauto.
Qed.

Lemma handle_init_inv d σ h σ' :
  handle_init d σ = Ok h σ' →
  h = fresh (dom (handles σ)) ∧
  σ' = log [EvStoreDescriptor h d] (set_handles <[h := d]> σ).
Proof. unfold handle_init. intros [= <- <-]. done. Qed.

Lemma get_descriptor_inv h σ d σ' :
  get_descriptor h σ = Ok d σ' →
  handles σ !! h = Some d ∧ σ' = log [EvLock h; EvUnlock h] σ.
Proof.
  unfold get_descriptor. destruct (handles σ !! h); [| discriminate].
  intros [= <- <-]. done.
Qed.

Lemma data_load_inv b σ p σ' :
  data_load b σ = Ok p σ' →
  ∃ blk, blocks σ !! b = Some blk ∧ p = block.data blk ∧ σ' = log [EvDataLoad b p] σ.
Proof.
  unfold data_load. destruct (blocks σ !! b) as [blk|]; [| discriminate].
  intros [= <- <-]. eauto.
Qed.

Lemma read_object_inv p σ r σ' :
  read_object p σ = Ok r σ' →
  ∃ a off, p = Ptr a off ∧ objs σ !! a = Some (Object r.1 r.2) ∧ σ' = σ.
Proof.
  unfold read_object. destruct p as [| a off]; [discriminate |].
  destruct (objs σ !! a) as [[D v |] |] eqn:E; try discriminate.
  intros [= <- <-]. exists a, off. done.
Qed.

Lemma emit_inv es σ u σ' : emit es σ = Ok u σ' → σ' = log es σ.
Proof. unfold emit. by intros [= <- <-]. Qed.

Ltac inv_prim :=
  match goal with
  | H : handle_init _ _ = Ok _ _ |- _ => apply handle_init_inv in H; destruct H as [? ?]
  | H : count_fetch_add _ _ _ = Ok _ _ |- _ =>
      apply count_fetch_add_inv in H; destruct H as (? & ? & ? & ?)
  | H : count_fetch_sub _ _ _ = Ok _ _ |- _ =>
      apply count_fetch_sub_inv in H; destruct H as (? & ? & ? & ?)
  | H : get_descriptor _ _ = Ok _ _ |- _ => apply get_descriptor_inv in H; destruct H as [? ?]
  | H : data_load _ _ = Ok _ _ |- _ => apply data_load_inv in H; destruct H as (? & ? & ? & ?)
  | H : block_new _ _ = Ok _ _ |- _ => apply block_new_inv in H; destruct H as (? & ? & ?)
  | H : new_object _ _ _ = Ok _ _ |- _ => apply new_object_inv in H; destruct H as [? ?]
  | H : val_storage _ = Ok _ _ |- _ => apply val_storage_inv in H; destruct H as [? ?]
  | H : small_storage_init _ _ = Ok _ _ |- _ =>
      apply small_storage_init_inv in H; destruct H as [? ?]
  | H : read_object _ _ = Ok _ _ |- _ =>
      apply read_object_inv in H; destruct H as (? & ? & ? & ? & ?)
  | H : emit _ _ = Ok _ _ |- _ => apply emit_inv in H
  end.

Ltac inv_all := repeat (inv_M; try inv_prim); subst.

Lemma ptr_of_block_inv b off U σ h σ' :
  ptr_of_block b off U σ = Ok h σ' →
  ∃ blk, blocks σ !! b = Some blk ∧ h = fresh (dom (handles σ)) ∧
    handles σ' = <[h := {| block_ptr := b; upcast_offset := off; op_ptr := U |}]> (handles σ) ∧
    blocks σ' = <[b := block.mk (wrap_intptr (block.count blk + 1)) (block.data blk)]> (blocks σ) ∧
    objs σ' = objs σ.
Proof.
  unfold ptr_of_block, block_increment. intros Hr. inv_all.
  eexists. done.
Qed.

Lemma ptr_of_descriptor_inv d σ h σ' :
  ptr_of_descriptor d σ = Ok h σ' →
  ∃ blk, blocks σ !! block_ptr d = Some blk ∧ h = fresh (dom (handles σ)) ∧
    handles σ' = <[h := d]> (handles σ) ∧
    blocks σ' = <[block_ptr d := block.mk (wrap_intptr (block.count blk + 1)) (block.data blk)]> (blocks σ) ∧
    objs σ' = objs σ.
Proof.
  unfold ptr_of_descriptor, block_increment. intros Hr. inv_all.
  eexists. done.
Qed.

Lemma clone_heap_inv H U value σ p σ' :
  clone H U value Null σ = Ok p σ' →
  ∃ copy D v a off, copy_ctor H U = Some copy ∧ 
    value = Ptr a off ∧ objs σ !! a = Some (Object D v) ∧
    p = Ptr (fresh (dom (objs σ))) 0 ∧
    objs σ' = <[fresh (dom (objs σ)) := Object U (copy v)]> (objs σ) ∧
    blocks σ' = blocks σ ∧ handles σ' = handles σ.
Proof.
  unfold clone, op, clone_impl. intros Hr. inv_all.
  destruct (copy_ctor H U) as [copy|]; inv_all.
  match goal with x : (cls * list Z)%type |- _ => destruct x as [D v] end.
  simpl in *. inv_all.
  by exists copy, D, v, x2, x3.
Qed.

Lemma type_inv H U σ r σ' :
  type H U σ = Ok r σ' → σ' = log [EvOp U TYPE Null Null] σ.
Proof. unfold type, op. intros Hr. inv_all. done. Qed.

Lemma size_inv H U σ r σ' :
  size H U σ = Ok r σ' → r = wrap_size (sizeof H U) ∧ σ' = log [EvOp U SIZE Null Null] σ.
Proof. unfold size, op. intros Hr. inv_all. done. Qed.

Lemma ptr_clone_heap_inv H T h off σ d σ' :
  ptr_clone H T h off Null σ = Ok d σ' →
  ∃ d0 blk copy D v a o,
    handles σ !! h = Some d0 ∧ blocks σ !! block_ptr d0 = Some blk ∧
    block.data blk = Ptr a o ∧ objs σ !! a = Some (Object D v) ∧
    copy_ctor H (op_ptr d0) = Some copy ∧
    d = {| block_ptr := fresh (dom (blocks σ));
           upcast_offset := wrap_size (upcast_offset d0 + off);
           op_ptr := op_ptr d0 |} ∧
    objs σ' = <[fresh (dom (objs σ)) := Object (op_ptr d0) (copy v)]> (objs σ) ∧
    blocks σ' = <[fresh (dom (blocks σ)) := block.mk 0 (Ptr (fresh (dom (objs σ))) 0)]> (blocks σ) ∧
    handles σ' = handles σ.
Proof.
  unfold ptr_clone, emit_heap_warning. intros Hr. simpl in Hr. inv_all.
  match goal with Ht : type _ _ _ = Ok _ _ |- _ => apply type_inv in Ht end.
  match goal with Hc : clone _ _ _ _ _ = Ok _ _ |- _ =>
    apply clone_heap_inv in Hc; destruct Hc as (copy & D & v & a & o & ? & ? & ? & ? & Ho & Hb & Hh) end.
  subst. simpl in *.
  eexists _, _, copy, D, v, a, o. rewrite Ho, Hb, Hh. done.
Qed.

Lemma fresh_insert_ne {V} (m : gmap loc V) (k : loc) (x : V) :
  fresh (dom (<[k := x]> m)) ≠ k.
Proof.
  intros E. pose proof (is_fresh (dom (<[k := x]> m))) as Hf.
  rewrite E in Hf. apply Hf. apply elem_of_dom. rewrite lookup_insert_eq. eauto.
Qed.

Lemma fresh_insert_None {V} (m : gmap loc V) (k : loc) (x : V) :
  m !! fresh (dom (<[k := x]> m)) = None.
Proof.
  apply not_elem_of_dom. intros E.
  apply (is_fresh (dom (<[k := x]> m))).
  apply elem_of_dom. rewrite lookup_insert_ne; [by apply elem_of_dom |].
  intros E'. by apply (fresh_insert_ne m k x).
Qed.

Ltac inv_handle_ctor :=
  match goal with
  | Hp : ptr_of_block _ _ _ _ = Ok _ _ |- _ =>
      apply ptr_of_block_inv in Hp; destruct Hp as (? & ? & ? & ? & ? & ?)
  | Hp : ptr_of_descriptor _ _ = Ok _ _ |- _ =>
      apply ptr_of_descriptor_inv in Hp; destruct Hp as (? & ? & ? & ? & ? & ?)
  end.

Lemma val_of_value_heap (H : hierarchy) T n ss U (p : pointer) σ w σ' a x :
  objs σ !! ss = Some RawStorage →
  objs σ !! a = Some x →
  a ≠ ss →
  val_of_pointer H T n ss U (Ptr a 0) σ = Ok w σ' →
  small_storage w = ss ∧
  objs σ' = objs σ ∧
  ∃ d blk,
    handles σ' !! data w = Some d ∧
    blocks σ' !! block_ptr d = Some blk ∧
    block.data blk = Ptr a 0.
Proof.
  intros Hss Ha Hne Hr. unfold val_of_pointer in Hr. inv_all. inv_handle_ctor.
  subst. simpl in *. split; [done |].
  split. { etrans; [eassumption |]. by apply insert_id. }
  eexists _, _. split; [match goal with Hh : handles _ = _ |- _ => rewrite Hh end; apply lookup_insert_eq |].
  simpl. match goal with Hb : blocks σ' = _ |- _ => rewrite Hb end.
  split; [apply lookup_insert_eq |]. simpl.
  match goal with Hb : _ !! _ = Some ?b |- block.data ?b = _ =>
    rewrite lookup_insert_eq in Hb; by injection Hb as <- end.
Qed.

Ltac clone_ctor_done :=
  repeat match goal with
  | Hx : context [<[?k := ?x]> (<[?k := ?y]> ?m)] |- _ => rewrite insert_insert_eq in Hx
  end;
  match goal with
  | Ho' : objs ?s' = objs ?x, Ho : objs ?x = _, Hb' : blocks ?s' = _, Hb : blocks ?x = _,
    Hh' : handles ?s' = _, Hx : blocks ?x !! _ = Some ?b |- _ =>
      rewrite Hb, lookup_insert_eq in Hx; injection Hx as <-;
      rewrite Ho', Ho, Hh', Hb', Hb; simpl;
      split; [rewrite lookup_insert_ne by apply fresh_insert_ne; apply lookup_insert_eq |];
      eexists _, _, _, _, _;
      split; [apply lookup_insert_eq |]; simpl;
      split; [apply lookup_insert_eq |]; simpl;
      split; [reflexivity |];
      split; [apply fresh_insert_ne |];
      split; [apply fresh_insert_None | apply lookup_insert_eq]
  end.

Lemma op_clone_noncopyable H U value placement σ :
  copy_ctor H U = None →
  op H U CLONE value placement σ =
    Throw logic_error (log [EvOp U CLONE value placement] σ).
Proof.
  intros Hnc. unfold op, clone_impl. rewrite Hnc. reflexivity.
Qed.

Ltac msimpl := repeat first [rewrite bind_unfold | progress simpl].

Lemma ptr_clone_noncopyable H T h off placement σ d blk :
  handles σ !! h = Some d →
  blocks σ !! block_ptr d = Some blk →
  copy_ctor H (op_ptr d) = None →
  ∃ σ', ptr_clone H T h off placement σ = Throw logic_error σ' ∧
        blocks σ' = blocks σ ∧ handles σ' = handles σ ∧ objs σ' = objs σ.
Proof.
  intros Hh Hb Hnc. unfold ptr_clone.
  rewrite bind_unfold. unfold get_descriptor at 1. rewrite Hh.
  destruct (decide (placement = Null)) as [-> | Hp].
  - unfold type, emit_heap_warning, data_load, clone. msimpl. rewrite Hb. msimpl.
    rewrite op_clone_noncopyable by done.
    eexists. split; [reflexivity |]. done.
  - unfold data_load, clone. msimpl. rewrite Hb. msimpl.
    rewrite op_clone_noncopyable by done.
    eexists. split; [reflexivity |]. done.
Qed.

(** C7: for a stored type that is not copy-constructible the dispatcher's
    clone throws [logic_error], and so do copying a container that holds
    such a value and [val::clone], without creating a block; constructing
    the container, from a pointer it adopts or from an rvalue, succeeds. *)
Theorem clone_of_noncopyable_is_logic_error (H : hierarchy) (U : cls)
    (Hnc : copy_ctor H U = None) :
  (∀ value placement σ, ∃ σ', clone H U value placement σ = Throw logic_error σ') ∧
  (∀ T v σ d blk,
     handles σ !! data v = Some d → op_ptr d = U → blocks σ !! block_ptr d = Some blk →
     (∃ σ', val_copy H T v σ = Throw logic_error σ' ∧ blocks σ' = blocks σ) ∧
     (∃ σ', val_clone H T v σ = Throw logic_error σ' ∧ blocks σ' = blocks σ)) ∧
  (∀ n p σ, p ≠ Null → ∃ w σ', val_from_pointer U n p σ = Ok w σ') ∧
  (∀ T n x σ, is_Some (move_ctor H U) → ∃ w σ', val_from_rvalue H T n U x σ = Ok w σ').
Proof.
  repeat split.
  - intros value placement σ. unfold clone. rewrite bind_unfold, op_clone_noncopyable by done.
    eauto.
  - unfold val_copy, val_storage, small_storage_init. msimpl.
    rewrite lookup_insert_eq. msimpl.
    match goal with |- context [ptr_clone H T (data v) 0 ?p ?s] =>
      destruct (ptr_clone_noncopyable H T (data v) 0 p s d blk) as (σ' & -> & Hbl & _)
    end; simpl; try done; [by subst |].
    eexists; split; [reflexivity | rewrite Hbl; reflexivity].
  - unfold val_clone. rewrite bind_unfold.
    edestruct (ptr_clone_noncopyable H T (data v) 0 Null σ) as (σ' & -> & Hbl & _); eauto.
    by subst.
  - intros n p σ Hp. unfold val_from_pointer, val_storage, small_storage_init.
    msimpl. rewrite lookup_insert_eq. msimpl. rewrite block_new_spec by done.
    unfold ptr_of_block, block_increment, handle_init, count_fetch_add. msimpl.
    rewrite lookup_insert_eq. msimpl. eauto.
  - intros T n x σ [move Hm]. unfold val_from_rvalue, construct_move, val_of_pointer.
    rewrite Hm. unfold val_storage, emit_heap_warning2, new_object, small_storage_init.
    msimpl.
    rewrite lookup_insert_ne by apply fresh_insert_ne. rewrite lookup_insert_eq.
    msimpl. unfold block_new. msimpl.
    unfold ptr_of_block, block_increment, handle_init, count_fetch_add. msimpl.
    rewrite lookup_insert_eq. msimpl. eauto.
Qed.

Lemma clone_of_noncopyable_is_logic_error_witness :
  copy_ctor shapes Unique = None ∧
  ∃ w σ, val_from_rvalue shapes Unique 16 Unique [5] empty_state = Ok w σ ∧
    ∃ σ', val_copy shapes Unique w σ = Throw logic_error σ' ∧ blocks σ' = blocks σ.
Proof.
  split; [reflexivity |].
  eexists _, _. split; [vm_compute; reflexivity |].
  refine (proj1 (proj1 (proj2 (clone_of_noncopyable_is_logic_error shapes Unique eq_refl))
                   Unique _ _ _ _ _ _ _)).
  - vm_compute. reflexivity.
  - reflexivity.
  - vm_compute. reflexivity.
Defined.

(** ** Counting references *)


Lemma refs_insert_fresh hs h d b :
  hs !! h = None → refs (<[h := d]> hs) b = (refs hs b + names b d)%nat.
Proof.
  intros Hh. unfold refs, names. rewrite map_filter_insert. simpl.
  destruct (decide (block_ptr d = b)).
  - rewrite map_size_insert_None; [lia |].
    rewrite map_lookup_filter_None. by left.
  - rewrite delete_id by done. lia.
Qed.

Lemma refs_delete hs h d b :
  hs !! h = Some d → refs hs b = (refs (delete h hs) b + names b d)%nat.
Proof.
  intros Hh. rewrite <- (insert_delete_id hs h d) at 1 by done.
  apply refs_insert_fresh, lookup_delete_eq.
Qed.

Lemma refs_insert hs h d d' b :
  hs !! h = Some d →
  (refs (<[h := d']> hs) b + names b d = refs hs b + names b d')%nat.
Proof.
  intros Hh. rewrite <- insert_delete_eq.
  rewrite refs_insert_fresh by apply lookup_delete_eq.
  rewrite (refs_delete hs h d b) by done. lia.
Qed.

Lemma refs_le_size hs b : (refs hs b ≤ base.size hs)%nat.
Proof. unfold refs. apply map_subseteq_size, map_filter_subseteq. Qed.

Lemma refs_pos hs h d : hs !! h = Some d → (1 ≤ refs hs (block_ptr d))%nat.
Proof.
  intros Hh. rewrite (refs_delete hs h d) by done. unfold names.
  rewrite decide_True by done. lia.
Qed.

Lemma refs_unnamed hs b :
  (∀ h d, hs !! h = Some d → block_ptr d ≠ b) → refs hs b = 0%nat.
Proof.
  intros Hn. unfold refs. apply map_size_empty_iff, map_empty_filter_2.
  intros h d Hh. simpl. by apply (Hn h).
Qed.

(** ** The shapes of updates that keep the bookkeeping sound *)



Lemma wrap_intptr_small z :
  - 2 ^ 63 ≤ z < 2 ^ 63 → wrap_intptr z = z.
Proof.
  intros Hz. unfold wrap_intptr, size_bits.
  change (2 ^ (64 - 1)) with (2 ^ 63). change (2 ^ 64) with (2 * 2 ^ 63).
  rewrite Z.mod_small; lia.
Qed.

Lemma counted_share hs bs h d blk :
  counted hs bs →
  hs !! h = None →
  bs !! block_ptr d = Some blk →
  Z.of_nat (base.size hs) + 1 < 2 ^ 63 →
  counted (<[h := d]> hs) (bump (block_ptr d) blk bs).
Proof.
  intros [Ha Hc] Hh Hb Hsz. unfold bump. split.
  - intros h' d' Hh'. apply lookup_insert_Some in Hh' as [[<- <-] | [Hne Hh']].
    + rewrite lookup_insert_eq. eauto.
    + destruct (decide (block_ptr d = block_ptr d')) as [-> | Hn].
      * rewrite lookup_insert_eq. eauto.
      * rewrite lookup_insert_ne by done. eauto.
  - intros b blk' Hb'. rewrite refs_insert_fresh by done. unfold names.
    apply lookup_insert_Some in Hb' as [[<- <-] | [Hne Hb']].
    + rewrite decide_True by done. simpl. rewrite (Hc _ _ Hb).
      pose proof (refs_le_size hs (block_ptr d)).
      rewrite wrap_intptr_small; lia.
    + rewrite decide_False by done. rewrite (Hc _ _ Hb'). lia.
Qed.

Lemma counted_release hs bs h d blk :
  counted hs bs →
  hs !! h = Some d →
  bs !! block_ptr d = Some blk →
  Z.of_nat (base.size hs) < 2 ^ 63 →
  counted (delete h hs) (drop (block_ptr d) blk bs).
Proof.
  intros [Ha Hc] Hh Hb Hsz.
  pose proof (Hc _ _ Hb) as Hcnt.
  pose proof (refs_delete hs h d (block_ptr d) Hh) as Hr.
  unfold names in Hr. rewrite decide_True in Hr by done.
  pose proof (refs_le_size hs (block_ptr d)) as Hle.
  unfold drop. split.
  - intros h' d' Hh'. apply lookup_delete_Some in Hh' as [Hne Hh'].
    destruct (decide (block_ptr d' = block_ptr d)) as [Heq | Hn].
    + pose proof (refs_pos _ _ _ (proj2 (lookup_delete_Some hs h h' d') (conj Hne Hh'))) as Hp.
      rewrite Heq in Hp.
      rewrite decide_False by lia. rewrite Heq, lookup_insert_eq. eauto.
    + destruct (decide (block.count blk = 1)).
      * rewrite lookup_delete_ne by done. eauto.
      * rewrite lookup_insert_ne by done. eauto.
  - intros b blk' Hb'.
    destruct (decide (block.count blk = 1)) as [H1 | H1].
    + apply lookup_delete_Some in Hb' as [Hne Hb'].
      rewrite (Hc _ _ Hb'), (refs_delete hs h d b Hh). unfold names.
      rewrite decide_False by done. lia.
    + apply lookup_insert_Some in Hb' as [[<- <-] | [Hne Hb']].
      * simpl. rewrite wrap_intptr_small; lia.
      * rewrite (Hc _ _ Hb'), (refs_delete hs h d b Hh). unfold names.
        rewrite decide_False by done. lia.
Qed.

Lemma counted_leak hs bs b p :
  counted hs bs → bs !! b = None → counted hs (<[b := block.mk 0 p]> bs).
Proof.
  intros [Ha Hc] Hb. split.
  - intros h d Hh. destruct (Ha _ _ Hh) as [blk Hblk].
    rewrite lookup_insert_ne; [eauto |]. intros E. rewrite E in Hb. congruence.
  - intros b' blk' Hb'. apply lookup_insert_Some in Hb' as [[<- <-] | [Hne Hb']]; [| eauto].
    simpl. rewrite refs_unnamed; [done |].
    intros h d Hh <-. destruct (Ha _ _ Hh) as [? ?]. congruence.
Qed.

Lemma counted_data hs bs b blk p :
  counted hs bs → bs !! b = Some blk →
  counted hs (<[b := block.mk (block.count blk) p]> bs).
Proof.
  intros [Ha Hc] Hb. split.
  - intros h d Hh. destruct (decide (block_ptr d = b)) as [-> | Hn].
    + rewrite lookup_insert_eq. eauto.
    + rewrite lookup_insert_ne by done. eauto.
  - intros b' blk' Hb'. apply lookup_insert_Some in Hb' as [[<- <-] | [Hne Hb']].
    + simpl. by apply Hc.
    + by apply Hc.
Qed.

Lemma counted_retarget hs bs this d d' other dn blkn blko :
  counted hs bs →
  hs !! this = Some d →
  hs !! other = Some dn →
  block_ptr d' = block_ptr dn →
  bs !! block_ptr dn = Some blkn →
  bump (block_ptr dn) blkn bs !! block_ptr d = Some blko →
  Z.of_nat (base.size hs) + 1 < 2 ^ 63 →
  counted (<[this := d']> hs) (drop (block_ptr d) blko (bump (block_ptr dn) blkn bs)).
Proof.
  intros Hcnt Hthis Hother Hbn Hblkn Hblko Hsz.
  (* as if a fresh handle took the new descriptor and [this] were destroyed *)
  set (tmp := fresh (dom hs)).
  assert (Htmp : hs !! tmp = None) by apply not_elem_of_dom, is_fresh.
  assert (Hne : tmp ≠ this) by (intros E; rewrite E in Htmp; congruence).
  pose proof (counted_share hs bs tmp d' blkn Hcnt Htmp) as Hs.
  rewrite Hbn in Hs. specialize (Hs Hblkn Hsz).
  pose proof (counted_release (<[tmp := d']> hs) _ this d blko Hs) as Hr.
  rewrite lookup_insert_ne in Hr by done. specialize (Hr Hthis Hblko).
  rewrite map_size_insert_None in Hr by done.
  specialize (Hr ltac:(lia)).
  destruct Hr as [Ha Hc]. split.
  - intros h e Hh. apply lookup_insert_Some in Hh as [[<- <-] | [Hn Hh]].
    + apply (Ha tmp). rewrite lookup_delete_ne by done. apply lookup_insert_eq.
    + apply (Ha h). rewrite lookup_delete_ne by done. by rewrite lookup_insert_ne by congruence.
  - intros b blk Hb. rewrite (Hc _ _ Hb). f_equal.
    rewrite <- (insert_delete_eq hs this d').
    rewrite refs_insert_fresh by apply lookup_delete_eq.
    rewrite delete_insert_ne by done.
    rewrite refs_insert_fresh; [done |].
    rewrite lookup_delete_ne by done. done.
Qed.

Lemma counted_create hs bs h d p :
  counted hs bs →
  hs !! h = None →
  bs !! block_ptr d = None →
  Z.of_nat (base.size hs) + 1 < 2 ^ 63 →
  counted (<[h := d]> hs) (<[block_ptr d := block.mk 1 p]> bs).
Proof.
  intros Hcnt Hh Hb Hsz.
  pose proof (counted_leak hs bs (block_ptr d) p Hcnt Hb) as Hl.
  pose proof (counted_share hs _ h d (block.mk 0 p) Hl Hh) as Hs.
  rewrite lookup_insert_eq in Hs. specialize (Hs eq_refl Hsz).
  unfold bump in Hs. rewrite insert_insert_eq in Hs. exact Hs.
Qed.


Lemma leaked_unnamed b blk σ h d :
  leaked b blk σ → handles σ !! h = Some d → block_ptr d ≠ b.
Proof.
  intros [_ Hr] Hh <-. pose proof (refs_pos _ _ _ Hh). lia.
Qed.

Lemma unit_step_sound σ σ' t :
  unit_step σ σ' t →
  wf σ →
  Z.of_nat (base.size (handles σ)) + 1 < 2 ^ 63 →
  wf σ' ∧
  (base.size (handles σ') ≤ base.size (handles σ) + growth [t])%nat ∧
  (∀ h d, t ≠ Some h → handles σ !! h = Some d → handles σ' !! h = Some d) ∧
  (∀ b blk, leaked b blk σ → leaked b blk σ').
Proof.
  intros Hstep Hwf Hsz. unfold wf, leaked.
  destruct Hstep as [src d0 h d blk Hsrc Hsame Hh Hb -> -> | h d p Hh Hb -> ->
                    | h d blk Hh Hb -> -> | this d d' other dn blkn blko Hthis Hother Hbn Hblkn Hblko -> ->
                    | b p Hb -> -> | h d blk p Hh Hb -> ->].
  - split; [by apply counted_share |]. split; [rewrite map_size_insert_None by done; unfold growth; simpl; lia |].
    split.
    + intros h' d' _ Hh'. rewrite lookup_insert_ne; [done |]. intros <-. congruence.
    + intros b blk' Hl. pose proof (leaked_unnamed _ _ _ _ _ Hl Hsrc) as Hn.
      destruct Hl as [Hl1 Hl2]. split.
      * unfold bump. rewrite lookup_insert_ne by congruence. done.
      * rewrite refs_insert_fresh by done. unfold names.
        rewrite decide_False by congruence. lia.
  - split; [by apply counted_create |]. split; [rewrite map_size_insert_None by done; unfold growth; simpl; lia |].
    split.
    + intros h' d' _ Hh'. rewrite lookup_insert_ne; [done |]. intros <-. congruence.
    + intros b blk' [Hl1 Hl2]. assert (block_ptr d ≠ b) by (intros <-; congruence). split.
      * rewrite lookup_insert_ne by done. done.
      * rewrite refs_insert_fresh by done. unfold names.
        rewrite decide_False by congruence. lia.
  - split; [apply counted_release; [done | done | done | lia] |].
    split; [rewrite map_size_delete, Hh; unfold growth; simpl; lia |].
    split.
    + intros h' d' Hne Hh'. rewrite lookup_delete_ne; [done |]. congruence.
    + intros b blk' Hl. pose proof (leaked_unnamed _ _ _ _ _ Hl Hh) as Hn.
      destruct Hl as [Hl1 Hl2]. split.
      * unfold drop. destruct (decide (block.count blk = 1)).
        -- by rewrite lookup_delete_ne.
        -- by rewrite lookup_insert_ne.
      * pose proof (refs_delete _ _ _ b Hh). lia.
  - split; [by eapply counted_retarget |].
    split; [rewrite map_size_insert_Some by eauto; unfold growth; simpl; lia |].
    split.
    + intros h' e Hne Hh'. rewrite lookup_insert_ne; [done |]. congruence.
    + intros b blk' Hl. pose proof (leaked_unnamed _ _ _ _ _ Hl Hthis) as Hn1.
      pose proof (leaked_unnamed _ _ _ _ _ Hl Hother) as Hn2.
      destruct Hl as [Hl1 Hl2]. split.
      * unfold drop, bump. destruct (decide (block.count blko = 1)).
        -- rewrite lookup_delete_ne by done. by rewrite lookup_insert_ne.
        -- rewrite lookup_insert_ne by done. by rewrite lookup_insert_ne.
      * pose proof (refs_insert _ _ _ d' b Hthis) as Hr. unfold names in Hr.
        rewrite !decide_False in Hr by congruence. lia.
  - split; [by apply counted_leak |]. split; [unfold growth; simpl; lia |]. split; [done |].
    intros b' blk' [Hl1 Hl2]. split; [| done].
    rewrite lookup_insert_ne; [done |]. intros <-. congruence.
  - split; [by apply counted_data |]. split; [unfold growth; simpl; lia |]. split; [done |].
    intros b' blk' Hl. pose proof (leaked_unnamed _ _ _ _ _ Hl Hh) as Hn.
    destruct Hl as [Hl1 Hl2]. split; [| done]. by rewrite lookup_insert_ne.
Qed.

Lemma growth_cons t ts : growth (t :: ts) = (growth [t] + growth ts)%nat.
Proof.
  unfold growth. rewrite !filter_cons, filter_nil.
  destruct (decide (t = None)); simpl; lia.
Qed.

Lemma growth_le_length ts : (growth ts ≤ length ts)%nat.
Proof. unfold growth. apply length_filter. Qed.

Lemma chain_sound σ ts σ' :
  chain σ ts σ' →
  wf σ →
  Z.of_nat (base.size (handles σ)) + Z.of_nat (length ts) < 2 ^ 63 →
  wf σ' ∧
  (base.size (handles σ') ≤ base.size (handles σ) + growth ts)%nat ∧
  (∀ h d, Some h ∉ ts → handles σ !! h = Some d → handles σ' !! h = Some d) ∧
  (∀ b blk, leaked b blk σ → leaked b blk σ').
Proof.
  induction 1 as [σ σ' Hh Hb | σ σ1 σ' t ts Hu Hc IH]; intros Hwf Hsz.
  - unfold wf, leaked. rewrite Hh, Hb.
    split; [done |]. split; [lia |]. split; done.
  - cbn [length] in Hsz.
    destruct (unit_step_sound _ _ _ Hu Hwf ltac:(lia)) as (Hwf1 & Hs1 & Hf1 & Hl1).
    pose proof (growth_le_length [t]) as Hg. cbn [length] in Hg.
    destruct (IH Hwf1 ltac:(lia)) as (Hwf' & Hs' & Hf' & Hl').
    split; [done |]. split; [rewrite growth_cons; lia |]. split.
    + intros h d Hnot Hh. apply Hf'.
      * intros E. apply Hnot. by right.
      * apply Hf1; [| done]. intros ->. apply Hnot. by left.
    + intros b blk Hl. by apply Hl', Hl1.
Qed.

(** ** Rules for weakest preconditions *)

Lemma wp_bind {A B} (m : M A) (k : A → M B) Q E σ :
  wp m (λ a σ1, wp (k a) Q E σ1) E σ → wp (m ≫= k) Q E σ.
Proof.
  unfold wp. rewrite bind_unfold. destruct (m σ); done.
Qed.

Lemma wp_ret {A} (a : A) (Q : A → state → Prop) E σ : Q a σ → wp (mret a) Q E σ.
Proof. done. Qed.

Lemma wp_throw {A} e (Q : A → state → Prop) (E : exn → state → Prop) σ :
  E e σ → wp (throw e) Q E σ.
Proof. done. Qed.

Lemma wp_undefined {A} (Q : A → state → Prop) E σ : wp undefined Q E σ.
Proof. done. Qed.

Lemma wp_abort {A} (Q : A → state → Prop) E σ : wp abort Q E σ.
Proof. done. Qed.

Lemma wp_mono {A} (m : M A) (Q Q' : A → state → Prop) (E E' : exn → state → Prop) σ :
  wp m Q E σ → (∀ a σ', Q a σ' → Q' a σ') → (∀ e σ', E e σ' → E' e σ') → wp m Q' E' σ.
Proof. unfold wp. destruct (m σ); auto. Qed.


Lemma wp_quiet {A} X (m : M A) (Q : A → state → Prop) (E : exn → state → Prop) σ :
  quiet X m →
  (∀ a σ', handles σ' = handles σ → blocks σ' = blocks σ → Q a σ') →
  (∀ e σ', X e → handles σ' = handles σ → blocks σ' = blocks σ → E e σ') →
  wp m Q E σ.
Proof.
  intros Hq HQ HE. eapply wp_mono; [apply Hq | |]; simpl.
  - intros ? ? [? ?]; auto.
  - intros ? ? (? & ? & ?); auto.
Qed.

Lemma wp_silent {A} (m : M A) (Q : A → state → Prop) (E : exn → state → Prop) σ :
  quiet (λ _, False) m →
  (∀ a σ', handles σ' = handles σ → blocks σ' = blocks σ → Q a σ') →
  wp m Q E σ.
Proof. intros Hq HQ. eapply wp_quiet; [exact Hq | exact HQ | done]. Qed.

Lemma quiet_bind {A B} X (m : M A) (k : A → M B) :
  quiet X m → (∀ a, quiet X (k a)) → quiet X (m ≫= k).
Proof.
  intros Hm Hk σ. apply wp_bind. eapply wp_quiet; [exact Hm | |].
  - intros a σ1 Hh Hb. eapply wp_quiet; [apply Hk | |]; intros; repeat split; congruence.
  - intros; repeat split; congruence.
Qed.

Lemma quiet_ret {A} X (a : A) : quiet X (mret a).
Proof. intros σ. done. Qed.

Lemma quiet_throw {A} (X : exn → Prop) e : X e → quiet X (throw (A := A) e).
Proof. intros He σ. done. Qed.

Lemma quiet_undefined {A} X : quiet X (undefined (A := A)).
Proof. intros σ. done. Qed.

Lemma quiet_objs {A} X (m : M A) :
  (∀ σ, match m σ with
        | Ok _ σ' => handles σ' = handles σ ∧ blocks σ' = blocks σ
        | Throw _ _ => False
        | _ => True
        end) → quiet X m.
Proof. intros Hm σ. unfold wp. specialize (Hm σ). destruct (m σ); done. Qed.

Ltac quiet_prim :=
  apply quiet_objs; intros σ;
  repeat match goal with
         | |- context [match ?x with _ => _ end] =>
             lazymatch x with
             | context [match _ with _ => _ end] => fail
             | _ => destruct x; try done
             end
         end.

Lemma quiet_emit X es : quiet X (emit es).
Proof. intros σ. done. Qed.
Lemma quiet_read_object X p : quiet X (read_object p).
Proof. unfold read_object. quiet_prim. Qed.
Lemma quiet_new_object X U v : quiet X (new_object U v).
Proof. intros σ. done. Qed.
Lemma quiet_placement_new X U v p : quiet X (placement_new U v p).
Proof. unfold placement_new. quiet_prim. Qed.
Lemma quiet_delete_object X p : quiet X (delete_object p).
Proof. unfold delete_object. quiet_prim. Qed.
Lemma quiet_destroy_object X p : quiet X (destroy_object p).
Proof. unfold destroy_object. quiet_prim. Qed.
Lemma quiet_write_object X p f : quiet X (write_object p f).
Proof. unfold write_object. quiet_prim. Qed.
Lemma quiet_val_storage X : quiet X val_storage.
Proof. intros σ. done. Qed.
Lemma quiet_small_storage_init X ss : quiet X (small_storage_init ss).
Proof. unfold small_storage_init. quiet_prim. Qed.
Lemma quiet_dynamic_cast X H T U p : quiet X (dynamic_cast H T U p).
Proof. unfold dynamic_cast. quiet_prim. Qed.
Lemma quiet_get_descriptor X h : quiet X (get_descriptor h).
Proof. unfold get_descriptor. quiet_prim. Qed.
Lemma quiet_data_load X b : quiet X (data_load b).
Proof. unfold data_load. quiet_prim. Qed.
Lemma quiet_count_load X b : quiet X (count_load b).
Proof. unfold count_load. quiet_prim. Qed.

Lemma quiet_op H T o value placement :
  quiet (λ e, e = logic_error ∧ o = CLONE) (op H T o value placement).
Proof.
  unfold op. apply quiet_bind; [apply quiet_emit | intros _].
  destruct o.
  - apply quiet_bind; [| intros; apply quiet_ret].
    unfold clone_impl. destruct (copy_ctor H T); [| by apply quiet_throw].
    apply quiet_bind; [apply quiet_read_object | intros [D v]].
    destruct (decide (placement = Null)); [apply quiet_new_object |].
    unfold placement_copy.
    destruct (copy_ctor H T); [apply quiet_placement_new | apply quiet_undefined].
  - apply quiet_bind; [apply quiet_delete_object | intros; apply quiet_ret].
  - apply quiet_bind; [apply quiet_destroy_object | intros; apply quiet_ret].
  - apply quiet_ret.
  - apply quiet_ret.
Qed.

Lemma quiet_weaken {A} (X Y : exn → Prop) (m : M A) :
  (∀ e, X e → Y e) → quiet X m → quiet Y m.
Proof.
  intros HXY Hm σ. eapply wp_mono; [apply Hm | done |].
  intros e σ' (? & ? & ?). auto.
Qed.

Lemma quiet_op_other X H T o value placement :
  o ≠ CLONE → quiet X (op H T o value placement).
Proof.
  intros Ho. eapply quiet_weaken; [| apply quiet_op]. by intros e [_ ?].
Qed.

Lemma quiet_clone H U value placement :
  quiet (λ e, e = logic_error) (clone H U value placement).
Proof.
  unfold clone. apply quiet_bind.
  - eapply quiet_weaken; [| apply quiet_op]. by intros e [? _].
  - intros []; first [apply quiet_ret | apply quiet_undefined].
Qed.
Lemma quiet_delete_ X H U value : quiet X (delete_ H U value).
Proof. unfold delete_. apply quiet_bind; [by apply quiet_op_other | intros; apply quiet_ret]. Qed.
Lemma quiet_destruct_ X H U value : quiet X (destruct_ H U value).
Proof. unfold destruct_. apply quiet_bind; [by apply quiet_op_other | intros; apply quiet_ret]. Qed.
Lemma quiet_size X H U : quiet X (size H U).
Proof.
  unfold size. apply quiet_bind; [by apply quiet_op_other | intros []];
    first [apply quiet_ret | apply quiet_undefined].
Qed.
Lemma quiet_type X H U : quiet X (type H U).
Proof.
  unfold type. apply quiet_bind; [by apply quiet_op_other | intros []];
    first [apply quiet_ret | apply quiet_undefined].
Qed.
Lemma quiet_ptr_arrow X h : quiet X (ptr_arrow h).
Proof.
  unfold ptr_arrow. apply quiet_bind; [apply quiet_get_descriptor | intros d].
  apply quiet_bind; [apply quiet_data_load | intros p].
  destruct (ptr_add p (upcast_offset d)); [apply quiet_ret | apply quiet_undefined].
Qed.
Lemma quiet_get_size_of_data X H h : quiet X (get_size_of_data H h).
Proof.
  unfold get_size_of_data. apply quiet_bind; [apply quiet_get_descriptor | intros; apply quiet_size].
Qed.
Lemma quiet_construct_copy X H T n ss U v : quiet X (construct_copy H T n ss U v).
Proof.
  unfold construct_copy, placement_copy, emit_heap_warning2.
  destruct (decide _).
  - apply quiet_bind; [apply quiet_ret | intros _].
    destruct (copy_ctor H U); [apply quiet_new_object | apply quiet_undefined].
  - destruct (copy_ctor H U); [apply quiet_placement_new | apply quiet_undefined].
Qed.
Lemma quiet_construct_move X H T n ss U v : quiet X (construct_move H T n ss U v).
Proof.
  unfold construct_move, placement_move, emit_heap_warning2.
  destruct (decide _).
  - apply quiet_bind; [apply quiet_ret | intros _].
    destruct (move_ctor H U); [apply quiet_new_object | apply quiet_undefined].
  - destruct (move_ctor H U); [apply quiet_placement_new | apply quiet_undefined].
Qed.

(** ** Rules for the bookkeeping primitives *)

Lemma wp_get_descriptor h (Q : descriptor_t → state → Prop) E σ :
  (∀ d σ', handles σ !! h = Some d → handles σ' = handles σ → blocks σ' = blocks σ →
           Q d σ') →
  wp (get_descriptor h) Q E σ.
Proof.
  intros HQ. unfold wp, get_descriptor. destruct (handles σ !! h) eqn:Hh; [| done].
  by apply HQ.
Qed.

Lemma wp_handle_init d (Q : loc → state → Prop) E σ :
  (∀ σ', handles σ' = <[fresh (dom (handles σ)) := d]> (handles σ) →
         blocks σ' = blocks σ → Q (fresh (dom (handles σ))) σ') →
  wp (handle_init d) Q E σ.
Proof. intros HQ. unfold wp, handle_init. by apply HQ. Qed.

Lemma wp_handle_member h (Q : descriptor_t → state → Prop) E σ :
  (∀ d, handles σ !! h = Some d → Q d σ) → wp (handle_member h) Q E σ.
Proof.
  intros HQ. unfold wp, handle_member. destruct (handles σ !! h) eqn:Hh; [| done].
  by apply HQ.
Qed.

Lemma wp_handle_store h d (Q : unit → state → Prop) E σ :
  (∀ σ', is_Some (handles σ !! h) → handles σ' = <[h := d]> (handles σ) →
         blocks σ' = blocks σ → Q tt σ') →
  wp (handle_store h d) Q E σ.
Proof.
  intros HQ. unfold wp, handle_store. destruct (handles σ !! h) eqn:Hh; [| done].
  apply HQ; eauto.
Qed.

Lemma wp_handle_release h (Q : unit → state → Prop) E σ :
  (∀ d σ', handles σ !! h = Some d → handles σ' = delete h (handles σ) →
           blocks σ' = blocks σ → Q tt σ') →
  wp (handle_release h) Q E σ.
Proof.
  intros HQ. unfold wp, handle_release. destruct (handles σ !! h) eqn:Hh; [| done].
  by eapply HQ.
Qed.

Lemma wp_exchange_descriptor h v (Q : descriptor_t → state → Prop) E σ :
  (∀ d σ', handles σ !! h = Some d → handles σ' = <[h := v]> (handles σ) →
           blocks σ' = blocks σ → Q d σ') →
  wp (exchange_descriptor h v) Q E σ.
Proof.
  intros HQ. unfold wp, exchange_descriptor. destruct (handles σ !! h) eqn:Hh; [| done].
  by apply HQ.
Qed.

Lemma wp_block_increment b (Q : unit → state → Prop) E σ :
  (∀ blk σ', blocks σ !! b = Some blk → handles σ' = handles σ →
             blocks σ' = bump b blk (blocks σ) → Q tt σ') →
  wp (block_increment b) Q E σ.
Proof.
  intros HQ. unfold wp, block_increment. rewrite bind_unfold. unfold count_fetch_add.
  destruct (blocks σ !! b) eqn:Hb; [| done]. by eapply HQ.
Qed.

Lemma wp_block_decrement b (Q : unit → state → Prop) E σ :
  (∀ blk σ', blocks σ !! b = Some blk → handles σ' = handles σ →
             blocks σ' = drop b blk (blocks σ) → Q tt σ') →
  wp (block_decrement b) Q E σ.
Proof.
  intros HQ. unfold wp, block_decrement. rewrite bind_unfold. unfold count_fetch_sub.
  destruct (blocks σ !! b) as [blk|] eqn:Hb; [| done].
  unfold drop in HQ. destruct (decide (block.count blk = 1)) as [H1 | H1].
  - unfold delete_block. simpl. rewrite lookup_insert_eq.
    eapply HQ; [done | done |]. rewrite decide_True by done. simpl.
    by rewrite delete_insert_eq.
  - simpl. eapply HQ; [done | done |]. by rewrite decide_False.
Qed.

Lemma wp_block_new p (Q : loc → state → Prop) (E : exn → state → Prop) σ :
  (∀ σ', p ≠ Null → handles σ' = handles σ →
         blocks σ' = <[fresh (dom (blocks σ)) := block.mk 0 p]> (blocks σ) →
         Q (fresh (dom (blocks σ))) σ') →
  (p = Null → E invalid_argument σ) →
  wp (block_new p) Q E σ.
Proof.
  intros HQ HE. unfold wp, block_new. destruct (decide (p = Null)); simpl.
  - by apply HE.
  - by apply HQ.
Qed.

Lemma wp_data_exchange b p (Q : pointer → state → Prop) E σ :
  (∀ blk σ', blocks σ !! b = Some blk → handles σ' = handles σ →
             blocks σ' = <[b := block.mk (block.count blk) p]> (blocks σ) →
             Q (block.data blk) σ') →
  wp (data_exchange b p) Q E σ.
Proof.
  intros HQ. unfold wp, data_exchange. destruct (blocks σ !! b) eqn:Hb; [| done].
  by eapply HQ.
Qed.

Lemma wp_count_load b (Q : Z → state → Prop) E σ :
  (∀ blk, blocks σ !! b = Some blk → Q (block.count blk) σ) →
  wp (count_load b) Q E σ.
Proof.
  intros HQ. unfold wp, count_load. destruct (blocks σ !! b) eqn:Hb; [| done].
  by eapply HQ.
Qed.

(** ** What each member function does to the bookkeeping *)

Lemma shares_proper σ0 σ src f h σ' :
  handles σ = handles σ0 → blocks σ = blocks σ0 →
  shares σ src f h σ' → shares σ0 src f h σ'.
Proof. unfold shares. intros -> ->. done. Qed.

Lemma ptr_copy_wp src σ : wp (ptr_copy src) (shares σ src id) never σ.
Proof.
  unfold ptr_copy.
  apply wp_bind, wp_get_descriptor. intros d σ1 Hsrc Hh1 Hb1.
  apply wp_bind, wp_handle_init. intros σ2 Hh2 Hb2.
  apply wp_bind, wp_handle_member. intros d' Hd'.
  rewrite Hh2, lookup_insert_eq in Hd'. injection Hd' as <-.
  apply wp_bind, wp_block_increment. intros blk σ3 Hblk Hh3 Hb3.
  apply wp_ret. exists d, blk.
  rewrite Hb2, Hb1 in Hblk. rewrite Hh3, Hh2, Hb3, Hb2, Hb1, Hh1. done.
Qed.

Lemma share_tail_wp (g : descriptor_t → descriptor_t) src σ :
  wp (d ← get_descriptor src;
      this ← handle_init d;
      d' ← handle_member this;
      block_increment (block_ptr d');;
      handle_store this (g d');;
      mret this) (shares σ src g) never σ.
Proof.
  apply wp_bind, wp_get_descriptor. intros d σ1 Hsrc Hh1 Hb1.
  apply wp_bind, wp_handle_init. intros σ2 Hh2 Hb2.
  apply wp_bind, wp_handle_member. intros d' Hd'.
  rewrite Hh2, lookup_insert_eq in Hd'. injection Hd' as <-.
  apply wp_bind, wp_block_increment. intros blk σ3 Hblk Hh3 Hb3.
  apply wp_bind, wp_handle_store. intros σ4 _ Hh4 Hb4.
  apply wp_ret. exists d, blk.
  rewrite Hb2, Hb1 in Hblk.
  rewrite Hh4, Hh3, Hh2, Hb4, Hb3, Hb2, Hb1, Hh1, insert_insert_eq. done.
Qed.

Lemma ptr_widen_wp H T U src σ :
  wp (ptr_widen H T U src)
     (shares σ src (λ d, add_offset d (compute_upcast_offset H T U))) never σ.
Proof. apply (share_tail_wp (λ d, add_offset d (compute_upcast_offset H T U))). Qed.

Lemma ptr_from_val_wp H T U v σ :
  wp (ptr_from_val H T U v)
     (shares σ (data v) (λ d, add_offset d (compute_upcast_offset H T U))) never σ.
Proof. apply (share_tail_wp (λ d, add_offset d (compute_upcast_offset H T U))). Qed.

Lemma ptr_narrow_wp H T U src σ :
  wp (ptr_narrow H T U src)
     (shares σ src (λ d, sub_offset d (compute_upcast_offset H T U))) never σ.
Proof.
  unfold ptr_narrow.
  apply wp_bind, wp_silent; [apply quiet_ptr_arrow |]. intros p σ1 Hh1 Hb1.
  apply wp_bind, wp_silent; [apply quiet_dynamic_cast |]. intros r σ2 Hh2 Hb2.
  eapply wp_mono;
    [apply (share_tail_wp (λ d, sub_offset d (compute_upcast_offset H T U))) | | done].
  intros h σ'. apply shares_proper; congruence.
Qed.

Lemma ptr_narrow_from_val_wp H T U v σ :
  wp (ptr_narrow_from_val H T U v)
     (shares σ (data v) (λ d, sub_offset d (compute_upcast_offset H T U)))
     (λ e σ', e = rethrow_current ∧ unchanged σ σ') σ.
Proof.
  unfold ptr_narrow_from_val, val_arrow.
  apply wp_bind, wp_silent; [apply quiet_ptr_arrow |]. intros p σ1 Hh1 Hb1.
  apply wp_bind, wp_silent; [apply quiet_dynamic_cast |]. intros r σ2 Hh2 Hb2.
  destruct (decide (r = Null)).
  - apply wp_throw. split; [done |]. split; congruence.
  - eapply wp_mono;
      [apply (share_tail_wp (λ d, sub_offset d (compute_upcast_offset H T U))) | | done].
    intros h σ'. apply shares_proper; congruence.
Qed.

Lemma ptr_dtor_wp h σ : wp (ptr_dtor h) (λ _, releases σ h) never σ.
Proof.
  unfold ptr_dtor.
  apply wp_bind, wp_get_descriptor. intros d σ1 Hh Hh1 Hb1.
  apply wp_bind, wp_block_decrement. intros blk σ2 Hblk Hh2 Hb2.
  apply wp_handle_release. intros d' σ3 Hd' Hh3 Hb3.
  exists d, blk. rewrite Hb1 in Hblk. rewrite Hh3, Hh2, Hh1, Hb3, Hb2, Hb1. done.
Qed.

Lemma ptr_assign_body_wp this other σ :
  wp (ptr_assign_body this other) (λ _, retargets σ this other id) never σ.
Proof.
  unfold ptr_assign_body.
  apply wp_bind, wp_get_descriptor. intros dn σ1 Hother Hh1 Hb1.
  apply wp_bind, wp_block_increment. intros blkn σ2 Hblkn Hh2 Hb2.
  apply wp_bind, wp_exchange_descriptor. intros d σ3 Hthis Hh3 Hb3.
  apply wp_block_decrement. intros blko σ4 Hblko Hh4 Hb4.
  exists d, dn, blkn, blko.
  rewrite Hb1 in Hblkn. rewrite Hh2, Hh1 in Hthis. rewrite Hb3, Hb2, Hb1 in Hblko.
  rewrite Hh4, Hh3, Hh2, Hh1, Hb4, Hb3, Hb2, Hb1. done.
Qed.

Lemma ptr_assign_widen_body_wp H T U this other σ :
  wp (ptr_assign_widen_body H T U this other)
     (λ _, retargets σ this other (λ d, add_offset d (compute_upcast_offset H T U)))
     never σ.
Proof.
  unfold ptr_assign_widen_body.
  apply wp_bind, wp_get_descriptor. intros dn σ1 Hother Hh1 Hb1.
  apply wp_bind, wp_block_increment. intros blkn σ2 Hblkn Hh2 Hb2.
  apply wp_bind, wp_exchange_descriptor. intros d σ3 Hthis Hh3 Hb3.
  apply wp_block_decrement. intros blko σ4 Hblko Hh4 Hb4.
  exists d, dn, blkn, blko.
  rewrite Hb1 in Hblkn. rewrite Hh2, Hh1 in Hthis. simpl in Hblko.
  rewrite Hb3, Hb2, Hb1 in Hblko.
  rewrite Hh4, Hh3, Hh2, Hh1, Hb4, Hb3, Hb2, Hb1. done.
Qed.

Lemma ptr_of_block_wp b off U σ :
  wp (ptr_of_block b off U)
     (λ h σ', ∃ blk, blocks σ !! b = Some blk ∧ h = fresh (dom (handles σ)) ∧
        handles σ' = <[h := {| block_ptr := b; upcast_offset := off; op_ptr := U |}]> (handles σ) ∧
        blocks σ' = bump b blk (blocks σ))
     never σ.
Proof.
  unfold ptr_of_block.
  apply wp_bind, wp_handle_init. intros σ1 Hh1 Hb1.
  apply wp_bind, wp_block_increment. intros blk σ2 Hblk Hh2 Hb2.
  apply wp_ret. exists blk. rewrite Hb1 in Hblk. rewrite Hh2, Hh1, Hb2, Hb1. done.
Qed.

Lemma ptr_of_descriptor_wp d σ :
  wp (ptr_of_descriptor d)
     (λ h σ', ∃ blk, blocks σ !! block_ptr d = Some blk ∧ h = fresh (dom (handles σ)) ∧
        handles σ' = <[h := d]> (handles σ) ∧
        blocks σ' = bump (block_ptr d) blk (blocks σ))
     never σ.
Proof.
  unfold ptr_of_descriptor.
  apply wp_bind, wp_handle_init. intros σ1 Hh1 Hb1.
  apply wp_bind, wp_block_increment. intros blk σ2 Hblk Hh2 Hb2.
  apply wp_ret. exists blk. rewrite Hb1 in Hblk. rewrite Hh2, Hh1, Hb2, Hb1. done.
Qed.

Lemma wrap_intptr_one : wrap_intptr (0 + 1) = 1.
Proof. reflexivity. Qed.

Lemma val_of_pointer_wp H T n ss U p σ :
  wp (val_of_pointer H T n ss U p) (creates σ)
     (λ e σ', e = invalid_argument ∧ unchanged σ σ') σ.
Proof.
  unfold val_of_pointer.
  apply wp_bind, wp_silent; [apply quiet_small_storage_init |]. intros _ σ1 Hh1 Hb1.
  apply wp_bind, wp_block_new.
  - intros σ2 Hp Hh2 Hb2.
    apply wp_bind. eapply wp_mono; [apply ptr_of_block_wp | | done].
    intros h σ3 (blk & Hblk & -> & Hh3 & Hb3). apply wp_ret.
    rewrite Hb2, lookup_insert_eq in Hblk. injection Hblk as <-.
    rewrite Hb1 in Hb2. rewrite Hb1, Hb2 in Hb3. rewrite Hh2, Hh1 in Hh3 |- *.
    rewrite Hb1 in Hh3.
    unfold bump in Hb3. simpl in Hb3. rewrite insert_insert_eq, wrap_intptr_one in Hb3.
    exists {| block_ptr := fresh (dom (blocks σ));
              upcast_offset := compute_upcast_offset H T U; op_ptr := U |}, p.
    simpl.
    split; [apply fresh_handle_unallocated |].
    split; [apply fresh_block_unallocated |]. done.
  - intros _. split; [done |]. split; congruence.
Qed.

Lemma creates_proper σ0 σ w σ' :
  handles σ = handles σ0 → blocks σ = blocks σ0 → creates σ w σ' → creates σ0 w σ'.
Proof. unfold creates. intros -> ->. done. Qed.

Lemma unchanged_trans σ0 σ σ' :
  handles σ = handles σ0 → blocks σ = blocks σ0 → unchanged σ σ' → unchanged σ0 σ'.
Proof. unfold unchanged. intros -> ->. done. Qed.

Lemma val_from_pointer_wp T n p σ :
  wp (val_from_pointer T n p) (creates σ) (λ _ σ', unchanged σ σ') σ.
Proof.
  unfold val_from_pointer.
  apply wp_bind, wp_silent; [apply quiet_val_storage |]. intros ss σ0 Hh0 Hb0.
  apply wp_bind, wp_silent; [apply quiet_small_storage_init |]. intros _ σ1 Hh1 Hb1.
  rewrite Hh0 in Hh1. rewrite Hb0 in Hb1.
  apply wp_bind, wp_block_new.
  - intros σ2 Hp Hh2 Hb2.
    apply wp_bind. eapply wp_mono; [apply ptr_of_block_wp | | done].
    intros h σ3 (blk & Hblk & -> & Hh3 & Hb3). apply wp_ret.
    rewrite Hb2, lookup_insert_eq in Hblk. injection Hblk as <-.
    rewrite Hb1 in Hb2. rewrite Hb1, Hb2 in Hb3. rewrite Hh2, Hh1 in Hh3 |- *.
    rewrite Hb1 in Hh3.
    unfold bump in Hb3. simpl in Hb3. rewrite insert_insert_eq, wrap_intptr_one in Hb3.
    exists {| block_ptr := fresh (dom (blocks σ)); upcast_offset := 0; op_ptr := T |}, p.
    simpl.
    split; [apply fresh_handle_unallocated |].
    split; [apply fresh_block_unallocated |]. done.
  - intros _. split; congruence.
Qed.

Lemma val_from_value_wp H T n U v σ :
  wp (val_from_value H T n U v) (creates σ) (λ _ σ', unchanged σ σ') σ.
Proof.
  unfold val_from_value.
  apply wp_bind, wp_silent; [apply quiet_val_storage |]. intros ss σ1 Hh1 Hb1.
  apply wp_bind, wp_silent; [apply quiet_construct_copy |]. intros p σ2 Hh2 Hb2.
  eapply wp_mono; [apply val_of_pointer_wp | |].
  - intros w σ'. apply creates_proper; congruence.
  - intros e σ' [_ Hu]. eapply unchanged_trans; [| | exact Hu]; congruence.
Qed.

Lemma val_from_rvalue_wp H T n U v σ :
  wp (val_from_rvalue H T n U v) (creates σ) (λ _ σ', unchanged σ σ') σ.
Proof.
  unfold val_from_rvalue.
  apply wp_bind, wp_silent; [apply quiet_val_storage |]. intros ss σ1 Hh1 Hb1.
  apply wp_bind, wp_silent; [apply quiet_construct_move |]. intros p σ2 Hh2 Hb2.
  eapply wp_mono; [apply val_of_pointer_wp | |].
  - intros w σ'. apply creates_proper; congruence.
  - intros e σ' [_ Hu]. eapply unchanged_trans; [| | exact Hu]; congruence.
Qed.

Lemma ptr_clone_wp H T h off placement σ :
  wp (ptr_clone H T h off placement)
     (λ d σ', ∃ p, leaks σ (block_ptr d) p σ')
     (λ _ σ', unchanged σ σ') σ.
Proof.
  unfold ptr_clone.
  apply wp_bind, wp_get_descriptor. intros d σ1 _ Hh1 Hb1.
  apply wp_bind. eapply (wp_silent _ _ _ σ1).
  { destruct (decide (placement = Null)); [| apply quiet_ret].
    apply quiet_bind; [apply quiet_type | intros; apply quiet_ret]. }
  intros _ σ2 Hh2 Hb2.
  apply wp_bind, wp_silent; [apply quiet_data_load |]. intros p σ3 Hh3 Hb3.
  apply wp_bind. eapply wp_quiet; [apply quiet_clone | |].
  - intros cloned σ4 Hh4 Hb4. apply wp_bind, wp_block_new.
    + intros σ5 Hc Hh5 Hb5. apply wp_ret. exists cloned. simpl.
      unfold leaks. rewrite Hh5, Hb5, Hh4, Hb4, Hh3, Hb3, Hh2, Hb2, Hh1, Hb1.
      split; [apply fresh_block_unallocated | done].
    + intros _. split; congruence.
  - intros e σ4 _ Hh4 Hb4. split; congruence.
Qed.

Lemma leaks_then_handle σ σ1 σ' d p h :
  leaks σ (block_ptr d) p σ1 →
  (∃ blk, blocks σ1 !! block_ptr d = Some blk ∧ h = fresh (dom (handles σ1)) ∧
     handles σ' = <[h := d]> (handles σ1) ∧
     blocks σ' = bump (block_ptr d) blk (blocks σ1)) →
  ∀ n ss, creates σ {| SmallStorageSize := n; small_storage := ss; data := h |} σ'.
Proof.
  intros (Hb & Hp & Hh1 & Hb1) (blk & Hblk & -> & Hh' & Hb') n ss.
  rewrite Hb1, lookup_insert_eq in Hblk. injection Hblk as <-.
  rewrite Hh1 in Hh'. rewrite Hb1 in Hb'. unfold bump in Hb'. simpl in Hb'.
  rewrite insert_insert_eq, wrap_intptr_one in Hb'.
  exists d, p. simpl. rewrite Hh1.
  split; [apply fresh_handle_unallocated | done].
Qed.

Lemma val_copy_wp H T other σ :
  wp (val_copy H T other) (creates σ) (λ _ σ', unchanged σ σ') σ.
Proof.
  unfold val_copy.
  apply wp_bind, wp_silent; [apply quiet_val_storage |]. intros ss σ1 Hh1 Hb1.
  apply wp_bind, wp_silent; [apply quiet_small_storage_init |]. intros _ σ2 Hh2 Hb2.
  apply wp_bind. eapply wp_mono; [apply ptr_clone_wp | |].
  - intros d σ3 [p Hl]. apply wp_bind.
    eapply wp_mono; [apply ptr_of_descriptor_wp | | done].
    intros h σ4 Hd. apply wp_ret.
    eapply creates_proper; [| | by eapply leaks_then_handle]; congruence.
  - intros e σ3 Hu. eapply unchanged_trans; [| | exact Hu]; congruence.
Qed.

Lemma val_convert_wp H T n U other σ :
  wp (val_convert H T n U other) (creates σ) (λ _ σ', unchanged σ σ') σ.
Proof.
  unfold val_convert.
  apply wp_bind, wp_silent; [apply quiet_val_storage |]. intros ss σ1 Hh1 Hb1.
  apply wp_bind, wp_silent; [apply quiet_small_storage_init |]. intros _ σ2 Hh2 Hb2.
  apply wp_bind, wp_silent; [apply quiet_get_size_of_data |]. intros sz σ3 Hh3 Hb3.
  apply wp_bind. eapply wp_mono; [apply ptr_clone_wp | |].
  - intros d σ4 [p Hl]. apply wp_bind.
    eapply wp_mono; [apply ptr_of_descriptor_wp | | done].
    intros h σ5 Hd. apply wp_ret.
    eapply creates_proper; [| | by eapply leaks_then_handle]; congruence.
  - intros e σ4 Hu. eapply unchanged_trans; [| | exact Hu]; congruence.
Qed.

Lemma run_ctor_wp H c σ :
  wp (run_ctor H c) (creates σ) (λ _ σ', unchanged σ σ') σ.
Proof.
  destruct c; simpl.
  - apply val_from_value_wp.
  - apply val_from_rvalue_wp.
  - apply val_copy_wp.
  - apply val_convert_wp.
Qed.

Lemma val_clone_wp H T v σ :
  wp (val_clone H T v) (λ _ σ', ∃ b p, leaks σ b p σ') (λ _ σ', unchanged σ σ') σ.
Proof.
  unfold val_clone.
  apply wp_bind. eapply wp_mono; [apply ptr_clone_wp | | done].
  intros d σ1 [p (Hb & Hp & Hh1 & Hb1)].
  apply wp_bind, wp_silent; [apply quiet_data_load |]. intros q σ2 Hh2 Hb2.
  destruct (ptr_add q (upcast_offset d)); [| apply wp_undefined].
  apply wp_ret. exists (block_ptr d), p. unfold leaks. rewrite Hh2, Hb2, Hh1, Hb1. done.
Qed.

Lemma val_dtor_wp H v σ :
  wp (val_dtor H v)
     (λ _ σ', ∃ σ1, unit_step σ σ1 None ∧ releases σ1 (data v) σ') never σ.
Proof.
  unfold val_dtor, val_dtor_body.
  apply wp_bind, wp_bind, wp_get_descriptor. intros d σ1 Hd Hh1 Hb1.
  apply wp_bind, wp_data_exchange. intros blk σ2 Hblk Hh2 Hb2.
  apply wp_bind, wp_count_load. intros blk' Hblk'.
  assert (Hstep : ∀ σ3, handles σ3 = handles σ2 → blocks σ3 = blocks σ2 →
                        unit_step σ σ3 None).
  { intros σ3 Hh3 Hb3. rewrite Hb1 in Hblk.
    eapply (step_data _ _ (data v) d blk Null); [done | done | congruence |].
    rewrite Hb3, Hb2, Hb1. done. }
  destruct (decide (block.count blk' ≠ 1)).
  { apply wp_bind, wp_count_load. intros; apply wp_abort. }
  destruct (decide _).
  - eapply wp_silent; [apply quiet_destruct_ |]. intros _ σ3 Hh3 Hb3.
    eapply wp_mono; [apply ptr_dtor_wp | | done]. intros u σ4 Hr.
    exists σ3. split; [by apply Hstep | exact Hr].
  - eapply wp_silent; [apply quiet_delete_ |]. intros _ σ3 Hh3 Hb3.
    eapply wp_mono; [apply ptr_dtor_wp | | done]. intros u σ4 Hr.
    exists σ3. split; [by apply Hstep | exact Hr].
Qed.

(** ** One client call *)

Lemma shares_step σ src f h σ' :
  (∀ d, block_ptr (f d) = block_ptr d) →
  shares σ src f h σ' → unit_step σ σ' None ∧ handles σ !! h = None.
Proof.
  intros Hf (d & blk & Hsrc & Hblk & -> & Hh & Hb).
  split; [| apply fresh_handle_unallocated].
  eapply (step_share _ _ src d _ (f d) blk); rewrite ?Hf; try done.
  apply fresh_handle_unallocated.
Qed.

Lemma releases_step σ h σ' : releases σ h σ' → unit_step σ σ' (Some h).
Proof. intros (d & blk & Hh & Hblk & Hh' & Hb'). by eapply step_release. Qed.

Lemma retargets_step σ this other f σ' :
  (∀ d, block_ptr (f d) = block_ptr d) →
  retargets σ this other f σ' → unit_step σ σ' (Some this).
Proof.
  intros Hf (d & dn & blkn & blko & Hthis & Hother & Hblkn & Hblko & Hh' & Hb').
  by eapply (step_retarget _ _ this d (f dn) other dn blkn blko).
Qed.

Lemma creates_step σ w σ' : creates σ w σ' → unit_step σ σ' None.
Proof. intros (d & p & Hh & Hb & Hp & Hh' & Hb'). by apply (step_create σ σ' (data w) d p). Qed.

Lemma leaks_step σ b p σ' : leaks σ b p σ' → unit_step σ σ' None.
Proof. intros (Hb & Hp & Hh' & Hb'). by apply (step_leak σ σ' b p). Qed.

Lemma op_effect_unchanged o σ σ' : unchanged σ σ' → op_effect o σ σ'.
Proof.
  intros [Hh Hb]. exists []. split; [by constructor |].
  split; [simpl; lia |]. split; [unfold growth; simpl; lia |].
  intros h Hin. by apply elem_of_nil in Hin.
Qed.

Lemma op_effect_one o σ σ' t :
  unit_step σ σ' t →
  (∀ h, t = Some h → target o = Some h) →
  op_effect o σ σ'.
Proof.
  intros Hu Ht. exists [t]. split.
  { eapply chain_step; [exact Hu |]. by constructor. }
  split; [simpl; lia |]. split; [apply growth_le_length |].
  intros h Hin. apply list_elem_of_singleton in Hin. left. by apply Ht.
Qed.

Lemma op_effect_share o σ src f h σ' :
  (∀ d, block_ptr (f d) = block_ptr d) → shares σ src f h σ' → op_effect o σ σ'.
Proof.
  intros Hf Hs. apply (op_effect_one o σ σ' None); [by eapply shares_step | done].
Qed.

Lemma assign_effect o σ this tmp σ1 σ2 σ3 f :
  target o = Some this →
  (∀ d, block_ptr (f d) = block_ptr d) →
  unit_step σ σ1 None → handles σ !! tmp = None →
  retargets σ1 this tmp f σ2 →
  releases σ2 tmp σ3 →
  op_effect o σ σ3.
Proof.
  intros Ht Hf Hs Htmp Hr Hd. exists [None; Some this; Some tmp]. split.
  { eapply chain_step; [exact Hs |].
    eapply chain_step; [by eapply retargets_step |].
    eapply chain_step; [by eapply releases_step |]. by constructor. }
  split; [simpl; lia |]. split; [vm_compute; lia |].
  intros h Hin. rewrite !elem_of_cons in Hin.
  destruct Hin as [? | [[= ->] | [[= ->] | Hin]]]; [done | by left | by right |].
  by apply elem_of_nil in Hin.
Qed.

Lemma run_op_effect H o σ :
  wp (run_op H o) (λ _, op_effect o σ) (λ _, op_effect o σ) σ.
Proof.
  destruct o as [src | T U src | T U src | T U v | T U v | this src | T U this src
                | h | c | T n p | T v | v]; simpl.
  - apply wp_bind. eapply wp_mono; [apply ptr_copy_wp | | done].
    intros h σ' Hs. apply wp_ret. eapply op_effect_share; [| exact Hs]; done.
  - apply wp_bind. eapply wp_mono; [apply ptr_widen_wp | | done].
    intros h σ' Hs. apply wp_ret. eapply op_effect_share; [| exact Hs]; done.
  - apply wp_bind. eapply wp_mono; [apply ptr_narrow_wp | | done].
    intros h σ' Hs. apply wp_ret. eapply op_effect_share; [| exact Hs]; done.
  - apply wp_bind. eapply wp_mono; [apply ptr_from_val_wp | | done].
    intros h σ' Hs. apply wp_ret. eapply op_effect_share; [| exact Hs]; done.
  - apply wp_bind. eapply wp_mono; [apply ptr_narrow_from_val_wp | |].
    + intros h σ' Hs. apply wp_ret. eapply op_effect_share; [| exact Hs]; done.
    + intros e σ' [_ Hu]. by apply op_effect_unchanged.
  - unfold ptr_assign. apply wp_bind. eapply wp_mono; [apply ptr_copy_wp | | done].
    intros tmp σ1 Hs. apply (shares_step _ _ _ _ _ (λ _, eq_refl)) in Hs as [Hs Htmp].
    apply wp_bind. eapply wp_mono; [apply ptr_assign_body_wp | | done].
    intros u σ2 Hr. eapply wp_mono; [apply ptr_dtor_wp | | done].
    intros u' σ3 Hd.
    apply (assign_effect (AssignHandle this src) σ this tmp σ1 σ2 σ3 id
             eq_refl (λ _, eq_refl) Hs Htmp Hr Hd).
  - unfold ptr_assign_widen. apply wp_bind. eapply wp_mono; [apply ptr_copy_wp | | done].
    intros tmp σ1 Hs. apply (shares_step _ _ _ _ _ (λ _, eq_refl)) in Hs as [Hs Htmp].
    apply wp_bind. eapply wp_mono; [apply ptr_assign_widen_body_wp | | done].
    intros u σ2 Hr. eapply wp_mono; [apply ptr_dtor_wp | | done].
    intros u' σ3 Hd.
    apply (assign_effect (AssignWiden T U this src) σ this tmp σ1 σ2 σ3
             (λ d, add_offset d (compute_upcast_offset H T U))
             eq_refl (λ _, eq_refl) Hs Htmp Hr Hd).
  - eapply wp_mono; [apply ptr_dtor_wp | | done].
    intros u σ' Hr. apply (op_effect_one _ σ σ' (Some h)); [by apply releases_step |].
    by intros ? [= ->].
  - apply wp_bind. eapply wp_mono; [apply run_ctor_wp | |].
    + intros w σ' Hc. apply wp_ret.
      apply (op_effect_one _ σ σ' None); [by eapply creates_step | done].
    + intros e σ' Hu. by apply op_effect_unchanged.
  - apply wp_bind. eapply wp_mono; [apply val_from_pointer_wp | |].
    + intros w σ' Hc. apply wp_ret.
      apply (op_effect_one _ σ σ' None); [by eapply creates_step | done].
    + intros e σ' Hu. by apply op_effect_unchanged.
  - apply wp_bind. eapply wp_mono; [apply val_clone_wp | |].
    + intros r σ' (b & p & Hl). apply wp_ret.
      apply (op_effect_one _ σ σ' None); [by eapply leaks_step | done].
    + intros e σ' Hu. by apply op_effect_unchanged.
  - eapply wp_mono; [apply val_dtor_wp | | done].
    intros u σ' (σ1 & Hs & Hr). exists [None; Some (data v)]. split.
    { eapply chain_step; [exact Hs |].
      eapply chain_step; [by eapply releases_step |]. by constructor. }
    split; [simpl; lia |]. split; [vm_compute; lia |].
    intros h Hin. rewrite !elem_of_cons in Hin.
    destruct Hin as [? | [[= ->] | Hin]]; [done | by left |].
    by apply elem_of_nil in Hin.
Qed.

Lemma step_sound H o σ σ' :
  wf σ →
  Z.of_nat (base.size (handles σ)) + 3 < 2 ^ 63 →
  step H o σ = Some σ' →
  wf σ' ∧
  (base.size (handles σ') ≤ base.size (handles σ) + 1)%nat ∧
  (∀ h d, target o ≠ Some h → handles σ !! h = Some d → handles σ' !! h = Some d) ∧
  (∀ b blk, leaked b blk σ → leaked b blk σ').
Proof.
  intros Hwf Hsz Hstep.
  assert (He : op_effect o σ σ').
  { pose proof (run_op_effect H o σ) as Hw. unfold step in Hstep. unfold wp in Hw.
    destruct (run_op H o σ); simpl in Hstep; by simplify_eq. }
  destruct He as (ts & Hc & Hlen & Hg & Ht).
  destruct (chain_sound _ _ _ Hc Hwf ltac:(lia)) as (Hwf' & Hs' & Hf' & Hl').
  split; [done |]. split; [lia |]. split; [| done].
  intros h d Hne Hh. apply Hf'; [| done].
  intros Hin. destruct (Ht h Hin); congruence.
Qed.

(** ** Sequences of client calls *)

Lemma wf_empty : wf empty_state.
Proof.
  split.
  - intros h d Hh. simpl in Hh. by rewrite lookup_empty in Hh.
  - intros b blk Hb. simpl in Hb. by rewrite lookup_empty in Hb.
Qed.

Lemma run_sound H ops σ σ' :
  wf σ →
  Z.of_nat (base.size (handles σ)) + Z.of_nat (length ops) + 2 < 2 ^ 63 →
  run H ops σ = Some σ' →
  wf σ' ∧
  (base.size (handles σ') ≤ base.size (handles σ) + length ops)%nat ∧
  (∀ h d, Forall (leaves_alone h) ops → handles σ !! h = Some d →
          handles σ' !! h = Some d) ∧
  (∀ b blk, leaked b blk σ → leaked b blk σ').
Proof.
  revert σ. induction ops as [| o ops IH]; intros σ Hwf Hsz Hrun; simpl in Hrun.
  - injection Hrun as <-. split; [done |]. split; [simpl; lia |]. done.
  - cbn [length] in Hsz. destruct (step H o σ) as [σ1 |] eqn:Hstep; [| done].
    destruct (step_sound H o σ σ1 Hwf ltac:(lia) Hstep) as (Hwf1 & Hs1 & Hf1 & Hl1).
    destruct (IH σ1 Hwf1 ltac:(lia) Hrun) as (Hwf' & Hs' & Hf' & Hl').
    split; [done |]. split; [cbn [length]; lia |]. split.
    + intros h d Hall Hh. apply Forall_cons in Hall as [Ho Hall].
      apply Hf'; [done |]. by apply Hf1.
    + intros b blk Hl. by apply Hl', Hl1.
Qed.

Lemma refs_besides_delete h hs b : refs_besides h hs b = refs (delete h hs) b.
Proof.
  unfold refs_besides, refs. f_equal. apply map_eq. intros k. apply option_eq. intros d.
  rewrite !map_lookup_filter_Some, lookup_delete_Some. simpl.
  split.
  - intros (Hk & Hne & Hd). repeat split; [congruence | done | done].
  - intros ((Hne & Hk) & Hd). repeat split; [done | congruence | done].
Qed.

Lemma refs_besides_own h hs d :
  hs !! h = Some d → refs hs (block_ptr d) = S (refs_besides h hs (block_ptr d)).
Proof.
  intros Hh. rewrite refs_besides_delete, (refs_delete hs h d) by done.
  unfold names. rewrite decide_True by done. lia.
Qed.

Lemma counter_after_calls (H : hierarchy) (v : val) (ops : list api_op)
    (σ0 σ : state) (d : descriptor_t) :
  wf σ0 →
  handles σ0 !! data v = Some d →
  Forall (leaves_alone (data v)) ops →
  Z.of_nat (base.size (handles σ0)) + Z.of_nat (length ops) + 2 < 2 ^ 63 →
  run H ops σ0 = Some σ →
  (∃ blk,
     handles σ !! data v = Some d ∧
     blocks σ !! block_ptr d = Some blk ∧
     block.count blk = Z.of_nat (refs_besides (data v) (handles σ) (block_ptr d)) + 1) ∧
  (∀ b blk, blocks σ !! b = Some blk → 0 ≤ block.count blk).
Proof.
  intros Hwf Hd Hall Hsz Hrun.
  destruct (run_sound H ops σ0 σ Hwf Hsz Hrun) as ([Ha Hc] & _ & Hf & _).
  pose proof (Hf _ _ Hall Hd) as Hd'. split.
  - destruct (Ha _ _ Hd') as [blk Hblk]. exists blk.
    split; [done |]. split; [done |].
    rewrite (Hc _ _ Hblk), (refs_besides_own _ _ _ Hd'). lia.
  - intros b blk Hblk. rewrite (Hc _ _ Hblk). lia.
Qed.

(** C5: take a state with sound bookkeeping in which container [v] is live,
    and any sequence of client calls that leaves the container's private
    handle alone (handle constructions, assignments and destructions, and
    calls on other containers).  After each prefix of the sequence, that is
    at every point between two calls, the container's handle still names
    its block, the block's counter is the number of other live handles
    naming that block plus one, and no counter is negative.  The side
    condition on sizes keeps the 64-bit counter from wrapping. *)
Theorem counter_counts_handles (H : hierarchy) (v : val) (ops : list api_op)
    (σ0 : state) (d : descriptor_t) :
  wf σ0 →
  handles σ0 !! data v = Some d →
  Forall (leaves_alone (data v)) ops →
  Z.of_nat (base.size (handles σ0)) + Z.of_nat (length ops) + 2 < 2 ^ 63 →
  ∀ (n : nat) (σ : state),
    run H (take n ops) σ0 = Some σ →
    (∃ blk,
       handles σ !! data v = Some d ∧
       blocks σ !! block_ptr d = Some blk ∧
       block.count blk
         = Z.of_nat (refs_besides (data v) (handles σ) (block_ptr d)) + 1) ∧
    (∀ b blk, blocks σ !! b = Some blk → 0 ≤ block.count blk).
Proof.
  intros Hwf Hd Hall Hsz n σ Hrun.
  apply (counter_after_calls H v (take n ops) σ0 σ d Hwf Hd); [| | exact Hrun].
  - by apply Forall_take.
  - rewrite length_take. lia.
Qed.

Lemma example_state_wf : wf example_state.
Proof.
  refine (proj1 (run_sound shapes [MakeVal (FromValue Shape 16 Circle [5])]
                   empty_state example_state wf_empty _ _)).
  - vm_compute. reflexivity.
  - vm_compute. reflexivity.
Qed.

Lemma counter_counts_handles_witness :
  ∃ σ, run shapes (take 3 example_ops) example_state = Some σ ∧
    (∃ blk,
       handles σ !! data example_val = Some example_descriptor ∧
       blocks σ !! 1%positive = Some blk ∧
       block.count blk
         = Z.of_nat (refs_besides (data example_val) (handles σ) 1%positive) + 1) ∧
    (∀ b blk, blocks σ !! b = Some blk → 0 ≤ block.count blk).
Proof.
  eexists. split; [vm_compute; reflexivity |].
  refine (counter_counts_handles shapes example_val example_ops example_state
            example_descriptor _ _ _ _ 3%nat _ _).
  - exact example_state_wf.
  - vm_compute. reflexivity.
  - repeat constructor; discriminate.
  - vm_compute. reflexivity.
  - vm_compute. reflexivity.
Defined.

Lemma wrap_size_idemp_add z : wrap_size (0 + wrap_size (z + 0)) = wrap_size z.
Proof.
  unfold wrap_size. rewrite Z.add_0_l, Z.add_0_r. apply Z.mod_mod.
  unfold size_bits. lia.
Qed.

(** C10: when [val::clone] returns, the caller holds a pointer to a fresh
    heap copy of the value, at the stored offset; the block that
    [ptr::clone] allocated for it has count zero and was not allocated
    before, and in a state with sound bookkeeping no handle names it, so it
    stays allocated at count zero after any further client calls. *)
Theorem clone_leaks_block (H : hierarchy) (T : cls) (v : val) (σ σ' : state)
    (r : pointer) :
  val_clone H T v σ = Ok r σ' →
  ∃ d0 blk0 copy D x a o b,
    handles σ !! data v = Some d0 ∧
    blocks σ !! block_ptr d0 = Some blk0 ∧
    block.data blk0 = Ptr a o ∧
    objs σ !! a = Some (Object D x) ∧
    copy_ctor H (op_ptr d0) = Some copy ∧
    let a' := fresh (dom (objs σ)) in
    b = fresh (dom (blocks σ)) ∧
    objs σ !! a' = None ∧
    objs σ' !! a' = Some (Object (op_ptr d0) (copy x)) ∧
    r = Ptr a' (wrap_size (upcast_offset d0)) ∧
    blocks σ !! b = None ∧
    handles σ' = handles σ ∧
    (wf σ →
     leaked b (block.mk 0 (Ptr a' 0)) σ' ∧
     ∀ ops σ'',
       Z.of_nat (base.size (handles σ')) + Z.of_nat (length ops) + 2 < 2 ^ 63 →
       run H ops σ' = Some σ'' →
       leaked b (block.mk 0 (Ptr a' 0)) σ'').
Proof.
  intros Hr. unfold val_clone in Hr. inv_all.
  match goal with Hc : ptr_clone _ _ _ _ _ _ = Ok _ _ |- _ =>
    apply ptr_clone_heap_inv in Hc;
    destruct Hc as (d0 & blk0 & copy & D & xv & a & o & Hh0 & Hb0 & Hdat0 & Ha & Hcp & -> & Ho & Hb & Hh)
  end.
  simpl in *.
  match goal with Hb' : blocks _ !! _ = Some ?blk |- _ =>
    rewrite Hb, lookup_insert_eq in Hb'; injection Hb' as <- end.
  simpl in *.
  inv_all. simpl in *.
  exists d0, blk0, copy, D, xv, a, o, (fresh (dom (blocks σ))).
  do 5 (split; [done |]). simpl.
  split; [reflexivity |].
  split; [apply fresh_object_unallocated |].
  split; [rewrite Ho; apply lookup_insert_eq |].
  split; [by rewrite wrap_size_idemp_add |].
  split; [apply fresh_block_unallocated |].
  split; [done |].
  intros Hwf.
  match goal with |- leaked ?b ?blk ?s ∧ _ =>
    assert (Hl : leaked b blk s); [| assert (Hwf' : wf s)] end.
  { split; simpl; [rewrite Hb; apply lookup_insert_eq |].
    rewrite Hh. apply refs_unnamed. intros h d Hd Hn.
    destruct (proj1 Hwf _ _ Hd) as [blk Hblk]. rewrite Hn in Hblk.
    by rewrite fresh_block_unallocated in Hblk. }
  { unfold wf. simpl. rewrite Hh, Hb. apply counted_leak; [exact Hwf |].
    apply fresh_block_unallocated. }
  split; [exact Hl |].
  intros ops σ'' Hsz Hrun.
  apply (run_sound H ops _ σ'' Hwf' Hsz Hrun). exact Hl.
Qed.

Lemma clone_leaks_block_witness :
  ∃ r σ', val_clone shapes Shape example_val example_state = Ok r σ' ∧
    leaked (fresh (dom (blocks example_state)))
      (block.mk 0 (Ptr (fresh (dom (objs example_state))) 0)) σ'.
Proof.
  eexists _, _. split; [vm_compute; reflexivity |].
  edestruct (clone_leaks_block shapes Shape example_val example_state)
    as (d0 & blk0 & copy & D & x & a & o & b & _ & _ & _ & _ & _ & Hb & _ & _ & _ & _ & _ & Hk);
    [vm_compute; reflexivity |].
  rewrite Hb in Hk. exact (proj1 (Hk example_state_wf)).
Defined.

(** ** Copies are independent *)

Lemma val_copy_inv H T v σ w σ' :
  val_copy H T v σ = Ok w σ' →
  ∃ dv blkv copy D x a o,
    handles σ !! data v = Some dv ∧
    blocks σ !! block_ptr dv = Some blkv ∧
    block.data blkv = Ptr a o ∧
    objs σ !! a = Some (Object D x) ∧
    copy_ctor H (op_ptr dv) = Some copy ∧
    let ss := fresh (dom (objs σ)) in
    let a' := fresh (dom (<[ss := RawStorage]> (objs σ))) in
    let b' := fresh (dom (blocks σ)) in
    let h' := fresh (dom (handles σ)) in
    w = {| SmallStorageSize := SmallStorageSize v; small_storage := ss; data := h' |} ∧
    handles σ' =
      <[h' := {| block_ptr := b'; upcast_offset := wrap_size (upcast_offset dv + 0);
                 op_ptr := op_ptr dv |}]> (handles σ) ∧
    blocks σ' = <[b' := block.mk 1 (Ptr a' 0)]> (blocks σ) ∧
    objs σ' = <[a' := Object (op_ptr dv) (copy x)]> (<[ss := RawStorage]> (objs σ)).
Proof.
  intros Hr. unfold val_copy in Hr. simpl in Hr. inv_all.
  match goal with Hc : ptr_clone _ _ _ _ _ _ = Ok _ _ |- _ =>
    apply ptr_clone_heap_inv in Hc;
    destruct Hc as (dv & blkv & copy & D & xv & a & o & Hh0 & Hb0 & Hdat0 & Ha & Hcp & -> & Ho & Hb & Hh)
  end.
  inv_handle_ctor. subst. simpl in *.
  repeat match goal with
  | Hx : context [<[?k := ?x]> (<[?k := ?y]> ?m)] |- _ => rewrite insert_insert_eq in Hx
  end.
  match goal with Hx : blocks _ !! _ = Some ?b |- _ =>
    rewrite Hb, lookup_insert_eq in Hx; injection Hx as <- end.
  assert (Hne : a ≠ fresh (dom (objs σ))).
  { intros ->. by rewrite lookup_insert_eq in Ha. }
  rewrite lookup_insert_ne in Ha by done.
  exists dv, blkv, copy, D, xv, a, o. simpl.
  do 5 (split; [done |]).
  split; [by rewrite Hh |].
  split; [congruence |].
  split; [| congruence].
  match goal with Hx : blocks σ' = _ |- _ => rewrite Hx, Hb end.
  unfold bump. simpl. by rewrite insert_insert_eq.
Qed.

Lemma val_read_spec v σ d blk a o D x :
  handles σ !! data v = Some d →
  blocks σ !! block_ptr d = Some blk →
  block.data blk = Ptr a o →
  objs σ !! a = Some (Object D x) →
  value_of (val_read v σ) = Some (D, x).
Proof.
  intros Hd Hb Hdat Ho.
  unfold val_read, val_arrow, ptr_arrow, get_descriptor, data_load, read_object.
  msimpl. rewrite Hd. msimpl. rewrite Hb. msimpl. rewrite Hdat. simpl.
  msimpl. rewrite Ho. done.
Qed.

Lemma val_write_inv w f σ u σ' :
  val_write w f σ = Ok u σ' →
  ∃ d blk a o D x,
    handles σ !! data w = Some d ∧
    blocks σ !! block_ptr d = Some blk ∧
    block.data blk = Ptr a o ∧
    objs σ !! a = Some (Object D x) ∧
    handles σ' = handles σ ∧ blocks σ' = blocks σ ∧
    objs σ' = <[a := Object D (f x)]> (objs σ).
Proof.
  unfold val_write, val_arrow, ptr_arrow. intros Hr. inv_all. simpl in *.
  match goal with Hx : block.t |- _ => destruct (block.data Hx) as [| a o] eqn:Hdat end;
    simpl in *; inv_all.
  match goal with Hw : write_object _ _ _ = Ok _ _ |- _ => unfold write_object in Hw; simpl in Hw end.
  destruct (objs σ !! a) as [[D x |] |] eqn:Ho; inv_all.
  eexists _, _, a, o, D, x. done.
Qed.

(** C3: the copy constructor gives the copy a handle of its own on a block
    that was not allocated before, distinct from the source's block, at
    count one; that block points at a freshly allocated object made by the
    stored type's copy constructor from the source's object, which stays
    where it was; and a write through the copy leaves what the source reads
    unchanged. *)
Theorem copy_is_independent (H : hierarchy) (T : cls) (v w : val) (σ σ' : state) :
  val_copy H T v σ = Ok w σ' →
  ∃ dv dw blkv blkw D x copy a a',
    handles σ !! data v = Some dv ∧
    handles σ' !! data v = Some dv ∧
    handles σ' !! data w = Some dw ∧
    data w ≠ data v ∧
    block_ptr dw ≠ block_ptr dv ∧
    blocks σ !! block_ptr dw = None ∧
    blocks σ' !! block_ptr dv = Some blkv ∧
    blocks σ' !! block_ptr dw = Some blkw ∧
    block.count blkw = 1 ∧
    block.data blkw = Ptr a' 0 ∧
    (∃ o, block.data blkv = Ptr a o) ∧
    a' ≠ a ∧
    objs σ !! a' = None ∧
    objs σ !! a = Some (Object D x) ∧
    copy_ctor H (op_ptr dv) = Some copy ∧
    objs σ' !! a = Some (Object D x) ∧
    objs σ' !! a' = Some (Object (op_ptr dv) (copy x)) ∧
    ∀ f u σ'',
      val_write w f σ' = Ok u σ'' →
      value_of (val_read v σ') = Some (D, x) ∧
      value_of (val_read v σ'') = Some (D, x) ∧
      value_of (val_read w σ'') = Some (op_ptr dv, f (copy x)).
Proof.
  intros Hr. apply val_copy_inv in Hr.
  destruct Hr as (dv & blkv & copy & D & x & a & o & Hdv & Hblkv & Hdat & Ha & Hcp & Hr).
  simpl in Hr. destruct Hr as (-> & Hh' & Hb' & Ho'). simpl.
  set (ss := fresh (dom (objs σ))) in *.
  set (a' := fresh (dom (<[ss := RawStorage]> (objs σ)))) in *.
  set (b' := fresh (dom (blocks σ))) in *.
  set (h' := fresh (dom (handles σ))) in *.
  assert (Hh'v : h' ≠ data v).
  { intros E. pose proof (fresh_handle_unallocated σ) as Hf. fold h' in Hf. congruence. }
  assert (Hb'v : b' ≠ block_ptr dv).
  { intros E. pose proof (fresh_block_unallocated σ) as Hf. fold b' in Hf. congruence. }
  assert (Ha'ss : a' ≠ ss) by apply fresh_insert_ne.
  assert (Ha'n : objs σ !! a' = None) by apply fresh_insert_None.
  assert (Ha'a : a' ≠ a) by (intros E; congruence).
  assert (Hass : a ≠ ss).
  { intros E. pose proof (fresh_object_unallocated σ) as Hf. fold ss in Hf. congruence. }
  assert (Hav' : objs σ' !! a = Some (Object D x)).
  { rewrite Ho', !lookup_insert_ne by done. done. }
  assert (Hdv' : handles σ' !! data v = Some dv).
  { rewrite Hh', lookup_insert_ne by done. done. }
  assert (Hblkv' : blocks σ' !! block_ptr dv = Some blkv).
  { rewrite Hb', lookup_insert_ne by done. done. }
  eexists dv, _, blkv, _, D, x, copy, a, a'.
  split; [done |]. split; [done |].
  split; [rewrite Hh'; apply lookup_insert_eq |].
  split; [done |]. simpl. split; [done |].
  split; [apply fresh_block_unallocated |].
  split; [done |].
  split; [rewrite Hb'; apply lookup_insert_eq |]. simpl.
  split; [done |]. split; [done |]. split; [eauto |].
  split; [done |]. split; [done |]. split; [done |]. split; [done |].
  split; [done |].
  split; [rewrite Ho'; apply lookup_insert_eq |].
  intros f u σ'' Hw. apply val_write_inv in Hw.
  destruct Hw as (d & blk & aw & ow & Dw & xw & Hd & Hblk & Hdatw & Haw & Hh'' & Hb'' & Ho'').
  simpl in Hd. rewrite Hh', lookup_insert_eq in Hd. injection Hd as <-. simpl in Hblk.
  rewrite Hb', lookup_insert_eq in Hblk. injection Hblk as <-. simpl in Hdatw.
  injection Hdatw as <- <-.
  rewrite Ho', lookup_insert_eq in Haw. injection Haw as <- <-.
  split; [by eapply val_read_spec |].
  split.
  - eapply val_read_spec; [by rewrite Hh'' | by rewrite Hb'' | done |].
    rewrite Ho'', lookup_insert_ne by done. done.
  - eapply (val_read_spec _ σ''); simpl.
    + rewrite Hh'', Hh'. apply lookup_insert_eq.
    + simpl. rewrite Hb'', Hb'. apply lookup_insert_eq.
    + reflexivity.
    + rewrite Ho''. apply lookup_insert_eq.
Qed.

Lemma copy_is_independent_witness :
  ∃ w σ' σ'',
    val_copy shapes Shape example_val example_state = Ok w σ' ∧
    val_write w (λ _, [10]) σ' = Ok tt σ'' ∧
    value_of (val_read example_val σ'') = value_of (val_read example_val σ').
Proof.
  eexists _, _, _. split; [vm_compute; reflexivity |].
  split; [vm_compute; reflexivity |].
  edestruct (λ w σ', copy_is_independent shapes Shape example_val w example_state σ') as
    (dv & dw & blkv & blkw & D & x & copy & a & a' & Hk); [vm_compute; reflexivity |].
  do 17 (destruct Hk as [_ Hk]).
  edestruct (Hk (λ _, [10]) tt) as (Hr1 & Hr2 & _); [vm_compute; reflexivity |].
  rewrite Hr1, Hr2. reflexivity.
Defined.

(** ** Exact outcomes of the handle operations *)

Ltac state_done :=
  unfold log, set_blocks, set_handles, set_objs; simpl;
  rewrite <- ?app_assoc; simpl; rewrite ?app_nil_r; try reflexivity.

Lemma ptr_copy_spec src σ d blk :
  handles σ !! src = Some d →
  blocks σ !! block_ptr d = Some blk →
  ptr_copy src σ =
    Ok (fresh (dom (handles σ)))
       (mkState (bump (block_ptr d) blk (blocks σ)) (objs σ)
          (<[fresh (dom (handles σ)) := d]> (handles σ))
          (trace σ ++ [EvLock src; EvUnlock src;
                       EvStoreDescriptor (fresh (dom (handles σ))) d;
                       EvFetchAdd (block_ptr d) (block.count blk)])).
Proof.
  intros Hd Hb.
  unfold ptr_copy, get_descriptor, handle_init, handle_member, block_increment,
    count_fetch_add.
  msimpl. rewrite Hd. msimpl. rewrite lookup_insert_eq. msimpl. rewrite Hb. msimpl.
  state_done.
Qed.

Lemma ptr_dtor_spec h σ d blk :
  handles σ !! h = Some d →
  blocks σ !! block_ptr d = Some blk →
  ptr_dtor h σ =
    Ok tt
       (mkState (drop (block_ptr d) blk (blocks σ)) (objs σ) (delete h (handles σ))
          (trace σ ++ [EvLock h; EvUnlock h; EvFetchSub (block_ptr d) (block.count blk)]
             ++ if decide (block.count blk = 1) then [EvDeleteBlock (block_ptr d)] else [])).
Proof.
  intros Hd Hb.
  unfold ptr_dtor, get_descriptor, block_decrement, count_fetch_sub, delete_block,
    handle_release, drop.
  msimpl. rewrite Hd. msimpl. rewrite Hb. msimpl.
  destruct (decide (block.count blk = 1)); msimpl.
  - rewrite lookup_insert_eq. msimpl. rewrite Hd.
    unfold log, set_blocks, set_handles; simpl. rewrite delete_insert_eq. state_done.
  - rewrite Hd. state_done.
Qed.


Lemma ptr_assign_widen_body_spec H T U this other σ dt dn blkn blko :
  handles σ !! this = Some dt →
  handles σ !! other = Some dn →
  blocks σ !! block_ptr dn = Some blkn →
  bump (block_ptr dn) blkn (blocks σ) !! block_ptr dt = Some blko →
  ptr_assign_widen_body H T U this other σ =
    Ok tt
       (mkState (drop (block_ptr dt) blko (bump (block_ptr dn) blkn (blocks σ)))
          (objs σ)
          (<[this := add_offset dn (compute_upcast_offset H T U)]> (handles σ))
          (trace σ ++ assign_events this other
                        (add_offset dn (compute_upcast_offset H T U))
                        (block_ptr dn) (block_ptr dt)
                        (block.count blkn) (block.count blko))).
Proof.
  intros Hdt Hdn Hbn Hbo.
  unfold ptr_assign_widen_body, get_descriptor, exchange_descriptor, block_increment,
    block_decrement, count_fetch_add, count_fetch_sub, delete_block, drop, assign_events.
  msimpl. rewrite Hdn. msimpl. rewrite Hbn. msimpl. rewrite Hdt. msimpl.
  unfold bump in Hbo. rewrite Hbo. msimpl.
  destruct (decide (block.count blko = 1)); msimpl.
  - rewrite lookup_insert_eq. msimpl.
    unfold log, set_blocks, set_handles; simpl. rewrite delete_insert_eq. state_done.
  - state_done.
Qed.

(** ** Assignment *)

Lemma new_events_app σ σ' es : trace σ' = trace σ ++ es → new_events σ σ' = es.
Proof. intros E. unfold new_events. rewrite E. apply drop_app_length. Qed.


Lemma block_eta blk : block.mk (block.count blk) (block.data blk) = blk.
Proof. by destruct blk. Qed.

(** A whole assignment [this = src]: the parameter is copied from [src],
    the body runs, the parameter is destroyed. *)
Lemma assign_call (body : loc → loc → M unit) (f : descriptor_t → descriptor_t) :
  (∀ d, block_ptr (f d) = block_ptr d) →
  (∀ this other σ dt dn blkn blko,
     handles σ !! this = Some dt →
     handles σ !! other = Some dn →
     blocks σ !! block_ptr dn = Some blkn →
     bump (block_ptr dn) blkn (blocks σ) !! block_ptr dt = Some blko →
     body this other σ =
       Ok tt
          (mkState (drop (block_ptr dt) blko (bump (block_ptr dn) blkn (blocks σ)))
             (objs σ) (<[this := f dn]> (handles σ))
             (trace σ ++ assign_events this other (f dn) (block_ptr dn) (block_ptr dt)
                           (block.count blkn) (block.count blko)))) →
  ∀ this src σ dt dn blkn blkt,
    handles σ !! this = Some dt →
    handles σ !! src = Some dn →
    blocks σ !! block_ptr dn = Some blkn →
    blocks σ !! block_ptr dt = Some blkt →
    1 ≤ block.count blkn →
    block.count blkn + 2 < 2 ^ 63 →
    ∃ σ' blk',
      (other ← ptr_copy src; body this other;; ptr_dtor other) σ = Ok tt σ' ∧
      handles σ' = <[this := f dn]> (handles σ) ∧
      objs σ' = objs σ ∧
      blocks σ' !! block_ptr dn = Some blk' ∧
      block.data blk' = block.data blkn ∧
      1 ≤ block.count blk' ∧
      (block_ptr dt = block_ptr dn → blocks σ' = blocks σ) ∧
      Forall (λ c, 1 ≤ c) (transient_counts (block_ptr dn) (new_events σ σ')) ∧
      EvDeleteBlock (block_ptr dn) ∉ new_events σ σ'.
Proof.
  intros Hf Hbody this src σ dt dn blkn blkt Hdt Hdn Hbn Hbt Hc1 Hc2.
  set (tmp := fresh (dom (handles σ))).
  set (bn := block_ptr dn) in *. set (bo := block_ptr dt) in *.
  set (c := block.count blkn) in *.
  assert (Htmp : handles σ !! tmp = None) by apply fresh_handle_unallocated.
  assert (Hts : tmp ≠ this) by congruence.
  rewrite (bind_Ok _ _ _ _ _ (ptr_copy_spec src σ dn blkn Hdn Hbn)).
  fold tmp bn c.
  set (blk1 := block.mk (wrap_intptr (c + 1)) (block.data blkn)).
  set (blk2 := block.mk (wrap_intptr (block.count blk1 + 1)) (block.data blkn)).
  assert (Hw1 : wrap_intptr (c + 1) = c + 1) by (apply wrap_intptr_small; lia).
  assert (Hw2 : wrap_intptr (c + 1 + 1) = c + 2) by (rewrite wrap_intptr_small; lia).
  assert (Hw3 : wrap_intptr (c + 2 - 1) = c + 1) by (rewrite wrap_intptr_small; lia).
  assert (Hw4 : wrap_intptr (c + 1 - 1) = c) by (rewrite wrap_intptr_small; lia).
  assert (Hk1 : block.count blk1 = c + 1) by exact Hw1.
  assert (Hk2 : block.count blk2 = c + 2) by (unfold blk2; simpl; rewrite Hw1; exact Hw2).
  destruct (decide (bo = bn)) as [Heq | Hne].
  - (* the old block is the new block *)
    erewrite bind_Ok; cycle 1.
    { apply (Hbody this tmp _ dt dn blk1 blk2); simpl.
      - by rewrite lookup_insert_ne.
      - apply lookup_insert_eq.
      - unfold bump. fold bn. apply lookup_insert_eq.
      - unfold bump. fold bn bo. rewrite Heq. apply lookup_insert_eq. }
    simpl. fold bn bo. rewrite Heq.
    set (blk3 := block.mk (wrap_intptr (block.count blk2 - 1)) (block.data blkn)).
    assert (Hd2 : drop bn blk2 (bump bn blk1 (bump bn blkn (blocks σ)))
                  = <[bn := blk3]> (blocks σ)).
    { unfold drop, bump. rewrite Hk2, decide_False by lia.
      rewrite !insert_insert_eq. unfold blk3. rewrite Hk2. reflexivity. }
    rewrite Hd2.
    erewrite (ptr_dtor_spec tmp _ dn blk3); cycle 1.
    { simpl. rewrite lookup_insert_ne by done. apply lookup_insert_eq. }
    { simpl. fold bn. apply lookup_insert_eq. }
    simpl. fold bn.
    assert (Hc3 : block.count blk3 = c + 1).
    { change (wrap_intptr (block.count blk2 - 1) = c + 1). rewrite Hk2. exact Hw3. }
    assert (Hd3 : drop bn blk3 (<[bn := blk3]> (blocks σ)) = blocks σ).
    { unfold drop. rewrite Hc3, decide_False by lia.
      rewrite insert_insert_eq, Hw4. unfold blk3. simpl.
      apply insert_id. rewrite Hbn. f_equal. exact (eq_sym (block_eta blkn)). }
    eexists _, blkn. split; [reflexivity |]. simpl.
    split. { rewrite delete_insert_ne by done. by rewrite delete_insert_id. }
    split; [done |]. rewrite Hd3.
    split; [done |]. split; [done |]. split; [done |]. split; [done |].
    erewrite new_events_app by (simpl; rewrite <- !app_assoc; reflexivity).
    unfold assign_events. rewrite Hw1, Hw2, Hw3.
    rewrite !decide_False by lia. simpl.
    split.
    + unfold transient_counts. simpl. rewrite !decide_True by done.
      rewrite Hw1, Hw2, Hw3, Hw4. repeat constructor; lia.
    + intros Hin. rewrite !elem_of_cons in Hin.
      repeat (destruct Hin as [Hin | Hin]; [discriminate |]). by apply elem_of_nil in Hin.
  - (* the old block is another block *)
    erewrite bind_Ok; cycle 1.
    { apply (Hbody this tmp _ dt dn blk1 blkt); simpl.
      - by rewrite lookup_insert_ne.
      - apply lookup_insert_eq.
      - unfold bump. fold bn. apply lookup_insert_eq.
      - unfold bump. fold bn bo. by rewrite !lookup_insert_ne. }
    simpl. fold bn bo.
    assert (Hb2 : drop bo blkt (bump bn blk1 (bump bn blkn (blocks σ))) !! bn = Some blk2).
    { unfold drop, bump. destruct (decide (block.count blkt = 1)).
      - rewrite lookup_delete_ne by done. apply lookup_insert_eq.
      - rewrite lookup_insert_ne by done. apply lookup_insert_eq. }
    erewrite (ptr_dtor_spec tmp _ dn blk2); cycle 1.
    { simpl. rewrite lookup_insert_ne by done. apply lookup_insert_eq. }
    { simpl. fold bn. exact Hb2. }
    simpl. fold bn.
    pose proof Hk2 as Hc2'.
    eexists _, (block.mk (c + 1) (block.data blkn)). split; [reflexivity |]. simpl.
    split. { rewrite delete_insert_ne by done. by rewrite delete_insert_id. }
    split; [done |].
    split. { unfold drop at 1. rewrite Hc2', decide_False by lia. rewrite Hw3.
             apply lookup_insert_eq. }
    split; [done |]. split; [simpl; lia |]. split; [done |].
    erewrite new_events_app by (simpl; rewrite <- !app_assoc; reflexivity).
    unfold assign_events. rewrite ?Hw1, ?Hw2, ?Hw3.
    rewrite (decide_False (P := c + 2 = 1)) by lia. simpl.
    split.
    + unfold transient_counts.
      destruct (decide (block.count blkt = 1)); simpl;
        rewrite ?decide_True by done;
        rewrite ?(decide_False (P := bo = bn)) by done; simpl;
        rewrite ?decide_True by done;
        rewrite ?Hw1, ?Hw2, ?Hw3; repeat constructor; lia.
    + intros Hin. rewrite !elem_of_cons in Hin.
      repeat (destruct Hin as [Hin | Hin]; [discriminate |]).
      apply elem_of_app in Hin as [Hin | Hin].
      * destruct (decide (block.count blkt = 1)); [| by apply elem_of_nil in Hin].
        apply list_elem_of_singleton in Hin. congruence.
      * rewrite !elem_of_cons in Hin.
        repeat (destruct Hin as [Hin | Hin]; [discriminate |]). by apply elem_of_nil in Hin.
Qed.




(** ** Conversions along the hierarchy *)

Lemma ptr_arrow_spec h σ d blk a o :
  handles σ !! h = Some d →
  blocks σ !! block_ptr d = Some blk →
  block.data blk = Ptr a o →
  ptr_arrow h σ =
    Ok (Ptr a (wrap_size (o + upcast_offset d)))
       (log [EvLock h; EvUnlock h; EvDataLoad (block_ptr d) (Ptr a o)] σ).
Proof.
  intros Hd Hb Hdat. unfold ptr_arrow, get_descriptor, data_load.
  msimpl. rewrite Hd. msimpl. rewrite Hb. msimpl. rewrite Hdat. simpl.
  f_equal. state_done.
Qed.

Lemma share_tail_spec (g : descriptor_t → descriptor_t) src σ d blk :
  handles σ !! src = Some d →
  blocks σ !! block_ptr d = Some blk →
  (d ← get_descriptor src;
   this ← handle_init d;
   d' ← handle_member this;
   block_increment (block_ptr d');;
   handle_store this (g d');;
   mret this) σ =
    Ok (fresh (dom (handles σ)))
       (mkState (bump (block_ptr d) blk (blocks σ)) (objs σ)
          (<[fresh (dom (handles σ)) := g d]> (handles σ))
          (trace σ ++ [EvLock src; EvUnlock src;
                       EvStoreDescriptor (fresh (dom (handles σ))) d;
                       EvFetchAdd (block_ptr d) (block.count blk);
                       EvStoreDescriptor (fresh (dom (handles σ))) (g d)])).
Proof.
  intros Hd Hb.
  unfold get_descriptor, handle_init, handle_member, block_increment,
    count_fetch_add, handle_store.
  msimpl. rewrite Hd. msimpl. rewrite lookup_insert_eq. msimpl. rewrite Hb. msimpl.
  rewrite lookup_insert_eq. f_equal.
  unfold log, set_blocks, set_handles; simpl. rewrite insert_insert_eq. state_done.
Qed.

Lemma wrap_size_add_l x y : wrap_size (wrap_size x + y) = wrap_size (x + y).
Proof. unfold wrap_size. apply Zplus_mod_idemp_l. Qed.

Lemma wrap_size_add_r x y : wrap_size (x + wrap_size y) = wrap_size (x + y).
Proof. unfold wrap_size. apply Zplus_mod_idemp_r. Qed.

Lemma wrap_size_sub_l x y : wrap_size (wrap_size x - y) = wrap_size (x - y).
Proof. unfold wrap_size. apply Zminus_mod_idemp_l. Qed.

Lemma compute_upcast_offset_up H T U disp :
  base_disp H T U = Some disp → compute_upcast_offset H T U = wrap_size disp.
Proof.
  intros Hd. unfold compute_upcast_offset, cast_address. rewrite Hd.
  rewrite wrap_size_sub_l. f_equal. lia.
Qed.

Lemma compute_upcast_offset_down H T U disp :
  base_disp H T U = None → base_disp H U T = Some disp →
  compute_upcast_offset H T U = wrap_size (- disp).
Proof.
  intros Hn Hd. unfold compute_upcast_offset, cast_address. rewrite Hn, Hd.
  rewrite wrap_size_sub_l. f_equal. lia.
Qed.

Lemma add_offset_up H T U disp d :
  base_disp H T U = Some disp →
  add_offset d (compute_upcast_offset H T U) =
    {| block_ptr := block_ptr d; upcast_offset := wrap_size (upcast_offset d + disp);
       op_ptr := op_ptr d |}.
Proof.
  intros Hd. unfold add_offset. rewrite (compute_upcast_offset_up H T U disp Hd).
  by rewrite wrap_size_add_r.
Qed.

(** Widening where the offset of the base is fixed by the classes. *)
Lemma widening_plain (H : hierarchy) (T U : cls) (disp : Z)
    (src : loc) (σ : state) (d : descriptor_t) (blk : block.t) (a : loc) (o : Z) :
  base_disp H T U = Some disp →
  handles σ !! src = Some d →
  blocks σ !! block_ptr d = Some blk →
  block.data blk = Ptr a o →
  let p := Ptr a (wrap_size (o + upcast_offset d)) in
  let d' := {| block_ptr := block_ptr d;
               upcast_offset := wrap_size (upcast_offset d + disp);
               op_ptr := op_ptr d |} in
  value_of (ptr_arrow src σ) = Some p ∧
  (∃ h σ', ptr_widen H T U src σ = Ok h σ' ∧
     handles σ' !! h = Some d' ∧ objs σ' = objs σ ∧
     value_of (ptr_arrow h σ') = Some (upcast H T U p)) ∧
  (∀ v, data v = src →
     ∃ h σ', ptr_from_val H T U v σ = Ok h σ' ∧
       handles σ' !! h = Some d' ∧ objs σ' = objs σ ∧
       value_of (ptr_arrow h σ') = Some (upcast H T U p)) ∧
  (∀ this dt blkt,
     handles σ !! this = Some dt →
     blocks σ !! block_ptr dt = Some blkt →
     1 ≤ block.count blk →
     block.count blk + 2 < 2 ^ 63 →
     ∃ σ', ptr_assign_widen H T U this src σ = Ok tt σ' ∧
       handles σ' !! this = Some d' ∧ objs σ' = objs σ ∧
       value_of (ptr_arrow this σ') = Some (upcast H T U p)).
Proof.
  intros Hdisp Hd Hb Hdat p d'.
  assert (Hup : upcast H T U p = Ptr a (wrap_size (o + upcast_offset d')))
    by (unfold upcast, p; simpl; rewrite Hdisp;
        by rewrite wrap_size_add_l, wrap_size_add_r, Z.add_assoc).
  assert (Hd' : add_offset d (compute_upcast_offset H T U) = d')
    by (by apply add_offset_up).
  split; [by rewrite (ptr_arrow_spec src σ d blk a o) |].
  assert (Hshare :
    ∃ h σ',
      (d ← get_descriptor src; this ← handle_init d; d1 ← handle_member this;
       block_increment (block_ptr d1);;
       handle_store this (add_offset d1 (compute_upcast_offset H T U));;
       mret this) σ = Ok h σ' ∧
      handles σ' !! h = Some d' ∧ objs σ' = objs σ ∧
      value_of (ptr_arrow h σ') = Some (upcast H T U p)).
  { eexists _, _. split;
      [apply (share_tail_spec (λ d1, add_offset d1 (compute_upcast_offset H T U))
                src σ d blk Hd Hb) |].
    rewrite Hup, Hd'.
    split; [simpl; apply lookup_insert_eq |]. split; [done |].
    erewrite (ptr_arrow_spec _ _ d' _ a o); [done | | |]; simpl.
    - apply lookup_insert_eq.
    - unfold bump. apply lookup_insert_eq.
    - done. }
  split; [exact Hshare |].
  split; [intros v <-; exact Hshare |].
  intros this dt blkt Hdt Hbt Hc1 Hc2.
  destruct (assign_call (ptr_assign_widen_body H T U)
              (λ d1, add_offset d1 (compute_upcast_offset H T U)) (λ _, eq_refl)
              (ptr_assign_widen_body_spec H T U)
              this src σ dt d blk blkt Hdt Hd Hb Hbt Hc1 Hc2)
    as (σ' & blk' & Hr & Hh & Ho & Hb' & Hdat' & _).
  exists σ'. split; [exact Hr |]. rewrite Hd' in Hh.
  split; [rewrite Hh; apply lookup_insert_eq |]. split; [done |].
  rewrite Hup.
  erewrite (ptr_arrow_spec this σ' d' blk' a o); [done | | done | congruence].
  rewrite Hh. apply lookup_insert_eq.
Qed.

Lemma ptr_widen_v_plain (V : vhierarchy) T U src σ :
  virtual_base V T U = false → ptr_widen_v V T U src σ = ptr_widen V T U src σ.
Proof. intros Hnv. unfold ptr_widen_v, compute_upcast_offset_v. rewrite Hnv. reflexivity. Qed.

Lemma ptr_from_val_v_plain (V : vhierarchy) T U v σ :
  virtual_base V T U = false → ptr_from_val_v V T U v σ = ptr_from_val V T U v σ.
Proof. intros Hnv. unfold ptr_from_val_v, compute_upcast_offset_v. rewrite Hnv. reflexivity. Qed.

Lemma ptr_assign_widen_v_plain (V : vhierarchy) T U this src σ :
  virtual_base V T U = false →
  ptr_assign_widen_v V T U this src σ = ptr_assign_widen V T U this src σ.
Proof.
  intros Hnv. unfold ptr_assign_widen_v, ptr_assign_widen_body_v, compute_upcast_offset_v.
  rewrite Hnv. reflexivity.
Qed.

(** C4: when [T] is a base of [U] that is not virtual and sits at
    displacement [disp], converting a live handle of type [U] to [ptr<T>],
    by construction from the handle, by construction from the container
    that owns it, or by assignment, returns normally whatever the stored
    object is; the new descriptor has the same block and dispatcher and the
    offset plus [disp] (modulo the width of [size_t]); and dereferencing it
    yields the static up-cast to [T] of what the original handle
    dereferences to. *)
Theorem widening_adds_displacement (V : vhierarchy) (T U : cls) (disp : Z)
    (src : loc) (σ : state) (d : descriptor_t) (blk : block.t) (a : loc) (o : Z) :
  base_disp V T U = Some disp →
  virtual_base V T U = false →
  handles σ !! src = Some d →
  blocks σ !! block_ptr d = Some blk →
  block.data blk = Ptr a o →
  let p := Ptr a (wrap_size (o + upcast_offset d)) in
  let d' := {| block_ptr := block_ptr d;
               upcast_offset := wrap_size (upcast_offset d + disp);
               op_ptr := op_ptr d |} in
  is_base_of V T U = true ∧
  value_of (ptr_arrow src σ) = Some p ∧
  (∃ h σ', ptr_widen_v V T U src σ = Ok h σ' ∧
     handles σ' !! h = Some d' ∧ objs σ' = objs σ ∧
     value_of (ptr_arrow h σ') = Some (upcast V T U p)) ∧
  (∀ v, data v = src →
     ∃ h σ', ptr_from_val_v V T U v σ = Ok h σ' ∧
       handles σ' !! h = Some d' ∧ objs σ' = objs σ ∧
       value_of (ptr_arrow h σ') = Some (upcast V T U p)) ∧
  (∀ this dt blkt,
     handles σ !! this = Some dt →
     blocks σ !! block_ptr dt = Some blkt →
     1 ≤ block.count blk →
     block.count blk + 2 < 2 ^ 63 →
     ∃ σ', ptr_assign_widen_v V T U this src σ = Ok tt σ' ∧
       handles σ' !! this = Some d' ∧ objs σ' = objs σ ∧
       value_of (ptr_arrow this σ') = Some (upcast V T U p)).
Proof.
  intros Hdisp Hnv Hd Hb Hdat p d'.
  destruct (widening_plain V T U disp src σ d blk a o Hdisp Hd Hb Hdat)
    as (Hp & Hw & Hv & Ha).
  split; [unfold is_base_of; by rewrite Hdisp |].
  split; [exact Hp |].
  split; [by rewrite ptr_widen_v_plain |].
  split.
  - intros v Hv'. rewrite ptr_from_val_v_plain by done. by apply Hv.
  - intros this dt blkt Hdt Hbt Hc1 Hc2. rewrite ptr_assign_widen_v_plain by done.
    by apply (Ha this dt blkt).
Qed.

Lemma widening_adds_displacement_witness :
  ∃ h σ', ptr_widen_v shapes_v Named Label 1%positive label_state = Ok h σ' ∧
    handles σ' !! h
      = Some {| block_ptr := 1%positive; upcast_offset := wrap_size (0 + 8);
                op_ptr := Label |} ∧
    objs σ' = objs label_state ∧
    value_of (ptr_arrow h σ')
      = Some (upcast shapes Named Label (Ptr 2%positive (wrap_size (0 + 0)))).
Proof.
  refine (proj1 (proj2 (proj2
    (widening_adds_displacement shapes_v Named Label 8 1%positive label_state
       {| block_ptr := 1%positive; upcast_offset := 0; op_ptr := Label |}
       (block.mk 1 (Ptr 2%positive 0)) 2%positive 0 _ _ _ _ _)))).
  - reflexivity.
  - reflexivity.
  - vm_compute. reflexivity.
  - vm_compute. reflexivity.
  - reflexivity.
Defined.

(** C4 as it is stated fails: [Stream] is a virtual base of [File], which
    [std::is_base_of] admits, and [p] is a live [ptr<File>] on the [File] of
    a container; constructing a [ptr<Stream>] from [p] or from the
    container, and assigning [p] to the live [ptr<Stream>] [q], have no
    defined behaviour, the handles being live and dereferenceable. *)
Lemma widening_to_virtual_base_is_undefined :
  is_base_of streams Stream File = true ∧
  value_of (ptr_arrow 4%positive streams_state) = Some (Ptr 4%positive 0) ∧
  value_of (ptr_arrow 2%positive streams_state) = Some (Ptr 2%positive 0) ∧
  objs streams_state !! 4%positive = Some (Object File [2]) ∧
  ptr_widen_v streams Stream File 4%positive streams_state = Undefined ∧
  ptr_from_val_v streams Stream File file_val streams_state = Undefined ∧
  ptr_assign_widen_v streams Stream File 2%positive 4%positive streams_state = Undefined.
Proof. repeat split; vm_compute; reflexivity. Qed.

(** ** Destruction of a container *)

(** C2: the body of [~val()] first exchanges the block's data pointer for
    null.  If the counter is then not one it calls [abort()], with the
    value untouched; the whole destructor aborts with it.  If the counter
    is one, the dispatcher is called once: with DESTRUCT, which leaves raw
    storage behind, when the detached pointer is the container's own
    [small_storage], and with DELETE, which releases the storage,
    otherwise; the member handle's destructor then frees the block. *)
Theorem destructor_aborts_unless_sole_owner (H : hierarchy) (v : val) (σ : state)
    (d : descriptor_t) (blk : block.t) :
  handles σ !! data v = Some d →
  blocks σ !! block_ptr d = Some blk →
  let b := block_ptr d in
  let detach := [EvLock (data v); EvUnlock (data v);
                 EvDataExchange b (block.data blk) Null] in
  let detached :=
    mkState (<[b := block.mk (block.count blk) Null]> (blocks σ)) (objs σ) (handles σ)
      (trace σ ++ detach) in
  (block.count blk ≠ 1 →
     val_dtor_body H v σ = Aborted detached ∧ val_dtor H v σ = Aborted detached) ∧
  (block.count blk = 1 →
     ∀ a o D x,
       block.data blk = Ptr a o →
       objs σ !! a = Some (Object D x) →
       ∃ σ' σ'',
         val_dtor_body H v σ = Ok tt σ' ∧
         blocks σ' = blocks detached ∧ handles σ' = handles σ ∧
         (if decide (block.data blk = Ptr (small_storage v) 0) then
            objs σ' = <[a := RawStorage]> (objs σ) ∧
            new_events σ σ' = detach ++ [EvOp (op_ptr d) DESTRUCT (Ptr a o) Null]
          else
            objs σ' = delete a (objs σ) ∧
            new_events σ σ' = detach ++ [EvOp (op_ptr d) DELETE (Ptr a o) Null]) ∧
         val_dtor H v σ = Ok tt σ'' ∧
         blocks σ'' = delete b (blocks σ) ∧
         handles σ'' = delete (data v) (handles σ) ∧
         objs σ'' = objs σ').
Proof.
  intros Hd Hb b detach detached.
  assert (Hbody : val_dtor_body H v σ =
                  if decide (block.count blk ≠ 1) then Aborted detached
                  else if decide (block.data blk = Ptr (small_storage v) 0)
                       then destruct_ H (op_ptr d) (block.data blk) detached
                       else delete_ H (op_ptr d) (block.data blk) detached).
  { unfold val_dtor_body, get_descriptor, data_exchange, count_load.
    msimpl. rewrite Hd. msimpl. rewrite Hb. msimpl. rewrite lookup_insert_eq. msimpl.
    assert (Hs : log [EvDataExchange (block_ptr d) (block.data blk) Null]
                   (set_blocks <[block_ptr d := block.mk (block.count blk) Null]>
                      (log [EvLock (data v); EvUnlock (data v)] σ)) = detached).
    { unfold detached, detach, b. state_done. }
    rewrite Hs. destruct (decide (block.count blk ≠ 1)).
    - msimpl. unfold detached at 1. simpl. rewrite lookup_insert_eq. reflexivity.
    - destruct (decide _); done. }
  split.
  - intros Hc. rewrite decide_True in Hbody by done. split; [done |].
    unfold val_dtor. by rewrite bind_unfold, Hbody.
  - intros Hc a o D x Hdat Ho. rewrite decide_False in Hbody by (intros ?; done).
    assert (Hdh : handles detached !! data v = Some d) by done.
    assert (Hdb : blocks detached !! block_ptr d = Some (block.mk (block.count blk) Null))
      by (simpl; apply lookup_insert_eq).
    destruct (decide (block.data blk = Ptr (small_storage v) 0)) as [Hin | Hout].
    + eexists _, _. split.
      { rewrite Hbody, Hdat. unfold destruct_, op, emit, destroy_object. msimpl.
        rewrite Ho. reflexivity. }
      split; [done |]. split; [done |].
      split. { split; [done |]. apply new_events_app. simpl. by rewrite <- app_assoc. }
      split.
      { unfold val_dtor. rewrite bind_unfold, Hbody, Hdat.
        unfold destruct_, op, emit, destroy_object. msimpl. rewrite Ho. simpl.
        erewrite ptr_dtor_spec; [reflexivity | simpl; exact Hd |].
        simpl. apply lookup_insert_eq. }
      simpl. split; [| done].
      unfold drop. simpl. rewrite decide_True by done. fold b. apply delete_insert_eq.
    + eexists _, _. split.
      { rewrite Hbody, Hdat. unfold delete_, op, emit, delete_object. msimpl.
        rewrite Ho. reflexivity. }
      split; [done |]. split; [done |].
      split. { split; [done |]. apply new_events_app. simpl. by rewrite <- app_assoc. }
      split.
      { unfold val_dtor. rewrite bind_unfold, Hbody, Hdat.
        unfold delete_, op, emit, delete_object. msimpl. rewrite Ho. simpl.
        erewrite ptr_dtor_spec; [reflexivity | simpl; exact Hd |].
        simpl. apply lookup_insert_eq. }
      simpl. split; [| done].
      unfold drop. simpl. rewrite decide_True by done. fold b. apply delete_insert_eq.
Qed.

Lemma destructor_aborts_unless_sole_owner_witness :
  ∃ σ', val_dtor shapes example_val example_state2 = Aborted σ' ∧
        blocks σ' !! 1%positive = Some (block.mk 2 Null) ∧
        objs σ' = objs example_state2.
Proof.
  eexists. split.
  - refine (proj2 (proj1 (destructor_aborts_unless_sole_owner shapes example_val
                            example_state2 example_descriptor example_block _ _) _)).
    + vm_compute. reflexivity.
    + vm_compute. reflexivity.
    + simpl. lia.
  - split; reflexivity.
Defined.

(** ** Narrowing *)

Lemma ptr_narrow_unchecked (H : hierarchy) (T U : cls) (src : loc) (σ : state)
    (d : descriptor_t) (blk : block.t) (a : loc) (o : Z) :
  handles σ !! src = Some d →
  blocks σ !! block_ptr d = Some blk →
  block.data blk = Ptr a o →
  ∃ h σ', ptr_narrow H T U src σ = Ok h σ' ∧
    handles σ' !! h = Some (sub_offset d (compute_upcast_offset H T U)) ∧
    objs σ' = objs σ.
Proof.
  intros Hd Hb Hdat. unfold ptr_narrow.
  rewrite (bind_Ok _ _ _ _ _ (ptr_arrow_spec src σ d blk a o Hd Hb Hdat)).
  unfold dynamic_cast at 1. rewrite bind_unfold. rewrite decide_True by done.
  eexists _, _. split.
  - apply (share_tail_spec (λ d1, sub_offset d1 (compute_upcast_offset H T U))
             src _ d blk); done.
  - simpl. split; [apply lookup_insert_eq | done].
Qed.

(** The from-container path does consult the dynamic class. *)
Lemma ptr_narrow_from_val_checked (H : hierarchy) (T U : cls) (v : val) (σ : state)
    (d : descriptor_t) (blk : block.t) (a : loc) (o : Z) (D : cls) (x : list Z) :
  T ≠ U →
  base_disp H T U = None →
  handles σ !! data v = Some d →
  blocks σ !! block_ptr d = Some blk →
  block.data blk = Ptr a o →
  objs σ !! a = Some (Object D x) →
  base_disp H U D = Some (wrap_size (o + upcast_offset d)) →
  match base_disp H T D with
  | Some _ =>
      ∃ h σ', ptr_narrow_from_val H T U v σ = Ok h σ' ∧
        handles σ' !! h = Some (sub_offset d (compute_upcast_offset H T U))
  | None =>
      ∃ σ', ptr_narrow_from_val H T U v σ = Throw rethrow_current σ' ∧
        handles σ' = handles σ ∧ blocks σ' = blocks σ
  end.
Proof.
  intros Hne Hn Hd Hb Hdat Ho Hal. unfold ptr_narrow_from_val, val_arrow.
  rewrite (bind_Ok _ _ _ _ _ (ptr_arrow_spec (data v) σ d blk a o Hd Hb Hdat)).
  rewrite bind_unfold. unfold dynamic_cast. rewrite decide_False by done.
  rewrite Hn. simpl. rewrite Ho, Hal. rewrite decide_True by done.
  destruct (base_disp H T D) as [dT |].
  - simpl. eexists _, _. split.
    + apply (share_tail_spec (λ d1, sub_offset d1 (compute_upcast_offset H T U))
               (data v) _ d blk); done.
    + simpl. apply lookup_insert_eq.
  - simpl. eexists. split; [reflexivity | done].
Qed.

(** For a base [U] of [T] at displacement [disp], subtracting
    [compute_upcast_offset<T, U>()], as both narrowing constructors of [ptr]
    do, moves the offset up by [disp]; adding it, as the narrowing
    constructor of [val] does, moves it down by [disp]. *)
Lemma narrowing_offset_sign (H : hierarchy) (T U : cls) (disp : Z) (d : descriptor_t) :
  base_disp H T U = None →
  base_disp H U T = Some disp →
  upcast_offset (sub_offset d (compute_upcast_offset H T U))
    = wrap_size (upcast_offset d + disp) ∧
  upcast_offset (add_offset d (compute_upcast_offset H T U))
    = wrap_size (upcast_offset d - disp).
Proof.
  intros Hn Hd. simpl. rewrite (compute_upcast_offset_down H T U disp Hn Hd). split.
  - unfold wrap_size. rewrite Zminus_mod_idemp_r. f_equal. lia.
  - rewrite wrap_size_add_r. f_equal.
Qed.

(** C1: the claim fails on the handle-to-handle path.  [a] is a
    [val<Shape>] holding a [Circle] and [p], at location 2, a [ptr<Shape>]
    on it.  A [Circle] is not a [Square]; the explicit [ptr<Square>(a)]
    throws, but the explicit [ptr<Square>(p)] returns a handle that
    dereferences to the [Circle].  And where the check passes, for a
    [val<Named>] holding a [Label], the narrowed [ptr<Label>] dereferences
    16 bytes into the object although its [Label] is at offset 0, where
    [dynamic_cast] finds it: the displacement is added instead of
    subtracted. *)
Theorem narrowing_between_handles_is_unchecked :
  base_disp shapes Square Circle = None ∧
  (∃ σ', ptr_narrow_from_val shapes Square Shape example_val example_state2
           = Throw rethrow_current σ') ∧
  (∃ h σ', ptr_narrow shapes Square Shape 2%positive example_state2 = Ok h σ' ∧
     handles σ' !! h = Some example_descriptor ∧
     objs σ' !! 2%positive = Some (Object Circle [5]) ∧
     value_of (ptr_arrow h σ') = Some (Ptr 2%positive 0)) ∧
  (∃ h σ', ptr_narrow_from_val shapes Label Named named_val named_state = Ok h σ' ∧
     value_of (val_arrow named_val named_state) = Some (Ptr 2%positive 8) ∧
     value_of (dynamic_cast shapes Label Named (Ptr 2%positive 8) named_state)
       = Some (Ptr 2%positive 0) ∧
     value_of (ptr_arrow h σ') = Some (Ptr 2%positive 16)).
Proof.
  split; [reflexivity |].
  split; [eexists; vm_compute; reflexivity |].
  split.
  - eexists _, _. split; [vm_compute; reflexivity |].
    split; [vm_compute; reflexivity |]. split; vm_compute; reflexivity.
  - eexists _, _. split; [vm_compute; reflexivity |].
    split; [vm_compute; reflexivity |]. split; vm_compute; reflexivity.
Qed.

(** ** Exact outcomes of the constructors of a container *)

Lemma val_of_pointer_spec H T n ss U a o σ c :
  objs σ !! ss = Some c →
  val_of_pointer H T n ss U (Ptr a o) σ =
    Ok {| SmallStorageSize := n; small_storage := ss; data := fresh (dom (handles σ)) |}
       (mkState (<[fresh (dom (blocks σ)) := block.mk 1 (Ptr a o)]> (blocks σ))
          (<[ss := RawStorage]> (objs σ))
          (<[fresh (dom (handles σ)) :=
               {| block_ptr := fresh (dom (blocks σ));
                  upcast_offset := compute_upcast_offset H T U; op_ptr := U |}]> (handles σ))
          (trace σ ++ [EvStoreDescriptor (fresh (dom (handles σ)))
                         {| block_ptr := fresh (dom (blocks σ));
                            upcast_offset := compute_upcast_offset H T U; op_ptr := U |};
                       EvFetchAdd (fresh (dom (blocks σ))) 0])).
Proof.
  intros Hss.
  unfold val_of_pointer, small_storage_init, block_new, ptr_of_block, handle_init,
    block_increment, count_fetch_add.
  msimpl. rewrite Hss. msimpl. rewrite lookup_insert_eq. msimpl.
  f_equal. unfold log, set_blocks, set_handles, set_objs; simpl.
  rewrite insert_insert_eq, wrap_intptr_one, <- app_assoc. reflexivity.
Qed.

Lemma val_from_value_spec H T n U v σ copy :
  copy_ctor H U = Some copy →
  let ss := fresh (dom (objs σ)) in
  let a := fresh (dom (<[ss := RawStorage]> (objs σ))) in
  let b := fresh (dom (blocks σ)) in
  let h := fresh (dom (handles σ)) in
  let d := {| block_ptr := b; upcast_offset := compute_upcast_offset H T U; op_ptr := U |} in
  val_from_value H T n U v σ =
    Ok {| SmallStorageSize := n; small_storage := ss; data := h |}
       (mkState (<[b := block.mk 1 (Ptr a 0)]> (blocks σ))
          (<[a := Object U (copy v)]> (<[ss := RawStorage]> (objs σ)))
          (<[h := d]> (handles σ))
          (trace σ ++ [EvStoreDescriptor h d; EvFetchAdd b 0])).
Proof.
  intros Hc ss a b h d.
  unfold val_from_value, val_storage, construct_copy, emit_heap_warning2, new_object.
  rewrite Hc. msimpl.
  erewrite val_of_pointer_spec;
    [| simpl; rewrite lookup_insert_ne by apply fresh_insert_ne; apply lookup_insert_eq].
  simpl. f_equal. f_equal.
  fold ss. fold a.
  apply insert_id. rewrite lookup_insert_ne by apply fresh_insert_ne.
  apply lookup_insert_eq.
Qed.

Lemma val_from_rvalue_spec H T n U v σ move :
  move_ctor H U = Some move →
  let ss := fresh (dom (objs σ)) in
  let a := fresh (dom (<[ss := RawStorage]> (objs σ))) in
  let b := fresh (dom (blocks σ)) in
  let h := fresh (dom (handles σ)) in
  let d := {| block_ptr := b; upcast_offset := compute_upcast_offset H T U; op_ptr := U |} in
  val_from_rvalue H T n U v σ =
    Ok {| SmallStorageSize := n; small_storage := ss; data := h |}
       (mkState (<[b := block.mk 1 (Ptr a 0)]> (blocks σ))
          (<[a := Object U (move v)]> (<[ss := RawStorage]> (objs σ)))
          (<[h := d]> (handles σ))
          (trace σ ++ [EvStoreDescriptor h d; EvFetchAdd b 0])).
Proof.
  intros Hc ss a b h d.
  unfold val_from_rvalue, val_storage, construct_move, emit_heap_warning2, new_object.
  rewrite Hc. msimpl.
  erewrite val_of_pointer_spec;
    [| simpl; rewrite lookup_insert_ne by apply fresh_insert_ne; apply lookup_insert_eq].
  simpl. f_equal. f_equal.
  fold ss. fold a.
  apply insert_id. rewrite lookup_insert_ne by apply fresh_insert_ne.
  apply lookup_insert_eq.
Qed.

(** ** Reading back what was stored *)

Lemma val_read_inv v σ D x :
  value_of (val_read v σ) = Some (D, x) →
  ∃ d blk a o,
    handles σ !! data v = Some d ∧
    blocks σ !! block_ptr d = Some blk ∧
    block.data blk = Ptr a o ∧
    objs σ !! a = Some (Object D x).
Proof.
  unfold val_read, val_arrow, ptr_arrow, get_descriptor, data_load, read_object.
  msimpl. destruct (handles σ !! data v) as [d |] eqn:Hd; [| done]. msimpl.
  destruct (blocks σ !! block_ptr d) as [blk |] eqn:Hb; [| done]. msimpl.
  destruct (block.data blk) as [| a o] eqn:Hdat; [done |]. msimpl.
  destruct (objs σ !! a) as [[D' x' |] |] eqn:Ho; try done.
  simpl. intros [= -> ->]. by exists d, blk, a, o.
Qed.

Lemma ptr_arrow_inv h σ p :
  value_of (ptr_arrow h σ) = Some p →
  ∃ d blk a o,
    handles σ !! h = Some d ∧
    blocks σ !! block_ptr d = Some blk ∧
    block.data blk = Ptr a o ∧
    p = Ptr a (wrap_size (o + upcast_offset d)).
Proof.
  unfold ptr_arrow, get_descriptor, data_load.
  msimpl. destruct (handles σ !! h) as [d |] eqn:Hd; [| done]. msimpl.
  destruct (blocks σ !! block_ptr d) as [blk |] eqn:Hb; [| done]. msimpl.
  destruct (block.data blk) as [| a o] eqn:Hdat; [done |]. msimpl.
  intros [= <-]. by exists d, blk, a, o.
Qed.

Lemma extends_read σ σ' v r :
  extends σ σ' →
  value_of (val_read v σ) = Some r → value_of (val_read v σ') = Some r.
Proof.
  intros (Hh & Hb & Ho) Hr. destruct r as [D x].
  apply val_read_inv in Hr as (d & blk & a & o & Hd & Hblk & Hdat & Ha).
  eapply val_read_spec; [| | exact Hdat |].
  - eapply lookup_weaken; eassumption.
  - eapply lookup_weaken; eassumption.
  - eapply lookup_weaken; eassumption.
Qed.

Lemma extends_arrow σ σ' h p :
  extends σ σ' →
  value_of (ptr_arrow h σ) = Some p → value_of (ptr_arrow h σ') = Some p.
Proof.
  intros (Hh & Hb & Ho) Hr.
  apply ptr_arrow_inv in Hr as (d & blk & a & o & Hd & Hblk & Hdat & ->).
  erewrite ptr_arrow_spec; [done | | | exact Hdat].
  - eapply lookup_weaken; eassumption.
  - eapply lookup_weaken; eassumption.
Qed.

Lemma extends_fresh σ bs os hs tr b blk a c h d ss :
  let os1 := <[ss := RawStorage]> (objs σ) in
  ss = fresh (dom (objs σ)) →
  a = fresh (dom os1) →
  b = fresh (dom (blocks σ)) →
  h = fresh (dom (handles σ)) →
  bs = <[b := blk]> (blocks σ) →
  os = <[a := c]> os1 →
  hs = <[h := d]> (handles σ) →
  extends σ (mkState bs os hs tr).
Proof.
  intros os1 -> -> -> -> -> -> ->. repeat split; simpl.
  - apply insert_subseteq, fresh_handle_unallocated.
  - apply insert_subseteq, fresh_block_unallocated.
  - etrans; [apply insert_subseteq, fresh_object_unallocated |].
    apply insert_subseteq. unfold os1.
    rewrite lookup_insert_ne by (symmetry; apply fresh_insert_ne).
    apply fresh_insert_None.
Qed.

(** X1: a container built from a value of a class [U] that has [T] as a
    base at displacement [disp], by copy or by move, reads back the value the
    constructor of [U] made of the argument, as a [U]; it dereferences to
    the [T] sub-object of that new object, [disp] bytes into it; and every
    handle, block and object that existed before is still there, unchanged,
    so that what other containers and handles read is what they read
    before. *)
Theorem construct_then_read (H : hierarchy) (T U : cls) (n disp : Z) (v : list Z)
    (σ : state) :
  base_disp H T U = Some disp →
  let ss := fresh (dom (objs σ)) in
  let a := fresh (dom (<[ss := RawStorage]> (objs σ))) in
  let built (m : M val) (x : list Z) : Prop :=
    ∃ w σ', m σ = Ok w σ' ∧
      value_of (val_read w σ') = Some (U, x) ∧
      value_of (val_arrow w σ') = Some (Ptr a (wrap_size disp)) ∧
      objs σ !! a = None ∧
      objs σ' !! a = Some (Object U x) ∧
      extends σ σ' ∧
      (∀ v0 r, value_of (val_read v0 σ) = Some r → value_of (val_read v0 σ') = Some r) ∧
      (∀ h p, value_of (ptr_arrow h σ) = Some p → value_of (ptr_arrow h σ') = Some p) in
  (∀ copy, copy_ctor H U = Some copy → built (val_from_value H T n U v) (copy v)) ∧
  (∀ move, move_ctor H U = Some move → built (val_from_rvalue H T n U v) (move v)).
Proof.
  intros Hdisp ss a built.
  assert (Hoff : wrap_size (0 + compute_upcast_offset H T U) = wrap_size disp).
  { rewrite (compute_upcast_offset_up H T U disp Hdisp), wrap_size_add_r. f_equal. }
  assert (Hbuilt : ∀ m x tr,
    m σ = Ok {| SmallStorageSize := n; small_storage := ss; data := fresh (dom (handles σ)) |}
            (mkState (<[fresh (dom (blocks σ)) := block.mk 1 (Ptr a 0)]> (blocks σ))
               (<[a := Object U x]> (<[ss := RawStorage]> (objs σ)))
               (<[fresh (dom (handles σ)) :=
                    {| block_ptr := fresh (dom (blocks σ));
                       upcast_offset := compute_upcast_offset H T U; op_ptr := U |}]>
                  (handles σ)) tr) →
    built m x).
  { intros m x tr Hm. eexists _, _. split; [exact Hm |].
    assert (He : extends σ (mkState (<[fresh (dom (blocks σ)) := block.mk 1 (Ptr a 0)]> (blocks σ))
               (<[a := Object U x]> (<[ss := RawStorage]> (objs σ)))
               (<[fresh (dom (handles σ)) :=
                    {| block_ptr := fresh (dom (blocks σ));
                       upcast_offset := compute_upcast_offset H T U; op_ptr := U |}]>
                  (handles σ)) tr)) by (by eapply extends_fresh).
    split.
    { eapply val_read_spec; simpl; [apply lookup_insert_eq | apply lookup_insert_eq | done |].
      apply lookup_insert_eq. }
    split.
    { unfold val_arrow. erewrite ptr_arrow_spec; simpl;
        [| apply lookup_insert_eq | apply lookup_insert_eq | done].
      simpl. by rewrite Hoff. }
    split; [apply fresh_insert_None |].
    split; [simpl; apply lookup_insert_eq |].
    split; [exact He |].
    split; [intros v0 r; by apply extends_read | intros h p; by apply extends_arrow]. }
  split.
  - intros copy Hc. eapply Hbuilt. apply (val_from_value_spec H T n U v σ copy Hc).
  - intros move Hc. eapply Hbuilt. apply (val_from_rvalue_spec H T n U v σ move Hc).
Qed.

Lemma construct_then_read_witness :
  ∃ w σ', val_from_value shapes Named 24 Label [1; 2] empty_state = Ok w σ' ∧
    value_of (val_read w σ') = Some (Label, [1; 2]) ∧
    value_of (val_arrow w σ') = Some (Ptr 2%positive 8).
Proof.
  destruct (proj1 (construct_then_read shapes Named Label 24 8 [1; 2] empty_state eq_refl)
              id eq_refl) as (w & σ' & Hr & Hv & Ha & _).
  exists w, σ'. split; [exact Hr |]. split; [exact Hv | exact Ha].
Defined.

(** ** The life of a container *)

Lemma val_from_pointer_spec T n a o σ :
  let ss := fresh (dom (objs σ)) in
  let b := fresh (dom (blocks σ)) in
  let h := fresh (dom (handles σ)) in
  let d := {| block_ptr := b; upcast_offset := 0; op_ptr := T |} in
  val_from_pointer T n (Ptr a o) σ =
    Ok {| SmallStorageSize := n; small_storage := ss; data := h |}
       (mkState (<[b := block.mk 1 (Ptr a o)]> (blocks σ))
          (<[ss := RawStorage]> (objs σ))
          (<[h := d]> (handles σ))
          (trace σ ++ [EvStoreDescriptor h d; EvFetchAdd b 0])).
Proof.
  intros ss b h d.
  unfold val_from_pointer, val_storage, small_storage_init, block_new, ptr_of_block,
    handle_init, block_increment, count_fetch_add.
  msimpl. rewrite lookup_insert_eq. msimpl. rewrite lookup_insert_eq. msimpl.
  f_equal. unfold log, set_blocks, set_handles, set_objs; simpl.
  rewrite !insert_insert_eq, wrap_intptr_one, <- app_assoc. reflexivity.
Qed.

Lemma val_from_pointer_null T n σ :
  val_from_pointer T n Null σ =
    Throw invalid_argument
      (mkState (blocks σ) (<[fresh (dom (objs σ)) := RawStorage]> (objs σ)) (handles σ)
         (trace σ)).
Proof.
  unfold val_from_pointer, val_storage, small_storage_init, block_new.
  msimpl. rewrite lookup_insert_eq. msimpl.
  unfold throw, set_objs. simpl. by rewrite insert_insert_eq.
Qed.

(** [~val()] of a sole owner whose value is on the heap. *)
Lemma val_dtor_heap_spec H v σ d blk a o D x :
  handles σ !! data v = Some d →
  blocks σ !! block_ptr d = Some blk →
  block.count blk = 1 →
  block.data blk = Ptr a o →
  Ptr a o ≠ Ptr (small_storage v) 0 →
  objs σ !! a = Some (Object D x) →
  val_dtor H v σ =
    Ok tt
       (mkState (delete (block_ptr d) (blocks σ)) (delete a (objs σ))
          (delete (data v) (handles σ))
          (trace σ ++ [EvLock (data v); EvUnlock (data v);
                       EvDataExchange (block_ptr d) (Ptr a o) Null;
                       EvOp (op_ptr d) DELETE (Ptr a o) Null;
                       EvLock (data v); EvUnlock (data v);
                       EvFetchSub (block_ptr d) 1; EvDeleteBlock (block_ptr d)])).
Proof.
  intros Hd Hb Hc Hdat Hne Ho.
  unfold val_dtor, val_dtor_body, get_descriptor, data_exchange, count_load.
  msimpl. rewrite Hd. msimpl. rewrite Hb. msimpl. rewrite lookup_insert_eq. msimpl.
  rewrite Hc. rewrite decide_False by (intros ?; done).
  rewrite Hdat, decide_False by done.
  unfold delete_, op, emit, delete_object. msimpl. rewrite Ho. msimpl.
  erewrite ptr_dtor_spec; [| simpl; exact Hd | simpl; apply lookup_insert_eq].
  f_equal. unfold drop. simpl. rewrite delete_insert_eq. state_done.
Qed.

(** X2: [val<T>(T * )] adopts the object it is given.  For a null pointer
    it throws [invalid_argument] and leaves no handle and no block behind.
    For a pointer to a live object it allocates and copies no object: the
    container dereferences to the very address it was given and reads the
    object there, with the dispatcher of [T] and offset zero; and, the
    object being a [T], destroying the container deletes it and gives back
    the block and the handle. *)
Theorem adopted_pointer_is_owned (H : hierarchy) (T : cls) (n : Z) (σ : state) :
  (∃ σ', val_from_pointer T n Null σ = Throw invalid_argument σ' ∧
     handles σ' = handles σ ∧ blocks σ' = blocks σ) ∧
  (∀ a o D x,
     objs σ !! a = Some (Object D x) →
     0 ≤ o < 2 ^ size_bits →
     ∃ w σ', val_from_pointer T n (Ptr a o) σ = Ok w σ' ∧
       objs σ' = <[small_storage w := RawStorage]> (objs σ) ∧
       objs σ !! small_storage w = None ∧
       handles σ' !! data w
         = Some {| block_ptr := fresh (dom (blocks σ)); upcast_offset := 0; op_ptr := T |} ∧
       value_of (val_arrow w σ') = Some (Ptr a o) ∧
       value_of (val_read w σ') = Some (D, x) ∧
       (D = T →
        ∃ σ'', val_dtor H w σ' = Ok tt σ'' ∧
          objs σ'' !! a = None ∧
          blocks σ'' = blocks σ ∧ handles σ'' = handles σ)).
Proof.
  split.
  - rewrite val_from_pointer_null. eexists. split; [reflexivity | done].
  - intros a o D x Ho Hrange.
    pose proof (fresh_object_unallocated σ) as Hss.
    assert (Hne : a ≠ fresh (dom (objs σ))) by (intros ->; congruence).
    eexists _, _. split; [apply val_from_pointer_spec |]. simpl.
    split; [done |]. split; [done |].
    split; [apply lookup_insert_eq |].
    split.
    { unfold val_arrow. erewrite ptr_arrow_spec; simpl;
        [| apply lookup_insert_eq | apply lookup_insert_eq | done].
      simpl. unfold wrap_size. rewrite Z.add_0_r, Z.mod_small by done. done. }
    split.
    { eapply val_read_spec; simpl; [apply lookup_insert_eq | apply lookup_insert_eq | done |].
      by rewrite lookup_insert_ne. }
    intros _. eexists. split.
    { eapply (val_dtor_heap_spec H); simpl.
      - apply lookup_insert_eq.
      - apply lookup_insert_eq.
      - done.
      - done.
      - congruence.
      - by rewrite lookup_insert_ne. }
    simpl. split; [apply lookup_delete_eq |].
    split; [apply delete_insert_id, fresh_block_unallocated
           | apply delete_insert_id, fresh_handle_unallocated].
Qed.

Lemma adopted_pointer_is_owned_witness :
  ∃ w σ', val_from_pointer Shape 16 (Ptr 2%positive 0) example_state = Ok w σ' ∧
    value_of (val_arrow w σ') = Some (Ptr 2%positive 0).
Proof.
  destruct (proj2 (adopted_pointer_is_owned shapes Shape 16 example_state)
              2%positive 0 Circle [5]) as (w & σ' & Hr & _ & _ & _ & Ha & _).
  - vm_compute. reflexivity.
  - split; [lia | reflexivity].
  - exists w, σ'. split; [exact Hr | exact Ha].
Defined.



(** ** Exact outcomes of the cloning constructors *)

Lemma get_size_of_data_spec H h σ d :
  handles σ !! h = Some d →
  get_size_of_data H h σ =
    Ok (wrap_size (sizeof H (op_ptr d)))
       (log [EvLock h; EvUnlock h; EvOp (op_ptr d) SIZE Null Null] σ).
Proof.
  intros Hd. unfold get_size_of_data, get_descriptor, size, op, emit.
  msimpl. rewrite Hd. msimpl. f_equal. state_done.
Qed.

Lemma ptr_clone_heap_spec H T h off σ d blk a o D x copy :
  handles σ !! h = Some d →
  blocks σ !! block_ptr d = Some blk →
  block.data blk = Ptr a o →
  objs σ !! a = Some (Object D x) →
  copy_ctor H (op_ptr d) = Some copy →
  ptr_clone H T h off Null σ =
    Ok {| block_ptr := fresh (dom (blocks σ));
          upcast_offset := wrap_size (upcast_offset d + off);
          op_ptr := op_ptr d |}
       (mkState
          (<[fresh (dom (blocks σ)) := block.mk 0 (Ptr (fresh (dom (objs σ))) 0)]> (blocks σ))
          (<[fresh (dom (objs σ)) := Object (op_ptr d) (copy x)]> (objs σ))
          (handles σ)
          (trace σ ++ [EvLock h; EvUnlock h; EvOp (op_ptr d) TYPE Null Null;
                       EvDataLoad (block_ptr d) (Ptr a o);
                       EvOp (op_ptr d) CLONE (Ptr a o) Null])).
Proof.
  intros Hd Hb Hdat Ho Hc.
  unfold ptr_clone, get_descriptor, type, emit_heap_warning, data_load, clone, op, emit,
    clone_impl, read_object, new_object, block_new.
  msimpl. rewrite Hd. msimpl. rewrite Hb. msimpl. rewrite Hdat, Hc. msimpl.
  rewrite Ho. msimpl. f_equal. state_done.
Qed.

Lemma ptr_of_descriptor_spec d σ blk :
  blocks σ !! block_ptr d = Some blk →
  ptr_of_descriptor d σ =
    Ok (fresh (dom (handles σ)))
       (mkState (bump (block_ptr d) blk (blocks σ)) (objs σ)
          (<[fresh (dom (handles σ)) := d]> (handles σ))
          (trace σ ++ [EvStoreDescriptor (fresh (dom (handles σ))) d;
                       EvFetchAdd (block_ptr d) (block.count blk)])).
Proof.
  intros Hb. unfold ptr_of_descriptor, handle_init, block_increment, count_fetch_add.
  msimpl. rewrite Hb. msimpl. f_equal. state_done.
Qed.

(** The converting constructor of a container, of which the copy
    constructor is the instance with no offset. *)
Lemma val_convert_spec H T n U v σ d blk a o D x copy :
  handles σ !! data v = Some d →
  blocks σ !! block_ptr d = Some blk →
  block.data blk = Ptr a o →
  objs σ !! a = Some (Object D x) →
  copy_ctor H (op_ptr d) = Some copy →
  let ss := fresh (dom (objs σ)) in
  let a' := fresh (dom (<[ss := RawStorage]> (objs σ))) in
  let b' := fresh (dom (blocks σ)) in
  let h' := fresh (dom (handles σ)) in
  ∃ tr,
    val_convert H T n U v σ =
      Ok {| SmallStorageSize := n; small_storage := ss; data := h' |}
         (mkState (<[b' := block.mk 1 (Ptr a' 0)]> (blocks σ))
            (<[a' := Object (op_ptr d) (copy x)]> (<[ss := RawStorage]> (objs σ)))
            (<[h' := {| block_ptr := b';
                        upcast_offset :=
                          wrap_size (upcast_offset d + compute_upcast_offset H T U);
                        op_ptr := op_ptr d |}]> (handles σ))
            tr).
Proof.
  intros Hd Hb Hdat Ho Hc ss a' b' h'.
  assert (Hass : a ≠ ss).
  { intros ->. pose proof (fresh_object_unallocated σ). unfold ss in Ho. congruence. }
  unfold val_convert, val_storage, small_storage_init.
  msimpl. rewrite lookup_insert_eq. msimpl.
  rewrite (get_size_of_data_spec H (data v) _ d) by exact Hd. msimpl.
  erewrite (ptr_clone_heap_spec H U (data v)); simpl;
    [| exact Hd | exact Hb | exact Hdat
     | rewrite insert_insert_eq, lookup_insert_ne by done; exact Ho | exact Hc].
  msimpl.
  erewrite ptr_of_descriptor_spec by (simpl; apply lookup_insert_eq).
  simpl. eexists. unfold bump. simpl.
  rewrite !insert_insert_eq, wrap_intptr_one. reflexivity.
Qed.

Lemma val_copy_spec H T v σ d blk a o D x copy :
  handles σ !! data v = Some d →
  blocks σ !! block_ptr d = Some blk →
  block.data blk = Ptr a o →
  objs σ !! a = Some (Object D x) →
  copy_ctor H (op_ptr d) = Some copy →
  let ss := fresh (dom (objs σ)) in
  let a' := fresh (dom (<[ss := RawStorage]> (objs σ))) in
  let b' := fresh (dom (blocks σ)) in
  let h' := fresh (dom (handles σ)) in
  ∃ tr,
    val_copy H T v σ =
      Ok {| SmallStorageSize := SmallStorageSize v; small_storage := ss; data := h' |}
         (mkState (<[b' := block.mk 1 (Ptr a' 0)]> (blocks σ))
            (<[a' := Object (op_ptr d) (copy x)]> (<[ss := RawStorage]> (objs σ)))
            (<[h' := {| block_ptr := b';
                        upcast_offset := wrap_size (upcast_offset d + 0);
                        op_ptr := op_ptr d |}]> (handles σ))
            tr).
Proof.
  intros Hd Hb Hdat Ho Hc ss a' b' h'.
  assert (Hass : a ≠ ss).
  { intros ->. pose proof (fresh_object_unallocated σ). unfold ss in Ho. congruence. }
  unfold val_copy, val_storage, small_storage_init.
  msimpl. rewrite lookup_insert_eq. msimpl.
  erewrite (ptr_clone_heap_spec H T (data v)); simpl;
    [| exact Hd | exact Hb | exact Hdat
     | rewrite insert_insert_eq, lookup_insert_ne by done; exact Ho | exact Hc].
  msimpl.
  erewrite ptr_of_descriptor_spec by (simpl; apply lookup_insert_eq).
  simpl. eexists. unfold bump. simpl.
  rewrite !insert_insert_eq, wrap_intptr_one. reflexivity.
Qed.

(** C8: [emplacement_ptr] returns null whatever the buffer size and the
    data size are.  So every constructor that stores a value of its own
    returns with the value in storage that [new] has just allocated and
    with the container's inline buffer raw: the constructors from a value
    and from an rvalue whenever the class has the constructor they call,
    and the copy and the converting constructors whenever the source is
    live and its stored class can be copied.  And whenever such a
    constructor returns at all, that is where the value is. *)
Theorem storage_is_always_heap (H : hierarchy) :
  (∀ n ss dataSize, emplacement_ptr n ss dataSize = Null) ∧
  (∀ c σ w σ', run_ctor H c σ = Ok w σ' →
     objs σ' !! small_storage w = Some RawStorage ∧
     ∃ d blk a D v,
       handles σ' !! data w = Some d ∧
       blocks σ' !! block_ptr d = Some blk ∧
       block.data blk = Ptr a 0 ∧
       a ≠ small_storage w ∧
       objs σ !! a = None ∧
       objs σ' !! a = Some (Object D v)) ∧
  (∀ T n U v σ copy, copy_ctor H U = Some copy →
     stored_on_heap H (FromValue T n U v) U (copy v) σ) ∧
  (∀ T n U v σ move, move_ctor H U = Some move →
     stored_on_heap H (FromRvalue T n U v) U (move v) σ) ∧
  (∀ other σ d blk a o D x copy,
     handles σ !! data other = Some d →
     blocks σ !! block_ptr d = Some blk →
     block.data blk = Ptr a o →
     objs σ !! a = Some (Object D x) →
     copy_ctor H (op_ptr d) = Some copy →
     (∀ T, stored_on_heap H (CopyOf T other) (op_ptr d) (copy x) σ) ∧
     (∀ T n U, stored_on_heap H (ConvertOf T n U other) (op_ptr d) (copy x) σ)).
Proof.
  split; [reflexivity |].
  split.
  {   intros c σ w σ' Hr. destruct c as [T n U v | T n U v | T other | T n U other]; simpl in Hr.
    - unfold val_from_value, construct_copy, emit_heap_warning2 in Hr.
      simpl in Hr. destruct (copy_ctor H U) as [copy|]; inv_all.
      simpl in *.
      match goal with Hv : val_of_pointer _ _ _ _ _ _ _ = Ok _ _ |- _ =>
        eapply val_of_value_heap in Hv as (Hs & Ho & d & blk & Hd & Hb & Hdat) end;
        [| exact Null | simpl; rewrite lookup_insert_ne by apply fresh_insert_ne; apply lookup_insert_eq
         | simpl; apply lookup_insert_eq | apply fresh_insert_ne ].
      simpl in Ho. rewrite Hs, Ho.
      split; [rewrite lookup_insert_ne by apply fresh_insert_ne; apply lookup_insert_eq |].
      eexists d, blk, _, U, (copy v). repeat split; try eassumption.
      + apply fresh_insert_ne.
      + apply fresh_insert_None.
      + apply lookup_insert_eq.
    - unfold val_from_rvalue, construct_move, emit_heap_warning2 in Hr.
      simpl in Hr. destruct (move_ctor H U) as [move|]; inv_all.
      simpl in *.
      match goal with Hv : val_of_pointer _ _ _ _ _ _ _ = Ok _ _ |- _ =>
        eapply val_of_value_heap in Hv as (Hs & Ho & d & blk & Hd & Hb & Hdat) end;
        [| exact Null | simpl; rewrite lookup_insert_ne by apply fresh_insert_ne; apply lookup_insert_eq
         | simpl; apply lookup_insert_eq | apply fresh_insert_ne ].
      simpl in Ho. rewrite Hs, Ho.
      split; [rewrite lookup_insert_ne by apply fresh_insert_ne; apply lookup_insert_eq |].
      eexists d, blk, _, U, (move v). repeat split; try eassumption.
      + apply fresh_insert_ne.
      + apply fresh_insert_None.
      + apply lookup_insert_eq.
    - unfold val_copy in Hr. simpl in Hr. inv_all.
      match goal with Hc : ptr_clone _ _ _ _ _ _ = Ok _ _ |- _ =>
        apply ptr_clone_heap_inv in Hc;
        destruct Hc as (d0 & blk0 & copy & D & v & a & o & Hh0 & Hb0 & Hdat0 & Ha & Hcp & -> & Ho & Hb & Hh) end.
      inv_handle_ctor. subst. simpl in *. clone_ctor_done.
    - unfold val_convert, get_size_of_data in Hr. simpl in Hr. inv_all.
      match goal with Hc : size _ _ _ = Ok _ _ |- _ => apply size_inv in Hc as [-> ->] end.
      match goal with Hc : ptr_clone _ _ _ _ _ _ = Ok _ _ |- _ =>
        apply ptr_clone_heap_inv in Hc;
        destruct Hc as (d0 & blk0 & copy & D & v & a & o & Hh0 & Hb0 & Hdat0 & Ha & Hcp & -> & Ho & Hb & Hh) end.
      inv_handle_ctor. subst. simpl in *. clone_ctor_done. }
  assert (Hdone : ∀ c D x σ n ss h b d tr,
    ss = fresh (dom (objs σ)) →
    h = fresh (dom (handles σ)) →
    b = fresh (dom (blocks σ)) →
    block_ptr d = b →
    run_ctor H c σ =
      Ok {| SmallStorageSize := n; small_storage := ss; data := h |}
         (mkState
            (<[b := block.mk 1 (Ptr (fresh (dom (<[ss := RawStorage]> (objs σ)))) 0)]>
               (blocks σ))
            (<[fresh (dom (<[ss := RawStorage]> (objs σ))) := Object D x]>
               (<[ss := RawStorage]> (objs σ)))
            (<[h := d]> (handles σ)) tr) →
    stored_on_heap H c D x σ).
  { intros c D x σ n ss h b d tr -> -> -> Hbp Hr.
    eexists _, _, d, _. split; [exact Hr |]. simpl.
    split; [rewrite lookup_insert_ne by apply fresh_insert_ne; apply lookup_insert_eq |].
    split; [apply lookup_insert_eq |].
    split; [rewrite Hbp; apply lookup_insert_eq |].
    split; [apply fresh_insert_ne |].
    split; [apply fresh_insert_None | apply lookup_insert_eq]. }
  split.
  { intros T n U v σ copy Hc. eapply Hdone; [done | done | done | |];
      [| apply (val_from_value_spec H T n U v σ copy Hc)]. done. }
  split.
  { intros T n U v σ move Hc. eapply Hdone; [done | done | done | |];
      [| apply (val_from_rvalue_spec H T n U v σ move Hc)]. done. }
  intros other σ d blk a o D x copy Hd Hb Hdat Ho Hc. split.
  - intros T.
    destruct (val_copy_spec H T other σ d blk a o D x copy Hd Hb Hdat Ho Hc) as [tr Hr].
    eapply Hdone; [done | done | done | | exact Hr]. done.
  - intros T n U.
    destruct (val_convert_spec H T n U other σ d blk a o D x copy Hd Hb Hdat Ho Hc)
      as [tr Hr].
    eapply Hdone; [done | done | done | | exact Hr]. done.
Qed.

Lemma storage_is_always_heap_witness :
  stored_on_heap shapes (FromValue Shape 16 Circle [5]) Circle [5] empty_state ∧
  stored_on_heap shapes (FromRvalue Shape 16 Unique [7]) Unique [7] example_state ∧
  stored_on_heap shapes (CopyOf Shape example_val) Circle [5] example_state ∧
  stored_on_heap shapes (ConvertOf Shape 4 Circle example_val) Circle [5] example_state.
Proof.
  split; [| split; [| split]].
  - refine (proj1 (proj2 (proj2 (storage_is_always_heap shapes)))
              Shape 16 Circle [5] empty_state id _).
    reflexivity.
  - refine (proj1 (proj2 (proj2 (proj2 (storage_is_always_heap shapes))))
              Shape 16 Unique [7] example_state id _).
    reflexivity.
  - refine (proj1 (proj2 (proj2 (proj2 (proj2 (storage_is_always_heap shapes))))
                     example_val example_state
                     {| block_ptr := 1%positive; upcast_offset := 0; op_ptr := Circle |}
                     (block.mk 1 (Ptr 2%positive 0)) 2%positive 0 Circle [5] id
                     _ _ _ _ _) Shape).
    + vm_compute. reflexivity.
    + vm_compute. reflexivity.
    + reflexivity.
    + vm_compute. reflexivity.
    + reflexivity.
  - refine (proj2 (proj2 (proj2 (proj2 (proj2 (storage_is_always_heap shapes))))
                     example_val example_state
                     {| block_ptr := 1%positive; upcast_offset := 0; op_ptr := Circle |}
                     (block.mk 1 (Ptr 2%positive 0)) 2%positive 0 Circle [5] id
                     _ _ _ _ _) Shape 4 Circle).
    + vm_compute. reflexivity.
    + vm_compute. reflexivity.
    + reflexivity.
    + vm_compute. reflexivity.
    + reflexivity.
Defined.

(** ** Temporaries, and what the dispatcher reports *)

(** X4: a copy of a live container that is destroyed again, as a by-value
    parameter is, leaves nothing behind: the copy is made and destroyed
    without an abort, the handles and the blocks end as they began, the
    cloned object is gone, and the source reads what it read. *)
Theorem copy_then_destroy (H : hierarchy) (T : cls) (v : val) (σ : state)
    (d : descriptor_t) (blk : block.t) (a : loc) (o : Z) (D : cls) (x : list Z)
    (copy : list Z → list Z) :
  handles σ !! data v = Some d →
  blocks σ !! block_ptr d = Some blk →
  block.data blk = Ptr a o →
  objs σ !! a = Some (Object D x) →
  copy_ctor H (op_ptr d) = Some copy →
  ∃ w σ1 σ2,
    val_copy H T v σ = Ok w σ1 ∧
    val_dtor H w σ1 = Ok tt σ2 ∧
    handles σ2 = handles σ ∧
    blocks σ2 = blocks σ ∧
    objs σ2 = <[small_storage w := RawStorage]> (objs σ) ∧
    objs σ !! small_storage w = None ∧
    value_of (val_read v σ2) = Some (D, x).
Proof.
  intros Hd Hb Hdat Ho Hc.
  destruct (val_copy_spec H T v σ d blk a o D x copy Hd Hb Hdat Ho Hc) as [tr Hr].
  simpl in Hr.
  eexists _, _, _. split; [exact Hr |].
  split.
  { eapply (val_dtor_heap_spec H); simpl.
    - apply lookup_insert_eq.
    - apply lookup_insert_eq.
    - done.
    - done.
    - intros [= E]. by apply fresh_insert_ne in E.
    - apply lookup_insert_eq. }
  simpl.
  assert (Hh : delete (fresh (dom (handles σ)))
                 (<[fresh (dom (handles σ)) :=
                      {| block_ptr := fresh (dom (blocks σ));
                         upcast_offset := wrap_size (upcast_offset d + 0);
                         op_ptr := op_ptr d |}]> (handles σ)) = handles σ)
    by apply delete_insert_id, fresh_handle_unallocated.
  assert (Hbl : delete (fresh (dom (blocks σ)))
                  (<[fresh (dom (blocks σ)) :=
                       block.mk 1 (Ptr (fresh (dom (<[fresh (dom (objs σ)) := RawStorage]>
                                                      (objs σ)))) 0)]> (blocks σ))
                = blocks σ)
    by apply delete_insert_id, fresh_block_unallocated.
  assert (Hobj : delete (fresh (dom (<[fresh (dom (objs σ)) := RawStorage]> (objs σ))))
                   (<[fresh (dom (<[fresh (dom (objs σ)) := RawStorage]> (objs σ))) :=
                        Object (op_ptr d) (copy x)]>
                      (<[fresh (dom (objs σ)) := RawStorage]> (objs σ)))
                 = <[fresh (dom (objs σ)) := RawStorage]> (objs σ))
    by apply delete_insert_id, not_elem_of_dom, is_fresh.
  rewrite Hh, Hbl, Hobj.
  split; [done |]. split; [done |]. split; [done |].
  split; [apply fresh_object_unallocated |].
  eapply val_read_spec; simpl; [exact Hd | exact Hb | exact Hdat |].
  rewrite lookup_insert_ne; [done |].
  intros <-. pose proof (fresh_object_unallocated σ). congruence.
Qed.

Lemma copy_then_destroy_witness :
  ∃ w σ1 σ2,
    val_copy shapes Shape example_val example_state = Ok w σ1 ∧
    val_dtor shapes w σ1 = Ok tt σ2 ∧
    handles σ2 = handles example_state ∧
    blocks σ2 = blocks example_state.
Proof.
  destruct (copy_then_destroy shapes Shape example_val example_state
              {| block_ptr := 1%positive; upcast_offset := 0; op_ptr := Circle |}
              (block.mk 1 (Ptr 2%positive 0)) 2%positive 0 Circle [5] id)
    as (w & σ1 & σ2 & Hr1 & Hr2 & Hh & Hb & _).
  - vm_compute. reflexivity.
  - vm_compute. reflexivity.
  - reflexivity.
  - vm_compute. reflexivity.
  - reflexivity.
  - exists w, σ1, σ2. split; [exact Hr1 |]. split; [exact Hr2 |]. split; [exact Hh | exact Hb].
Defined.

(** X5: the dispatcher travels with the value.  A container of type [T]
    built from a value of a class [U] reports the size of [U], not of [T];
    and so does every handle taken from it, every copy of it and every
    container converted from it, whose own value is again a [U]. *)
Theorem size_is_of_stored_type (H : hierarchy) (T U : cls) (n : Z) (v : list Z)
    (σ σ1 : state) (w : val) :
  val_from_value H T n U v σ = Ok w σ1 →
  let reports (h : loc) (σ' : state) : Prop :=
    value_of (get_size_of_data H h σ') = Some (wrap_size (sizeof H U)) in
  reports (data w) σ1 ∧
  (∀ T' U' h σ2, ptr_from_val H T' U' w σ1 = Ok h σ2 → reports h σ2) ∧
  (∀ T' w2 σ2, val_copy H T' w σ1 = Ok w2 σ2 →
     reports (data w2) σ2 ∧ ∃ x, value_of (val_read w2 σ2) = Some (U, x)) ∧
  (∀ T' m U' w2 σ2, val_convert H T' m U' w σ1 = Ok w2 σ2 →
     reports (data w2) σ2 ∧ ∃ x, value_of (val_read w2 σ2) = Some (U, x)).
Proof.
  intros Hr reports.
  destruct (copy_ctor H U) as [copy |] eqn:Hc; cycle 1.
  { unfold val_from_value, val_storage, construct_copy, emit_heap_warning2 in Hr.
    rewrite Hc in Hr. simpl in Hr. inv_all. }
  rewrite (val_from_value_spec H T n U v σ copy Hc) in Hr.
  injection Hr as <- <-.
  set (d := {| block_ptr := fresh (dom (blocks σ));
               upcast_offset := compute_upcast_offset H T U; op_ptr := U |}).
  set (ss := fresh (dom (objs σ))).
  set (a := fresh (dom (<[ss := RawStorage]> (objs σ)))).
  match goal with |- reports _ ?s ∧ _ => set (σ1 := s) end.
  set (w := {| SmallStorageSize := n; small_storage := ss;
               data := fresh (dom (handles σ)) |}).
  assert (Hd : handles σ1 !! data w = Some d) by (simpl; apply lookup_insert_eq).
  assert (Hb : blocks σ1 !! block_ptr d = Some (block.mk 1 (Ptr a 0)))
    by (simpl; apply lookup_insert_eq).
  assert (Ho : objs σ1 !! a = Some (Object U (copy v))) by (simpl; apply lookup_insert_eq).
  split; [unfold reports; by rewrite (get_size_of_data_spec H _ _ d Hd) |].
  split.
  { intros T' U' h σ2 Hr. unfold ptr_from_val in Hr.
    rewrite (share_tail_spec (λ d1, add_offset d1 (compute_upcast_offset H T' U'))
               (data w) σ1 d _ Hd Hb) in Hr.
    injection Hr as <- <-. unfold reports.
    erewrite get_size_of_data_spec by (simpl; apply lookup_insert_eq). done. }
  split.
  { intros T' w2 σ2 Hr.
    destruct (val_copy_spec H T' w σ1 d _ a 0 U (copy v) copy Hd Hb eq_refl Ho Hc)
      as [tr Hr'].
    rewrite Hr' in Hr. injection Hr as <- <-. split.
    - unfold reports.
      erewrite get_size_of_data_spec by (simpl; apply lookup_insert_eq). done.
    - eexists. eapply val_read_spec; simpl;
        [apply lookup_insert_eq | apply lookup_insert_eq | done | apply lookup_insert_eq]. }
  intros T' m U' w2 σ2 Hr.
  destruct (val_convert_spec H T' m U' w σ1 d _ a 0 U (copy v) copy Hd Hb eq_refl Ho Hc)
    as [tr Hr'].
  rewrite Hr' in Hr. injection Hr as <- <-. split.
  - unfold reports.
    erewrite get_size_of_data_spec by (simpl; apply lookup_insert_eq). done.
  - eexists. eapply val_read_spec; simpl;
      [apply lookup_insert_eq | apply lookup_insert_eq | done | apply lookup_insert_eq].
Qed.

Lemma size_is_of_stored_type_witness :
  ∃ w σ1, val_from_value shapes Named 16 Label [1; 2] empty_state = Ok w σ1 ∧
    value_of (get_size_of_data shapes (data w) σ1) = Some 24 ∧
    sizeof shapes Named = 16.
Proof.
  eexists _, _. split; [vm_compute; reflexivity |]. split; [| reflexivity].
  refine (proj1 (size_is_of_stored_type shapes Named Label 16 [1; 2] empty_state _ _ _)).
  vm_compute. reflexivity.
Defined.

(** ** Conversions between containers *)



Lemma val_convert_live H T n U v σ w σ' :
  val_convert H T n U v σ = Ok w σ' →
  ∃ d blk a o D x copy,
    handles σ !! data v = Some d ∧
    blocks σ !! block_ptr d = Some blk ∧
    block.data blk = Ptr a o ∧
    objs σ !! a = Some (Object D x) ∧
    copy_ctor H (op_ptr d) = Some copy.
Proof.
  intros Hr. unfold val_convert, get_size_of_data in Hr. simpl in Hr. inv_all.
  match goal with Hc : size _ _ _ = Ok _ _ |- _ => apply size_inv in Hc as [-> ->] end.
  match goal with Hc : ptr_clone _ _ _ _ _ _ = Ok _ _ |- _ =>
    apply ptr_clone_heap_inv in Hc;
    destruct Hc as (d0 & blk0 & copy & D & xv & a & o & Hh0 & Hb0 & Hdat0 & Ha & Hcp & _) end.
  simpl in *. rewrite insert_insert_eq in Ha.
  destruct (decide (a = fresh (dom (objs σ)))) as [-> | Hne].
  { by rewrite lookup_insert_eq in Ha. }
  rewrite lookup_insert_ne in Ha by done.
  by exists d0, blk0, a, o, D, xv, copy.
Qed.

(** X7: for a base [T] of [U] at displacement [disp], [U] not being a base
    of [T], widening a container from [val<U>] to [val<T>] and narrowing the
    result back to [val<U>] gives a container with the offset and the
    dispatcher of the first one, on a block of its own: the two offsets of
    [compute_upcast_offset] cancel modulo the width of [size_t]. *)
Theorem conversion_round_trip (H : hierarchy) (T U : cls) (disp n m : Z)
    (v w w2 : val) (σ σ1 σ2 : state) (d : descriptor_t) :
  base_disp H T U = Some disp →
  base_disp H U T = None →
  handles σ !! data v = Some d →
  val_convert H T n U v σ = Ok w σ1 →
  val_convert H U m T w σ1 = Ok w2 σ2 →
  wrap_size (compute_upcast_offset H T U + compute_upcast_offset H U T) = 0 ∧
  ∃ d2, handles σ2 !! data w2 = Some d2 ∧
    upcast_offset d2 = wrap_size (upcast_offset d) ∧
    op_ptr d2 = op_ptr d ∧
    block_ptr d2 ≠ block_ptr d ∧
    handles σ2 !! data v = Some d.
Proof.
  intros Hup Hn Hd Hr1 Hr2.
  assert (Hz : wrap_size (compute_upcast_offset H T U + compute_upcast_offset H U T) = 0).
  { rewrite (compute_upcast_offset_up H T U disp Hup),
      (compute_upcast_offset_down H U T disp Hn Hup).
    rewrite wrap_size_add_l, wrap_size_add_r.
    replace (disp + - disp) with 0 by lia. reflexivity. }
  split; [exact Hz |].
  destruct (val_convert_live _ _ _ _ _ _ _ _ Hr1)
    as (d0 & blk & a & o & D & x & copy & Hd0 & Hb & Hdat & Ho & Hc).
  rewrite Hd in Hd0. injection Hd0 as <-.
  destruct (val_convert_spec H T n U v σ d blk a o D x copy Hd Hb Hdat Ho Hc) as [tr Hs1].
  simpl in Hs1. rewrite Hs1 in Hr1. injection Hr1 as <- <-.
  destruct (val_convert_live _ _ _ _ _ _ _ _ Hr2)
    as (d1 & blk1 & a1 & o1 & D1 & x1 & copy1 & Hd1 & Hb1 & Hdat1 & Ho1 & Hc1).
  destruct (val_convert_spec H U m T _ _ d1 blk1 a1 o1 D1 x1 copy1 Hd1 Hb1 Hdat1 Ho1 Hc1)
    as [tr2 Hs2].
  simpl in Hs2. rewrite Hs2 in Hr2. injection Hr2 as <- <-.
  simpl in Hd1. rewrite lookup_insert_eq in Hd1. injection Hd1 as <-.
  eexists. split; [simpl; apply lookup_insert_eq |]. simpl.
  split.
  { rewrite wrap_size_add_l, <- Z.add_assoc, <- wrap_size_add_r, Hz. f_equal. lia. }
  split; [done |].
  assert (Hbd : is_Some (blocks σ !! block_ptr d)) by eauto.
  split.
  - intros E. rewrite <- E in Hbd. destruct Hbd as [b' Hb'].
    pose proof (is_fresh (dom (<[fresh (dom (blocks σ)) :=
                    block.mk 1 (Ptr (fresh (dom (<[fresh (dom (objs σ)) := RawStorage]>
                                                   (objs σ)))) 0)]> (blocks σ)))) as Hf.
    apply Hf, elem_of_dom. rewrite lookup_insert_ne; [eauto |].
    intros E'. pose proof (fresh_block_unallocated σ) as Hf'. rewrite E' in Hf'. congruence.
  - rewrite !lookup_insert_ne; [exact Hd | |].
    + intros E. pose proof (fresh_handle_unallocated σ). congruence.
    + intros E.
      pose proof (is_fresh (dom (<[fresh (dom (handles σ)) :=
                    {| block_ptr := fresh (dom (blocks σ));
                       upcast_offset :=
                         wrap_size (upcast_offset d + compute_upcast_offset H T U);
                       op_ptr := op_ptr d |}]> (handles σ)))) as Hf.
      apply Hf, elem_of_dom. rewrite E. rewrite lookup_insert_ne; [eauto |].
      intros E'. pose proof (fresh_handle_unallocated σ). congruence.
Qed.

Lemma conversion_round_trip_witness :
  let l := {| SmallStorageSize := 24; small_storage := 1%positive; data := 1%positive |} in
  ∃ w σ1 w2 σ2,
    val_convert shapes Named 24 Label l label_state = Ok w σ1 ∧
    val_convert shapes Label 24 Named w σ1 = Ok w2 σ2 ∧
    ∃ d2, handles σ2 !! data w2 = Some d2 ∧ upcast_offset d2 = wrap_size 0.
Proof.
  intros l.
  edestruct (λ w w2 σ1 σ2,
             conversion_round_trip shapes Named Label 8 24 24 l w w2 label_state σ1 σ2
               {| block_ptr := 1%positive; upcast_offset := 0; op_ptr := Label |})
    as (_ & d2 & Hd2 & Ho & _).
  - reflexivity.
  - reflexivity.
  - vm_compute. reflexivity.
  - vm_compute. reflexivity.
  - vm_compute. reflexivity.
  - eexists _, _, _, _. split; [vm_compute; reflexivity |].
    split; [vm_compute; reflexivity |].
    exists d2. split; [exact Hd2 | exact Ho].
Defined.

(** ** The life of a handle *)

(** X8: in a state with sound bookkeeping, destroying a handle returns
    normally, removes that handle only, leaves every other block and every
    object as it is, and keeps the bookkeeping sound; the handle's block is
    freed exactly when no other live handle names it.  A handle never
    deletes the value its block points at. *)
Theorem block_dies_with_last_handle (h : loc) (σ : state) (d : descriptor_t) :
  wf σ →
  handles σ !! h = Some d →
  Z.of_nat (base.size (handles σ)) < 2 ^ 63 →
  ∃ σ', ptr_dtor h σ = Ok tt σ' ∧
    handles σ' = delete h (handles σ) ∧
    objs σ' = objs σ ∧
    wf σ' ∧
    (blocks σ' !! block_ptr d = None ↔
       refs_besides h (handles σ) (block_ptr d) = 0%nat) ∧
    (∀ b, b ≠ block_ptr d → blocks σ' !! b = blocks σ !! b).
Proof.
  intros Hwf Hd Hsz. pose proof Hwf as [Ha Hc].
  destruct (Ha _ _ Hd) as [blk Hb].
  pose proof (Hc _ _ Hb) as Hcnt. rewrite (refs_besides_own _ _ _ Hd) in Hcnt.
  eexists. split; [apply (ptr_dtor_spec h σ d blk Hd Hb) |]. simpl.
  split; [done |]. split; [done |].
  split; [by apply counted_release |].
  unfold drop. split.
  - destruct (decide (block.count blk = 1)) as [H1 | H1].
    + rewrite lookup_delete_eq. split; [intros _; lia | done].
    + rewrite lookup_insert_eq. split; [done | intros Hz; lia].
  - intros b Hne. destruct (decide (block.count blk = 1)).
    + by rewrite lookup_delete_ne.
    + by rewrite lookup_insert_ne.
Qed.

Lemma block_dies_with_last_handle_witness :
  ∃ σ', ptr_dtor 2%positive example_state2 = Ok tt σ' ∧
    handles σ' = delete 2%positive (handles example_state2) ∧
    is_Some (blocks σ' !! 1%positive).
Proof.
  destruct (block_dies_with_last_handle 2%positive example_state2 example_descriptor)
    as (σ' & Hr & Hh & _ & _ & Hiff & _).
  - refine (proj1 (run_sound shapes [HandleFromVal Shape Shape example_val]
                     example_state example_state2 example_state_wf _ _)).
    + vm_compute. reflexivity.
    + vm_compute. reflexivity.
  - vm_compute. reflexivity.
  - vm_compute. reflexivity.
  - exists σ'. split; [exact Hr |]. split; [exact Hh |].
    destruct (blocks σ' !! 1%positive) as [blk |] eqn:Hb; [by eexists |].
    apply Hiff in Hb. vm_compute in Hb. discriminate.
Defined.

(** X9: a copy of a live handle dereferences to the address the original
    dereferences to, and destroying the copy puts the handles, the blocks,
    with their counters, and the objects back exactly as they were.  The
    counter must be at least one, as it is for a block that a live handle
    names, and below the largest [intptr_t]. *)
Theorem handle_copy_round_trip (src : loc) (σ : state) (d : descriptor_t)
    (blk : block.t) (a : loc) (o : Z) :
  handles σ !! src = Some d →
  blocks σ !! block_ptr d = Some blk →
  block.data blk = Ptr a o →
  1 ≤ block.count blk →
  block.count blk + 1 < 2 ^ 63 →
  ∃ h σ1 σ2,
    ptr_copy src σ = Ok h σ1 ∧
    handles σ !! h = None ∧
    handles σ1 !! h = Some d ∧
    value_of (ptr_arrow src σ) = Some (Ptr a (wrap_size (o + upcast_offset d))) ∧
    value_of (ptr_arrow h σ1) = Some (Ptr a (wrap_size (o + upcast_offset d))) ∧
    value_of (ptr_arrow src σ1) = Some (Ptr a (wrap_size (o + upcast_offset d))) ∧
    ptr_dtor h σ1 = Ok tt σ2 ∧
    handles σ2 = handles σ ∧ blocks σ2 = blocks σ ∧ objs σ2 = objs σ.
Proof.
  intros Hd Hb Hdat Hc1 Hc2.
  pose proof (fresh_handle_unallocated σ) as Hf.
  set (blk1 := block.mk (wrap_intptr (block.count blk + 1)) (block.data blk)).
  assert (Hw1 : wrap_intptr (block.count blk + 1) = block.count blk + 1)
    by (apply wrap_intptr_small; lia).
  eexists _, _, _. split; [apply (ptr_copy_spec src σ d blk Hd Hb) |].
  split; [done |]. simpl.
  split; [apply lookup_insert_eq |].
  split; [by rewrite (ptr_arrow_spec src σ d blk a o) |].
  split.
  { erewrite (ptr_arrow_spec _ _ d blk1 a o); simpl;
      [done | apply lookup_insert_eq | apply lookup_insert_eq | done]. }
  split.
  { erewrite (ptr_arrow_spec _ _ d blk1 a o); simpl; [done | | apply lookup_insert_eq | done].
    rewrite lookup_insert_ne; [done |]. intros E. congruence. }
  split.
  { apply (ptr_dtor_spec _ _ d blk1); simpl; apply lookup_insert_eq. }
  simpl. split; [by apply delete_insert_id |]. split; [| done].
  unfold drop, bump. simpl. rewrite Hw1, decide_False by lia.
  rewrite insert_insert_eq. replace (block.count blk + 1 - 1) with (block.count blk) by lia.
  rewrite wrap_intptr_small by lia.
  apply insert_id. rewrite Hb. f_equal. exact (eq_sym (block_eta blk)).
Qed.

Lemma handle_copy_round_trip_witness :
  ∃ h σ1 σ2,
    ptr_copy 2%positive example_state2 = Ok h σ1 ∧
    ptr_dtor h σ1 = Ok tt σ2 ∧
    handles σ2 = handles example_state2 ∧ blocks σ2 = blocks example_state2.
Proof.
  destruct (handle_copy_round_trip 2%positive example_state2 example_descriptor
              example_block 2%positive 0)
    as (h & σ1 & σ2 & Hr1 & _ & _ & _ & _ & _ & Hr2 & Hh & Hb & _).
  - vm_compute. reflexivity.
  - vm_compute. reflexivity.
  - reflexivity.
  - simpl. lia.
  - simpl. lia.
  - exists h, σ1, σ2. split; [exact Hr1 |]. split; [exact Hr2 |]. split; [exact Hh | exact Hb].
Defined.

(** ** Assignment and aliasing *)




(** X11: a handle taken from a live container, at a base [T] of the
    container's type [U] that sits at displacement [disp], is a view of the
    object the container holds.  It dereferences to the [T] sub-object of
    what the container dereferences to, that is [disp] bytes further into
    the same object, and to the very same address when [T] is [U] and
    [disp] is zero; the container still dereferences where it did.  A write
    through the pointer the handle dereferences to is what the container
    then reads, and a write through the container is what is then read
    through the handle. *)
Theorem observer_aliases_container (H : hierarchy) (T U : cls) (disp : Z) (v : val)
    (σ : state) (d : descriptor_t) (blk : block.t) (a : loc) (o : Z) (D : cls)
    (x : list Z) :
  base_disp H T U = Some disp →
  handles σ !! data v = Some d →
  blocks σ !! block_ptr d = Some blk →
  block.data blk = Ptr a o →
  objs σ !! a = Some (Object D x) →
  let pv := Ptr a (wrap_size (o + upcast_offset d)) in
  let ph := Ptr a (wrap_size (o + upcast_offset d + disp)) in
  value_of (val_arrow v σ) = Some pv ∧
  upcast H T U pv = ph ∧
  ∃ h σ1,
    ptr_from_val H T U v σ = Ok h σ1 ∧
    h ≠ data v ∧
    objs σ1 = objs σ ∧
    value_of (val_arrow v σ1) = Some pv ∧
    value_of (ptr_arrow h σ1) = Some ph ∧
    (∀ f, ∃ σ2 σ3,
       ptr_arrow h σ1 = Ok ph σ2 ∧
       write_object ph f σ2 = Ok tt σ3 ∧
       value_of (val_read v σ3) = Some (D, f x) ∧
       value_of (val_arrow v σ3) = Some pv) ∧
    (∀ f, ∃ σ2 σ3,
       val_write v f σ1 = Ok tt σ2 ∧
       ptr_arrow h σ2 = Ok ph σ3 ∧
       value_of (read_object ph σ3) = Some (D, f x)).
Proof.
  intros Hdisp Hd Hb Hdat Ho pv ph.
  pose proof (fresh_handle_unallocated σ) as Hf.
  assert (Hne : fresh (dom (handles σ)) ≠ data v) by congruence.
  set (g := λ d1, add_offset d1 (compute_upcast_offset H T U)).
  set (blk1 := block.mk (wrap_intptr (block.count blk + 1)) (block.data blk)).
  assert (Hg : wrap_size (o + upcast_offset (g d)) = wrap_size (o + upcast_offset d + disp)).
  { unfold g. rewrite (add_offset_up H T U disp d Hdisp). simpl.
    by rewrite wrap_size_add_r, Z.add_assoc. }
  split; [unfold val_arrow; by rewrite (ptr_arrow_spec (data v) σ d blk a o) |].
  split.
  { unfold upcast, pv, ph. rewrite Hdisp. by rewrite wrap_size_add_l. }
  pose proof (share_tail_spec g (data v) σ d blk Hd Hb) as Hr1.
  set (h1 := fresh (dom (handles σ))) in *.
  match type of Hr1 with _ = Ok _ ?s => set (σ1 := s) in * end.
  assert (Hh1 : handles σ1 !! h1 = Some (g d)) by (simpl; apply lookup_insert_eq).
  assert (Hv1 : handles σ1 !! data v = Some d) by (simpl; by rewrite lookup_insert_ne).
  assert (Hb1 : blocks σ1 !! block_ptr d = Some blk1)
    by (simpl; unfold bump; apply lookup_insert_eq).
  assert (Hph : ∀ s, handles s = handles σ1 → blocks s = blocks σ1 →
            ptr_arrow h1 s
            = Ok ph (log [EvLock h1; EvUnlock h1; EvDataLoad (block_ptr d) (Ptr a o)] s)).
  { intros s Hhs Hbs.
    rewrite (ptr_arrow_spec h1 s (g d) blk1 a o); [by rewrite Hg | by rewrite Hhs | | done].
    by rewrite Hbs. }
  assert (Hpv : ∀ s, handles s = handles σ1 → blocks s = blocks σ1 →
            ptr_arrow (data v) s
            = Ok pv (log [EvLock (data v); EvUnlock (data v);
                          EvDataLoad (block_ptr d) (Ptr a o)] s)).
  { intros s Hhs Hbs.
    rewrite (ptr_arrow_spec (data v) s d blk1 a o); [done | by rewrite Hhs | | done].
    by rewrite Hbs. }
  exists h1, σ1. split; [exact Hr1 |].
  split; [done |]. split; [done |].
  split; [unfold val_arrow; by rewrite Hpv |].
  split; [by rewrite Hph |].
  split.
  - intros f. eexists _, _.
    split; [by apply Hph |].
    split; [unfold write_object, ph; simpl; rewrite Ho; reflexivity |].
    split.
    + eapply (val_read_spec _ _ d blk1 a o); simpl.
      * by rewrite lookup_insert_ne.
      * apply lookup_insert_eq.
      * done.
      * apply lookup_insert_eq.
    + unfold val_arrow. by rewrite Hpv.
  - intros f. eexists _, _.
    split.
    { unfold val_write, val_arrow. rewrite (bind_Ok _ _ _ _ _ (Hpv σ1 eq_refl eq_refl)).
      unfold write_object, pv. simpl. rewrite Ho. reflexivity. }
    split; [by apply Hph |].
    unfold ph. simpl. by rewrite lookup_insert_eq.
Qed.

Lemma observer_aliases_container_witness :
  ∃ h σ1 σ2 σ3,
    ptr_from_val shapes Named Label named_val label_state = Ok h σ1 ∧
    value_of (val_arrow named_val label_state) = Some (Ptr 2%positive 0) ∧
    ptr_arrow h σ1 = Ok (Ptr 2%positive 8) σ2 ∧
    write_object (Ptr 2%positive 8) (λ _, [9]) σ2 = Ok tt σ3 ∧
    value_of (val_read named_val σ3) = Some (Label, [9]).
Proof.
  destruct (observer_aliases_container shapes Named Label 8 named_val label_state
              {| block_ptr := 1%positive; upcast_offset := 0; op_ptr := Label |}
              (block.mk 1 (Ptr 2%positive 0)) 2%positive 0 Label [1; 2]
              ltac:(reflexivity) ltac:(vm_compute; reflexivity)
              ltac:(vm_compute; reflexivity) ltac:(reflexivity)
              ltac:(vm_compute; reflexivity))
    as (Hv & _ & h & σ1 & Hr & _ & _ & _ & _ & Hw & _).
  destruct (Hw (λ _, [9])) as (σ2 & σ3 & Ha & Hwr & Hrd & _).
  exists h, σ1, σ2, σ3. done.
Defined.

(** ** Narrowing, in general *)

(** X12: the explicit construction of a [ptr<T>] from a live container of
    type [val<U>], [T] not being [U] nor a base of it, asks the stored
    object for its class.  When that class has a [T] sub-object the call
    returns a fresh handle on the container's block, whose counter goes up
    by one; when it has none the call ends in [throw;], and the handles,
    the blocks, with their counters, and the objects are what they were. *)
Theorem container_narrowing_is_checked (H : hierarchy) (T U : cls) (v : val)
    (σ : state) (d : descriptor_t) (blk : block.t) (a : loc) (o : Z) (D : cls)
    (x : list Z) :
  T ≠ U →
  base_disp H T U = None →
  handles σ !! data v = Some d →
  blocks σ !! block_ptr d = Some blk →
  block.data blk = Ptr a o →
  objs σ !! a = Some (Object D x) →
  base_disp H U D = Some (wrap_size (o + upcast_offset d)) →
  (is_Some (base_disp H T D) →
     ∃ h σ', ptr_narrow_from_val H T U v σ = Ok h σ' ∧
       handles σ !! h = None ∧
       handles σ' = <[h := sub_offset d (compute_upcast_offset H T U)]> (handles σ) ∧
       blocks σ' = bump (block_ptr d) blk (blocks σ) ∧
       objs σ' = objs σ) ∧
  (base_disp H T D = None →
     ∃ σ', ptr_narrow_from_val H T U v σ = Throw rethrow_current σ' ∧
       handles σ' = handles σ ∧ blocks σ' = blocks σ ∧ objs σ' = objs σ).
Proof.
  intros Hne Hn Hd Hb Hdat Ho Hal.
  assert (Hcast : ∀ s, objs s = objs σ →
            dynamic_cast H T U (Ptr a (wrap_size (o + upcast_offset d))) s =
            match base_disp H T D with
            | Some dT => Ok (Ptr a dT) s
            | None => Ok Null s
            end).
  { intros s Hs. unfold dynamic_cast. rewrite decide_False by done.
    rewrite Hn, Hs, Ho, Hal. rewrite decide_True by done. by destruct (base_disp H T D). }
  unfold ptr_narrow_from_val, val_arrow.
  rewrite (bind_Ok _ _ _ _ _ (ptr_arrow_spec (data v) σ d blk a o Hd Hb Hdat)).
  rewrite bind_unfold, Hcast by done.
  split.
  - intros [dT HdT]. rewrite HdT. simpl.
    eexists _, _. split.
    + apply (share_tail_spec (λ d1, sub_offset d1 (compute_upcast_offset H T U))
               (data v) _ d blk); done.
    + simpl. split; [apply fresh_handle_unallocated | done].
  - intros HdT. rewrite HdT. simpl. eexists. split; [reflexivity | done].
Qed.

Lemma container_narrowing_is_checked_witness :
  ∃ σ', ptr_narrow_from_val shapes Square Shape example_val example_state
          = Throw rethrow_current σ' ∧
    blocks σ' = blocks example_state.
Proof.
  destruct (proj2
    (container_narrowing_is_checked shapes Square Shape example_val example_state
       {| block_ptr := 1%positive; upcast_offset := 0; op_ptr := Circle |}
       (block.mk 1 (Ptr 2%positive 0)) 2%positive 0 Circle [5]
       ltac:(discriminate) ltac:(reflexivity) ltac:(vm_compute; reflexivity)
       ltac:(vm_compute; reflexivity) ltac:(reflexivity) ltac:(vm_compute; reflexivity)
       ltac:(reflexivity)) ltac:(reflexivity))
    as (σ' & Hr & _ & Hb & _).
  exists σ'. split; [exact Hr | exact Hb].
Defined.

(** X13: the explicit construction of a [ptr<T>] from a live [ptr<U>], [U]
    being a proper base of [T] at displacement [disp], returns a fresh
    handle on the same block with the same dispatcher, the counter going up
    by one, and with the offset of the source plus [disp], modulo the width
    of [size_t].  When the base sits at the start of the derived class, that
    is for [disp] zero, the new handle dereferences to the address the
    source dereferences to. *)
Theorem handle_narrowing_offset (H : hierarchy) (T U : cls) (disp : Z) (src : loc)
    (σ : state) (d : descriptor_t) (blk : block.t) (a : loc) (o : Z) :
  base_disp H T U = None →
  base_disp H U T = Some disp →
  handles σ !! src = Some d →
  blocks σ !! block_ptr d = Some blk →
  block.data blk = Ptr a o →
  ∃ h σ', ptr_narrow H T U src σ = Ok h σ' ∧
    handles σ !! h = None ∧
    handles σ' = <[h := {| block_ptr := block_ptr d;
                           upcast_offset := wrap_size (upcast_offset d + disp);
                           op_ptr := op_ptr d |}]> (handles σ) ∧
    blocks σ' = bump (block_ptr d) blk (blocks σ) ∧
    objs σ' = objs σ ∧
    value_of (ptr_arrow h σ') = Some (Ptr a (wrap_size (o + upcast_offset d + disp))) ∧
    (disp = 0 → value_of (ptr_arrow h σ') = value_of (ptr_arrow src σ)).
Proof.
  intros Hn Hdisp Hd Hb Hdat.
  assert (Hsub : sub_offset d (compute_upcast_offset H T U)
                 = {| block_ptr := block_ptr d;
                      upcast_offset := wrap_size (upcast_offset d + disp);
                      op_ptr := op_ptr d |}).
  { unfold sub_offset. f_equal.
    exact (proj1 (narrowing_offset_sign H T U disp d Hn Hdisp)). }
  unfold ptr_narrow.
  rewrite (bind_Ok _ _ _ _ _ (ptr_arrow_spec src σ d blk a o Hd Hb Hdat)).
  unfold dynamic_cast at 1. rewrite bind_unfold. rewrite decide_True by done.
  eexists _, _. split.
  { apply (share_tail_spec (λ d1, sub_offset d1 (compute_upcast_offset H T U))
             src _ d blk); done. }
  simpl. rewrite Hsub.
  split; [apply fresh_handle_unallocated |]. split; [done |]. split; [done |].
  split; [done |].
  assert (Ha : value_of
            (ptr_arrow (fresh (dom (handles σ)))
               (mkState (bump (block_ptr d) blk (blocks σ)) (objs σ)
                  (<[fresh (dom (handles σ)) :=
                       {| block_ptr := block_ptr d;
                          upcast_offset := wrap_size (upcast_offset d + disp);
                          op_ptr := op_ptr d |}]> (handles σ))
                  ((trace σ ++ [EvLock src; EvUnlock src; EvDataLoad (block_ptr d) (Ptr a o)])
                   ++ [EvLock src; EvUnlock src;
                       EvStoreDescriptor (fresh (dom (handles σ))) d;
                       EvFetchAdd (block_ptr d) (block.count blk);
                       EvStoreDescriptor (fresh (dom (handles σ)))
                         {| block_ptr := block_ptr d;
                            upcast_offset := wrap_size (upcast_offset d + disp);
                            op_ptr := op_ptr d |}])))
          = Some (Ptr a (wrap_size (o + upcast_offset d + disp)))).
  { erewrite ptr_arrow_spec; simpl;
      [| apply lookup_insert_eq | unfold bump; apply lookup_insert_eq | exact Hdat].
    simpl. by rewrite wrap_size_add_r, Z.add_assoc. }
  split; [exact Ha |].
  intros ->. rewrite Ha, (ptr_arrow_spec src σ d blk a o Hd Hb Hdat). simpl.
  by rewrite Z.add_0_r.
Qed.

Lemma handle_narrowing_offset_witness :
  ∃ h σ', ptr_narrow shapes Circle Shape 2%positive example_state2 = Ok h σ' ∧
    value_of (ptr_arrow h σ') = value_of (ptr_arrow 2%positive example_state2).
Proof.
  destruct (handle_narrowing_offset shapes Circle Shape 0 2%positive example_state2
              example_descriptor example_block 2%positive 0
              ltac:(reflexivity) ltac:(reflexivity) ltac:(vm_compute; reflexivity)
              ltac:(vm_compute; reflexivity) ltac:(reflexivity))
    as (h & σ' & Hr & _ & _ & _ & _ & _ & Heq).
  exists h, σ'. split; [exact Hr | exact (Heq eq_refl)].
Defined.

(** ** The dispatcher *)

(** X14: [ptr::clone] with storage to clone into.  For a live handle whose
    stored class can be copied and a non-null [placement] that points at the
    start of raw storage, which the caller has made large enough, the clone
    is constructed in that storage by the copy constructor of the stored
    class: nothing is allocated for it, the new block points at
    [placement], and the dispatcher is called once, with CLONE and that
    placement, the TYPE query of the heap path being skipped.  The new block
    has counter zero and no handle. *)
Theorem clone_into_placement (H : hierarchy) (T : cls) (h : loc) (off : Z) (s : loc)
    (σ : state) (d : descriptor_t) (blk : block.t) (a : loc) (o : Z) (D : cls)
    (x : list Z) (copy : list Z → list Z) :
  handles σ !! h = Some d →
  blocks σ !! block_ptr d = Some blk →
  block.data blk = Ptr a o →
  objs σ !! a = Some (Object D x) →
  copy_ctor H (op_ptr d) = Some copy →
  objs σ !! s = Some RawStorage →
  ∃ σ',
    clone H (op_ptr d) (Ptr a o) (Ptr s 0) σ = Ok (Ptr s 0) σ' ∧
    objs σ' = <[s := Object (op_ptr d) (copy x)]> (objs σ) ∧
    dom (objs σ') = dom (objs σ) ∧
    objs σ' !! a = Some (Object D x) ∧
    ∃ σ'',
      ptr_clone H T h off (Ptr s 0) σ =
        Ok {| block_ptr := fresh (dom (blocks σ));
              upcast_offset := wrap_size (upcast_offset d + off);
              op_ptr := op_ptr d |} σ'' ∧
      objs σ'' = objs σ' ∧
      handles σ'' = handles σ ∧
      blocks σ'' = <[fresh (dom (blocks σ)) := block.mk 0 (Ptr s 0)]> (blocks σ) ∧
      new_events σ σ'' = [EvLock h; EvUnlock h; EvDataLoad (block_ptr d) (Ptr a o);
                          EvOp (op_ptr d) CLONE (Ptr a o) (Ptr s 0)].
Proof.
  intros Hd Hb Hdat Ho Hc Hs.
  assert (Hne : s ≠ a) by (intros ->; congruence).
  eexists. split.
  { unfold clone, op, emit, clone_impl, read_object, placement_copy, placement_new.
    rewrite Hc. msimpl. rewrite Ho. msimpl. rewrite Hs. reflexivity. }
  simpl. split; [done |].
  split.
  { apply dom_insert_lookup_L. eauto. }
  split; [by rewrite lookup_insert_ne |].
  eexists. split.
  { unfold ptr_clone, get_descriptor, data_load, clone, op, emit, clone_impl,
      read_object, placement_copy, placement_new, block_new.
    msimpl. rewrite Hd. msimpl. rewrite Hb. msimpl. rewrite Hdat, Hc. msimpl.
    rewrite Ho. msimpl. rewrite Hs. msimpl. reflexivity. }
  simpl. split; [done |]. split; [done |]. split; [done |].
  apply new_events_app. simpl. by rewrite <- !app_assoc.
Qed.

Lemma clone_into_placement_witness :
  ∃ σ', clone shapes Circle (Ptr 2%positive 0) (Ptr 1%positive 0) example_state
          = Ok (Ptr 1%positive 0) σ' ∧
    objs σ' !! 1%positive = Some (Object Circle [5]).
Proof.
  destruct (clone_into_placement shapes Shape 1%positive 0 1%positive example_state
              {| block_ptr := 1%positive; upcast_offset := 0; op_ptr := Circle |}
              (block.mk 1 (Ptr 2%positive 0)) 2%positive 0 Circle [5] id
              ltac:(vm_compute; reflexivity) ltac:(vm_compute; reflexivity)
              ltac:(reflexivity) ltac:(vm_compute; reflexivity) ltac:(reflexivity)
              ltac:(vm_compute; reflexivity))
    as (σ' & Hr & Ho & _).
  exists σ'. split; [exact Hr |]. rewrite Ho. vm_compute. reflexivity.
Defined.

(** X15: what the dispatcher gives it takes back.  An object made by CLONE
    on the heap is removed by DELETE of the same dispatcher, which puts the
    objects back exactly as they were before the clone; DESTRUCT ends the
    object but keeps its storage, raw; and SIZE and TYPE report the size and
    the name of the dispatcher's class and change nothing.  None of the five
    operations touches a handle or a block. *)
Theorem dispatcher_round_trip (H : hierarchy) (U : cls) (value p : pointer)
    (σ σ1 : state) :
  clone H U value Null σ = Ok p σ1 →
  ∃ a copy D x,
    p = Ptr a 0 ∧
    objs σ !! a = None ∧
    copy_ctor H U = Some copy ∧
    value_of (read_object value σ) = Some (D, x) ∧
    value_of (read_object p σ1) = Some (U, copy x) ∧
    handles σ1 = handles σ ∧ blocks σ1 = blocks σ ∧
    (∃ σ2, delete_ H U p σ1 = Ok tt σ2 ∧
       objs σ2 = objs σ ∧ handles σ2 = handles σ ∧ blocks σ2 = blocks σ) ∧
    (∃ σ2, destruct_ H U p σ1 = Ok tt σ2 ∧
       objs σ2 = <[a := RawStorage]> (objs σ) ∧
       handles σ2 = handles σ ∧ blocks σ2 = blocks σ) ∧
    (∃ σ2, size H U σ1 = Ok (wrap_size (sizeof H U)) σ2 ∧
       objs σ2 = objs σ1 ∧ handles σ2 = handles σ ∧ blocks σ2 = blocks σ) ∧
    (∃ σ2, type H U σ1 = Ok U σ2 ∧
       objs σ2 = objs σ1 ∧ handles σ2 = handles σ ∧ blocks σ2 = blocks σ).
Proof.
  intros Hr. apply clone_heap_inv in Hr
    as (copy & D & x & a0 & o & Hc & -> & Ho & -> & Ho1 & Hb1 & Hh1).
  exists (fresh (dom (objs σ))), copy, D, x.
  split; [done |]. split; [apply fresh_object_unallocated |]. split; [done |].
  split; [simpl; by rewrite Ho |].
  split; [simpl; by rewrite Ho1, lookup_insert_eq |].
  split; [done |]. split; [done |].
  split.
  { eexists. split.
    - unfold delete_, op, emit, delete_object. msimpl.
      rewrite Ho1, lookup_insert_eq. reflexivity.
    - simpl. rewrite Ho1. split; [| done].
      apply delete_insert_id, fresh_object_unallocated. }
  split.
  { eexists. split.
    - unfold destruct_, op, emit, destroy_object. msimpl.
      rewrite Ho1, lookup_insert_eq. reflexivity.
    - simpl. rewrite Ho1. split; [| done]. apply insert_insert_eq. }
  split.
  - eexists. split; [unfold size, op, emit; msimpl; reflexivity |]. done.
  - eexists. split; [unfold type, op, emit; msimpl; reflexivity |]. done.
Qed.

Lemma dispatcher_round_trip_witness :
  ∃ p σ1 σ2, clone shapes Circle (Ptr 2%positive 0) Null example_state = Ok p σ1 ∧
    delete_ shapes Circle p σ1 = Ok tt σ2 ∧ objs σ2 = objs example_state.
Proof.
  edestruct (λ p σ1, dispatcher_round_trip shapes Circle (Ptr 2%positive 0) p
                        example_state σ1)
    as (a & copy & D & x & Hp & _ & _ & _ & _ & _ & _ & (σ2 & Hd & Ho & _) & _).
  - vm_compute. reflexivity.
  - eexists _, _, σ2. split; [vm_compute; reflexivity |]. split; [exact Hd | exact Ho].
Defined.

(** ** The mutexes *)

Lemma lock_scan_app held es1 es2 :
  lock_scan held (es1 ++ es2) =
    match lock_scan held es1 with
    | Some held' => lock_scan held' es2
    | None => None
    end.
Proof.
  revert held. induction es1 as [| e es1 IH]; intros held; [done |].
  simpl. destruct e, held; try done; try apply IH; destruct (decide _); try done; apply IH.
Qed.

Lemma lock_disciplined_app es1 es2 :
  lock_disciplined es1 → lock_disciplined es2 → lock_disciplined (es1 ++ es2).
Proof.
  unfold lock_disciplined. intros H1 H2. by rewrite lock_scan_app, H1.
Qed.

Lemma tidy_bind {A B} (m : M A) (k : A → M B) :
  tidy m → (∀ a, tidy (k a)) → tidy (m ≫= k).
Proof.
  intros Hm Hk σ σ' Hl. rewrite bind_unfold in Hl.
  pose proof (Hm σ) as Hm'.
  destruct (m σ) as [a σ1 | e σ1 | σ1 |]; simpl in *.
  - destruct (Hm' σ1 eq_refl) as (es1 & Ht1 & Hd1).
    destruct (Hk a σ1 σ' Hl) as (es2 & Ht2 & Hd2).
    exists (es1 ++ es2). split; [by rewrite Ht2, Ht1, app_assoc |].
    by apply lock_disciplined_app.
  - injection Hl as <-. by apply Hm'.
  - injection Hl as <-. by apply Hm'.
  - done.
Qed.

Lemma tidy_silent {A} (m : M A) :
  (∀ σ σ', last_state (m σ) = Some σ' → trace σ' = trace σ) → tidy m.
Proof.
  intros Hm σ σ' Hl. exists []. split; [rewrite app_nil_r; by apply Hm | done].
Qed.

Lemma tidy_one {A} (m : M A) :
  (∀ σ σ', last_state (m σ) = Some σ' →
     ∃ e, trace σ' = trace σ ++ [e] ∧ lock_disciplined [e]) →
  tidy m.
Proof.
  intros Hm σ σ' Hl. destruct (Hm σ σ' Hl) as (e & Ht & Hd). by exists [e].
Qed.

Lemma tidy_ret {A} (a : A) : tidy (mret a).
Proof. apply tidy_silent. intros σ σ' [= <-]. done. Qed.

Lemma tidy_throw {A} e : tidy (throw (A := A) e).
Proof. apply tidy_silent. intros σ σ' [= <-]. done. Qed.

Lemma tidy_abort {A} : tidy (abort (A := A)).
Proof. apply tidy_silent. intros σ σ' [= <-]. done. Qed.

Lemma tidy_undefined {A} : tidy (undefined (A := A)).
Proof. intros σ σ' Hl. done. Qed.

Ltac tidy_quiet f :=
  apply tidy_silent; intros σ σ' Hl; unfold f in Hl;
  repeat case_match; simplify_eq/=; done.

Ltac tidy_event f :=
  apply tidy_one; intros σ σ' Hl; unfold f in Hl;
  repeat case_match; simplify_eq/=; eexists; split; [reflexivity | done].

Lemma tidy_count_load b : tidy (count_load b).
Proof. tidy_quiet count_load. Qed.
Lemma tidy_read_object p : tidy (read_object p).
Proof. tidy_quiet read_object. Qed.
Lemma tidy_write_object p f : tidy (write_object p f).
Proof. tidy_quiet write_object. Qed.
Lemma tidy_new_object U v : tidy (new_object U v).
Proof. tidy_quiet new_object. Qed.
Lemma tidy_placement_new U v p : tidy (placement_new U v p).
Proof. tidy_quiet placement_new. Qed.
Lemma tidy_delete_object p : tidy (delete_object p).
Proof. tidy_quiet delete_object. Qed.
Lemma tidy_destroy_object p : tidy (destroy_object p).
Proof. tidy_quiet destroy_object. Qed.
Lemma tidy_handle_member h : tidy (handle_member h).
Proof. tidy_quiet handle_member. Qed.
Lemma tidy_handle_release h : tidy (handle_release h).
Proof. tidy_quiet handle_release. Qed.
Lemma tidy_val_storage : tidy val_storage.
Proof. tidy_quiet val_storage. Qed.
Lemma tidy_small_storage_init ss : tidy (small_storage_init ss).
Proof. tidy_quiet small_storage_init. Qed.
Lemma tidy_dynamic_cast H T U p : tidy (dynamic_cast H T U p).
Proof. tidy_quiet dynamic_cast. Qed.
Lemma tidy_block_new p : tidy (block_new p).
Proof. tidy_quiet block_new. Qed.

Lemma tidy_count_fetch_add b n : tidy (count_fetch_add b n).
Proof. tidy_event count_fetch_add. Qed.
Lemma tidy_count_fetch_sub b n : tidy (count_fetch_sub b n).
Proof. tidy_event count_fetch_sub. Qed.
Lemma tidy_data_load b : tidy (data_load b).
Proof. tidy_event data_load. Qed.
Lemma tidy_data_exchange b p : tidy (data_exchange b p).
Proof. tidy_event data_exchange. Qed.
Lemma tidy_delete_block b : tidy (delete_block b).
Proof. tidy_event delete_block. Qed.
Lemma tidy_handle_init d : tidy (handle_init d).
Proof. tidy_event handle_init. Qed.
Lemma tidy_handle_store h d : tidy (handle_store h d).
Proof. tidy_event handle_store. Qed.
Lemma tidy_emit_op U o value placement : tidy (emit [EvOp U o value placement]).
Proof. tidy_event @emit. Qed.

(** The two functions that take the mutex of a handle release it before
    they return, and do nothing but read or write the descriptor while
    they hold it. *)
Lemma tidy_get_descriptor h : tidy (get_descriptor h).
Proof.
  intros σ σ' Hl. unfold get_descriptor in Hl. case_match; simplify_eq/=.
  eexists. split; [reflexivity |].
  unfold lock_disciplined. simpl. by rewrite decide_True.
Qed.

Lemma tidy_exchange_descriptor h v : tidy (exchange_descriptor h v).
Proof.
  intros σ σ' Hl. unfold exchange_descriptor in Hl. case_match; simplify_eq/=.
  eexists. split; [reflexivity |].
  unfold lock_disciplined. simpl. by rewrite !decide_True.
Qed.

Create HintDb tidy.

#[export] Hint Resolve tidy_ret tidy_throw tidy_abort tidy_undefined tidy_count_load
  tidy_read_object tidy_write_object tidy_new_object tidy_placement_new
  tidy_delete_object tidy_destroy_object tidy_handle_member tidy_handle_release
  tidy_val_storage tidy_small_storage_init tidy_dynamic_cast tidy_block_new
  tidy_count_fetch_add tidy_count_fetch_sub tidy_data_load tidy_data_exchange
  tidy_delete_block tidy_handle_init tidy_handle_store tidy_emit_op
  tidy_get_descriptor tidy_exchange_descriptor : tidy.

Ltac tidy_tac :=
  repeat first
    [ solve [auto with tidy]
    | apply tidy_bind; [| intros ?; cbv beta]
    | match goal with
      | |- tidy (if ?c then _ else _) => destruct c
      | |- tidy (match ?x with _ => _ end) => destruct x
      end ].

Lemma tidy_block_increment b : tidy (block_increment b).
Proof. unfold block_increment. tidy_tac. Qed.

Lemma tidy_block_decrement b : tidy (block_decrement b).
Proof. unfold block_decrement. tidy_tac. Qed.

Lemma tidy_op H T o value placement : tidy (op H T o value placement).
Proof. unfold op, clone_impl, placement_copy. tidy_tac. Qed.

#[export] Hint Resolve tidy_block_increment tidy_block_decrement tidy_op : tidy.

Lemma tidy_clone H U value placement : tidy (clone H U value placement).
Proof. unfold clone. tidy_tac. Qed.
Lemma tidy_delete_ H U value : tidy (delete_ H U value).
Proof. unfold delete_. tidy_tac. Qed.
Lemma tidy_destruct_ H U value : tidy (destruct_ H U value).
Proof. unfold destruct_. tidy_tac. Qed.
Lemma tidy_size H U : tidy (size H U).
Proof. unfold size. tidy_tac. Qed.
Lemma tidy_type H U : tidy (type H U).
Proof. unfold type. tidy_tac. Qed.

#[export] Hint Resolve tidy_clone tidy_delete_ tidy_destruct_ tidy_size tidy_type : tidy.

Lemma tidy_ptr_copy src : tidy (ptr_copy src).
Proof. unfold ptr_copy. tidy_tac. Qed.
Lemma tidy_ptr_dtor h : tidy (ptr_dtor h).
Proof. unfold ptr_dtor. tidy_tac. Qed.
Lemma tidy_ptr_assign_body this other : tidy (ptr_assign_body this other).
Proof. unfold ptr_assign_body. tidy_tac. Qed.
Lemma tidy_ptr_assign_widen_body H T U this other :
  tidy (ptr_assign_widen_body H T U this other).
Proof. unfold ptr_assign_widen_body. tidy_tac. Qed.
Lemma tidy_ptr_widen H T U src : tidy (ptr_widen H T U src).
Proof. unfold ptr_widen. tidy_tac. Qed.
Lemma tidy_ptr_arrow h : tidy (ptr_arrow h).
Proof. unfold ptr_arrow. tidy_tac. Qed.
Lemma tidy_ptr_of_descriptor d : tidy (ptr_of_descriptor d).
Proof. unfold ptr_of_descriptor. tidy_tac. Qed.
Lemma tidy_ptr_of_block b off U : tidy (ptr_of_block b off U).
Proof. unfold ptr_of_block. tidy_tac. Qed.
Lemma tidy_get_size_of_data H h : tidy (get_size_of_data H h).
Proof. unfold get_size_of_data. tidy_tac. Qed.

#[export] Hint Resolve tidy_ptr_copy tidy_ptr_dtor tidy_ptr_assign_body
  tidy_ptr_assign_widen_body tidy_ptr_widen tidy_ptr_arrow tidy_ptr_of_descriptor
  tidy_ptr_of_block tidy_get_size_of_data : tidy.

Lemma tidy_ptr_clone H T h off placement : tidy (ptr_clone H T h off placement).
Proof. unfold ptr_clone, emit_heap_warning. tidy_tac. Qed.
Lemma tidy_ptr_narrow H T U src : tidy (ptr_narrow H T U src).
Proof. unfold ptr_narrow. tidy_tac. Qed.
Lemma tidy_ptr_assign this src : tidy (ptr_assign this src).
Proof. unfold ptr_assign. tidy_tac. Qed.
Lemma tidy_ptr_assign_widen H T U this src : tidy (ptr_assign_widen H T U this src).
Proof. unfold ptr_assign_widen. tidy_tac. Qed.
Lemma tidy_construct_copy H T n ss U v : tidy (construct_copy H T n ss U v).
Proof. unfold construct_copy, emit_heap_warning2, placement_copy. tidy_tac. Qed.
Lemma tidy_construct_move H T n ss U v : tidy (construct_move H T n ss U v).
Proof. unfold construct_move, emit_heap_warning2, placement_move. tidy_tac. Qed.
Lemma tidy_val_of_pointer H T n ss U p : tidy (val_of_pointer H T n ss U p).
Proof. unfold val_of_pointer. tidy_tac. Qed.

#[export] Hint Resolve tidy_ptr_clone tidy_ptr_narrow tidy_ptr_assign tidy_ptr_assign_widen
  tidy_construct_copy tidy_construct_move tidy_val_of_pointer : tidy.

Lemma tidy_val_from_pointer T n p : tidy (val_from_pointer T n p).
Proof. unfold val_from_pointer. tidy_tac. Qed.
Lemma tidy_val_from_value H T n U v : tidy (val_from_value H T n U v).
Proof. unfold val_from_value. tidy_tac. Qed.
Lemma tidy_val_from_rvalue H T n U v : tidy (val_from_rvalue H T n U v).
Proof. unfold val_from_rvalue. tidy_tac. Qed.
Lemma tidy_val_copy H T v : tidy (val_copy H T v).
Proof. unfold val_copy. tidy_tac. Qed.
Lemma tidy_val_convert H T n U v : tidy (val_convert H T n U v).
Proof. unfold val_convert. tidy_tac. Qed.
Lemma tidy_val_dtor H v : tidy (val_dtor H v).
Proof. unfold val_dtor, val_dtor_body. tidy_tac. Qed.
Lemma tidy_val_clone H T v : tidy (val_clone H T v).
Proof. unfold val_clone. tidy_tac. Qed.
Lemma tidy_ptr_from_val H T U v : tidy (ptr_from_val H T U v).
Proof. unfold ptr_from_val. tidy_tac. Qed.
Lemma tidy_ptr_narrow_from_val H T U v : tidy (ptr_narrow_from_val H T U v).
Proof. unfold ptr_narrow_from_val, val_arrow. tidy_tac. Qed.

#[export] Hint Resolve tidy_val_from_pointer tidy_val_from_value tidy_val_from_rvalue
  tidy_val_copy tidy_val_convert tidy_val_dtor tidy_val_clone tidy_ptr_from_val
  tidy_ptr_narrow_from_val : tidy.

Lemma tidy_run_op H o : tidy (run_op H o).
Proof. destruct o as [| | | | | | | | [] | | |]; simpl; tidy_tac. Qed.

(** X16: the mutex of a handle is held only to read or to write that
    handle's descriptor.  Whatever a client call does, and however it ends,
    by returning, throwing or aborting, it only appends events to the
    trace, and the events it appends keep the discipline: no mutex is taken
    while another is held, every mutex taken is released before the call
    ends, and no counter, no data pointer of a block, no block and no
    dispatcher is touched while a mutex is held.  The same holds for
    dereferencing a handle or a container and for reading and writing
    through a container. *)
Theorem mutexes_guard_descriptors_only (H : hierarchy) :
  (∀ o σ σ', last_state (run_op H o σ) = Some σ' →
     trace σ' = trace σ ++ new_events σ σ' ∧ lock_disciplined (new_events σ σ')) ∧
  (∀ h, tidy (ptr_arrow h)) ∧
  (∀ v, tidy (val_arrow v)) ∧
  (∀ v, tidy (val_read v)) ∧
  (∀ v f, tidy (val_write v f)) ∧
  (∀ h, tidy (get_size_of_data H h)).
Proof.
  split.
  { intros o σ σ' Hl. destruct (tidy_run_op H o σ σ' Hl) as (es & Ht & Hd).
    rewrite (new_events_app σ σ' es Ht). done. }
  split; [intros h; auto with tidy |].
  split; [intros v; unfold val_arrow; auto with tidy |].
  split; [intros v; unfold val_read, val_arrow; tidy_tac |].
  split; [intros v f; unfold val_write, val_arrow; tidy_tac |].
  intros h. auto with tidy.
Qed.

Lemma mutexes_guard_descriptors_only_witness :
  ∃ σ', last_state (run_op shapes (AssignHandle 4%positive 2%positive) example_state3)
          = Some σ' ∧
    lock_disciplined (new_events example_state3 σ').
Proof.
  eexists. split; [vm_compute; reflexivity |].
  refine (proj2 (proj1 (mutexes_guard_descriptors_only shapes)
                   (AssignHandle 4%positive 2%positive) example_state3 _ _)).
  vm_compute. reflexivity.
Defined.

(** ** Every state a client can reach *)

(** X17: after any sequence of client calls from the empty heap, each of
    which returned or threw, the bookkeeping is sound: every live handle
    names a block that is still allocated, so no handle dangles, and the
    counter of every allocated block is exactly the number of live handles
    that name it, which is at most the number of calls made.  The side
    condition on the number of calls keeps the counters from wrapping. *)
Theorem reachable_states_are_sound (H : hierarchy) (ops : list api_op) (σ : state) :
  run H ops empty_state = Some σ →
  Z.of_nat (length ops) + 2 < 2 ^ 63 →
  (∀ h d, handles σ !! h = Some d →
     ∃ blk, blocks σ !! block_ptr d = Some blk ∧ 1 ≤ block.count blk) ∧
  (∀ b blk, blocks σ !! b = Some blk →
     block.count blk = Z.of_nat (refs (handles σ) b) ∧
     0 ≤ block.count blk ≤ Z.of_nat (length ops)) ∧
  (base.size (handles σ) ≤ length ops)%nat.
Proof.
  intros Hrun Hsz.
  destruct (run_sound H ops empty_state σ wf_empty) as ([Ha Hc] & Hs & _ & _);
    [simpl; rewrite map_size_empty; lia | exact Hrun |].
  simpl in Hs. rewrite map_size_empty in Hs.
  split; [| split; [| lia]].
  - intros h d Hd. destruct (Ha _ _ Hd) as [blk Hb]. exists blk. split; [done |].
    rewrite (Hc _ _ Hb). pose proof (refs_pos _ _ _ Hd). lia.
  - intros b blk Hb. split; [by apply Hc |]. rewrite (Hc _ _ Hb).
    pose proof (refs_le_size (handles σ) b). lia.
Qed.

Lemma reachable_states_are_sound_witness :
  (base.size (handles example_state3) ≤ 4)%nat.
Proof.
  refine (proj2 (proj2
    (reachable_states_are_sound shapes
       [MakeVal (FromValue Shape 16 Circle [5]);
        HandleFromVal Shape Shape example_val;
        MakeVal (FromValue Shape 16 Square [7]);
        HandleFromVal Shape Shape
          {| SmallStorageSize := 16; small_storage := 3%positive; data := 3%positive |}]
       example_state3 _ _))).
  - vm_compute. reflexivity.
  - simpl. lia.
Defined.

(** ** Calls that throw *)

Lemma never_throws {A} (m : M A) (Q : A → state → Prop) σ e σ' :
  wp m Q never σ → m σ ≠ Throw e σ'.
Proof. unfold wp. intros Hw Hr. by rewrite Hr in Hw. Qed.

Lemma quiet_never_throws {A} (m : M A) σ e σ' :
  quiet (λ _, False) m → m σ ≠ Throw e σ'.
Proof. intros Hq Hr. specialize (Hq σ). unfold wp in Hq. rewrite Hr in Hq. tauto. Qed.

Lemma bind_Throw_inv {A B} (m : M A) (k : A → M B) σ e σ' :
  (m ≫= k) σ = Throw e σ' →
  m σ = Throw e σ' ∨ ∃ a σ1, m σ = Ok a σ1 ∧ k a σ1 = Throw e σ'.
Proof.
  rewrite bind_unfold. destruct (m σ) as [a σ1 | e1 σ1 | |]; intros Hr; simplify_eq; eauto.
Qed.

(** The dispatcher throws only from CLONE of a class that cannot be copied,
    and then it has changed nothing but the trace. *)
Lemma clone_throws H U value placement σ e σ' :
  clone H U value placement σ = Throw e σ' →
  e = logic_error ∧ copy_ctor H U = None ∧ σ' = log [EvOp U CLONE value placement] σ.
Proof.
  unfold clone, op. intros Hr.
  apply bind_Throw_inv in Hr as [Hr | (r & σ1 & _ & Hr)];
    [| destruct r; discriminate].
  apply bind_Throw_inv in Hr as [Hr | ([] & σ1 & H1 & Hr)]; [discriminate |].
  apply emit_inv in H1 as ->.
  apply bind_Throw_inv in Hr as [Hr | (p & σ2 & _ & Hr)]; [| discriminate].
  unfold clone_impl in Hr. destruct (copy_ctor H U) as [copy |] eqn:Hc.
  - apply bind_Throw_inv in Hr as [Hr | ([D v] & σ2 & H2 & Hr)].
    + by apply quiet_never_throws in Hr; [| apply quiet_read_object].
    + destruct (decide (placement = Null)).
      * by apply quiet_never_throws in Hr; [| apply quiet_new_object].
      * unfold placement_copy in Hr. rewrite Hc in Hr.
        by apply quiet_never_throws in Hr; [| apply quiet_placement_new].
  - by injection Hr as <- <-.
Qed.

Lemma clone_nonnull H U value placement σ p σ' :
  clone H U value placement σ = Ok p σ' → p ≠ Null.
Proof.
  unfold clone, op, clone_impl. intros Hr. inv_all.
  destruct (copy_ctor H U) as [copy |] eqn:Hc; inv_all.
  match goal with x : (cls * list Z)%type |- _ => destruct x as [D v] end.
  destruct (decide (placement = Null)); inv_all; [done |].
  match goal with Hp : placement_copy _ _ _ _ _ = Ok _ _ |- _ =>
    unfold placement_copy in Hp; rewrite Hc in Hp; unfold placement_new in Hp end.
  repeat case_match; by simplify_eq.
Qed.

(** [ptr::clone] throws only when the stored class cannot be copied, and
    then before it has allocated anything. *)
Lemma ptr_clone_throws H T h off placement σ e σ' :
  ptr_clone H T h off placement σ = Throw e σ' →
  e = logic_error ∧
  (∃ d, handles σ !! h = Some d ∧ copy_ctor H (op_ptr d) = None) ∧
  handles σ' = handles σ ∧ blocks σ' = blocks σ ∧ objs σ' = objs σ.
Proof.
  unfold ptr_clone. intros Hr.
  apply bind_Throw_inv in Hr as [Hr | (d & σ1 & H1 & Hr)];
    [by apply quiet_never_throws in Hr; [| apply quiet_get_descriptor] |].
  apply get_descriptor_inv in H1 as [Hd ->].
  apply bind_Throw_inv in Hr as [Hr | ([] & σ2 & H2 & Hr)].
  { destruct (decide (placement = Null)); [| discriminate].
    apply quiet_never_throws in Hr; [done |].
    apply quiet_bind; [apply quiet_type | intros; apply quiet_ret]. }
  assert (Hσ2 : handles σ2 = handles σ ∧ blocks σ2 = blocks σ ∧ objs σ2 = objs σ).
  { destruct (decide (placement = Null)); inv_all; [| by injection H2 as <-].
    match goal with Ht : type _ _ _ = Ok _ _ |- _ => apply type_inv in Ht as -> end.
    match goal with Hw : emit_heap_warning _ _ _ = Ok _ _ |- _ =>
      unfold emit_heap_warning in Hw; by injection Hw as <- end. }
  destruct Hσ2 as (Hh2 & Hb2 & Ho2).
  apply bind_Throw_inv in Hr as [Hr | (p & σ3 & H3 & Hr)];
    [by apply quiet_never_throws in Hr; [| apply quiet_data_load] |].
  apply data_load_inv in H3 as (blk & _ & _ & ->).
  apply bind_Throw_inv in Hr as [Hr | (c & σ4 & H4 & Hr)].
  - apply clone_throws in Hr as (-> & Hnc & ->). split; [done |]. split; [eauto | done].
  - apply clone_nonnull in H4.
    apply bind_Throw_inv in Hr as [Hr | (b & σ5 & _ & Hr)]; [| discriminate].
    unfold block_new in Hr. by rewrite decide_False in Hr.
Qed.

Lemma raw_storage_keeps_objects (os : gmap loc cell) ss a D x :
  os !! ss = None →
  <[ss := RawStorage]> os !! a = Some (Object D x) ↔ os !! a = Some (Object D x).
Proof.
  intros Hss. destruct (decide (a = ss)) as [-> | Hne].
  - rewrite lookup_insert_eq, Hss. split; discriminate.
  - by rewrite lookup_insert_ne.
Qed.

Lemma ptr_arrow_Ok_inv h σ p σ' :
  ptr_arrow h σ = Ok p σ' →
  handles σ' = handles σ ∧ blocks σ' = blocks σ ∧ objs σ' = objs σ.
Proof.
  unfold ptr_arrow. intros Hr. inv_all.
  match goal with Hx : context [ptr_add ?q ?n] |- _ => destruct (ptr_add q n) end; inv_all.
  done.
Qed.

Lemma dynamic_cast_Ok_inv H T U p σ r σ' :
  dynamic_cast H T U p σ = Ok r σ' → σ' = σ.
Proof. unfold dynamic_cast. intros Hr. repeat case_match; by simplify_eq. Qed.

Lemma get_size_of_data_Ok_inv H h σ z σ' :
  get_size_of_data H h σ = Ok z σ' →
  handles σ' = handles σ ∧ blocks σ' = blocks σ ∧ objs σ' = objs σ.
Proof.
  unfold get_size_of_data. intros Hr. inv_all.
  match goal with Hc : size _ _ _ = Ok _ _ |- _ => apply size_inv in Hc as [-> ->] end.
  done.
Qed.

Lemma val_from_value_never_throws H T n U v σ e σ' :
  val_from_value H T n U v σ ≠ Throw e σ'.
Proof.
  destruct (copy_ctor H U) as [copy |] eqn:Hc.
  - by rewrite (val_from_value_spec H T n U v σ copy Hc).
  - unfold val_from_value, val_storage, construct_copy, emit_heap_warning2.
    rewrite Hc. msimpl. done.
Qed.

Lemma val_from_rvalue_never_throws H T n U v σ e σ' :
  val_from_rvalue H T n U v σ ≠ Throw e σ'.
Proof.
  destruct (move_ctor H U) as [move |] eqn:Hc.
  - by rewrite (val_from_rvalue_spec H T n U v σ move Hc).
  - unfold val_from_rvalue, val_storage, construct_move, emit_heap_warning2.
    rewrite Hc. msimpl. done.
Qed.

(** A cloning constructor that throws has allocated the storage of the
    container it was building, and nothing else. *)
Lemma cloning_ctor_throws (pre : M Z) (T : cls) H (h : loc) (off : Z)
    (place : loc → Z → pointer) (n : Z) σ e σ' :
  quiet (λ _, False) pre →
  (∀ s z s', pre s = Ok z s' →
     handles s' = handles s ∧ blocks s' = blocks s ∧ objs s' = objs s) →
  (ss ← val_storage;
   small_storage_init ss;;
   sz ← pre;
   d ← ptr_clone H T h off (place ss sz);
   h' ← ptr_of_descriptor d;
   mret {| SmallStorageSize := n; small_storage := ss; data := h' |}) σ = Throw e σ' →
  e = logic_error ∧
  (∃ d, handles σ !! h = Some d ∧ copy_ctor H (op_ptr d) = None) ∧
  handles σ' = handles σ ∧ blocks σ' = blocks σ ∧
  objs σ' = <[fresh (dom (objs σ)) := RawStorage]> (objs σ).
Proof.
  intros Hq Hpre Hr.
  apply bind_Throw_inv in Hr as [Hr | (ss & σ1 & H1 & Hr)]; [discriminate |].
  apply val_storage_inv in H1 as [-> ->].
  apply bind_Throw_inv in Hr as [Hr | ([] & σ2 & H2 & Hr)];
    [by apply quiet_never_throws in Hr; [| apply quiet_small_storage_init] |].
  apply small_storage_init_inv in H2 as [_ ->].
  apply bind_Throw_inv in Hr as [Hr | (sz & σ3 & H3 & Hr)];
    [by apply quiet_never_throws in Hr |].
  apply Hpre in H3 as (Hh3 & Hb3 & Ho3).
  apply bind_Throw_inv in Hr as [Hr | (d & σ4 & H4 & Hr)].
  - apply ptr_clone_throws in Hr as (-> & (d0 & Hd0 & Hnc) & Hh & Hb & Ho).
    rewrite Hh3 in Hd0. split; [done |]. split; [by exists d0 |].
    rewrite Hh, Hb, Ho, Hh3, Hb3, Ho3. simpl. by rewrite insert_insert_eq.
  - apply bind_Throw_inv in Hr as [Hr | (h' & σ5 & _ & Hr)]; [| discriminate].
    by apply (never_throws _ _ _ _ _ (ptr_of_descriptor_wp d σ4)) in Hr.
Qed.

(** X18: each throw statement of the header is reached before the call
    has done anything that lasts.  When a client call ends in
    [invalid_argument], in [logic_error] or in [throw;], no handle, no
    block and no counter has changed, and no object has been created or
    destroyed: only the raw storage of the container that was being built
    may be new.  The [invalid_argument] of the block constructor is reached
    only by adopting a null pointer; the [logic_error] of the dispatcher
    only by copying, converting or cloning a live container whose stored
    class cannot be copied; and [throw;] only by the explicit construction
    of a handle from a container.  Exceptions of [operator new] and of the
    constructors of the stored classes are not in the model, where
    allocation and construction succeed. *)
Theorem header_throws_change_nothing (H : hierarchy) (o : api_op) (σ σ' : state)
    (e : exn) :
  run_op H o σ = Throw e σ' →
  handles σ' = handles σ ∧
  blocks σ' = blocks σ ∧
  (∀ a D x, objs σ' !! a = Some (Object D x) ↔ objs σ !! a = Some (Object D x)) ∧
  match e with
  | invalid_argument => ∃ T n, o = AdoptPointer T n Null
  | logic_error =>
      ∃ v d, handles σ !! data v = Some d ∧ copy_ctor H (op_ptr d) = None ∧
        ((∃ T, o = MakeVal (CopyOf T v)) ∨
         (∃ T n U, o = MakeVal (ConvertOf T n U v)) ∨
         (∃ T, o = CloneVal T v))
  | rethrow_current => ∃ T U v, o = NarrowFromVal T U v
  end.
Proof.
  intros Hr.
  assert (Hraw : ∀ s, objs s = <[fresh (dom (objs σ)) := RawStorage]> (objs σ) →
            ∀ a D x, objs s !! a = Some (Object D x) ↔ objs σ !! a = Some (Object D x)).
  { intros s -> a D x. apply raw_storage_keeps_objects, fresh_object_unallocated. }
  destruct o as [src | T U src | T U src | T U v | T U v | this src | T U this src
                | h | c | T n p | T v | v]; simpl in Hr.
  - apply bind_Throw_inv in Hr as [Hr | (? & ? & _ & Hr)]; [| discriminate].
    by apply (never_throws _ _ _ _ _ (ptr_copy_wp src σ)) in Hr.
  - apply bind_Throw_inv in Hr as [Hr | (? & ? & _ & Hr)]; [| discriminate].
    by apply (never_throws _ _ _ _ _ (ptr_widen_wp H T U src σ)) in Hr.
  - apply bind_Throw_inv in Hr as [Hr | (? & ? & _ & Hr)]; [| discriminate].
    by apply (never_throws _ _ _ _ _ (ptr_narrow_wp H T U src σ)) in Hr.
  - apply bind_Throw_inv in Hr as [Hr | (? & ? & _ & Hr)]; [| discriminate].
    by apply (never_throws _ _ _ _ _ (ptr_from_val_wp H T U v σ)) in Hr.
  - apply bind_Throw_inv in Hr as [Hr | (? & ? & _ & Hr)]; [| discriminate].
    unfold ptr_narrow_from_val, val_arrow in Hr.
    apply bind_Throw_inv in Hr as [Hr | (p & σ1 & H1 & Hr)];
      [by apply quiet_never_throws in Hr; [| apply quiet_ptr_arrow] |].
    apply ptr_arrow_Ok_inv in H1 as (Hh1 & Hb1 & Ho1).
    apply bind_Throw_inv in Hr as [Hr | (r & σ2 & H2 & Hr)];
      [by apply quiet_never_throws in Hr; [| apply quiet_dynamic_cast] |].
    apply dynamic_cast_Ok_inv in H2 as ->.
    destruct (decide (r = Null)).
    + injection Hr as <- <-. rewrite Hh1, Hb1, Ho1.
      split; [done |]. split; [done |]. split; [done | eauto].
    + by apply (never_throws _ _ _ _ _
                  (share_tail_wp (λ d, sub_offset d (compute_upcast_offset H T U))
                     (data v) σ1)) in Hr.
  - exfalso. revert Hr. apply (never_throws _ (λ _ _, True)). unfold ptr_assign.
    apply wp_bind. eapply wp_mono; [apply ptr_copy_wp | | done]. intros tmp σ1 _.
    apply wp_bind. eapply wp_mono; [apply ptr_assign_body_wp | | done]. intros u σ2 _.
    eapply wp_mono; [apply ptr_dtor_wp | | done]. done.
  - exfalso. revert Hr. apply (never_throws _ (λ _ _, True)). unfold ptr_assign_widen.
    apply wp_bind. eapply wp_mono; [apply ptr_copy_wp | | done]. intros tmp σ1 _.
    apply wp_bind. eapply wp_mono; [apply ptr_assign_widen_body_wp | | done].
    intros u σ2 _. eapply wp_mono; [apply ptr_dtor_wp | | done]. done.
  - by apply (never_throws _ _ _ _ _ (ptr_dtor_wp h σ)) in Hr.
  - apply bind_Throw_inv in Hr as [Hr | (? & ? & _ & Hr)]; [| discriminate].
    destruct c as [T n U x | T n U x | T other | T n U other]; simpl in Hr.
    + by apply val_from_value_never_throws in Hr.
    + by apply val_from_rvalue_never_throws in Hr.
    + unfold val_copy in Hr.
      destruct (cloning_ctor_throws (mret (SmallStorageSize other)) T H (data other) 0
                  (λ ss sz, emplacement_ptr (SmallStorageSize other) ss sz)
                  (SmallStorageSize other) σ e σ')
        as (-> & (d & Hd & Hnc) & Hh & Hb & Ho).
      * apply quiet_ret.
      * intros s z s' [= <- <-]. done.
      * exact Hr.
      * split; [done |]. split; [done |]. split; [by apply Hraw |].
        exists other, d. eauto 6.
    + unfold val_convert in Hr.
      apply (cloning_ctor_throws (get_size_of_data H (data other)) U H (data other)
               (compute_upcast_offset H T U)
               (λ ss sz, emplacement_ptr n ss sz) n) in Hr
        as (-> & (d & Hd & Hnc) & Hh & Hb & Ho).
      * split; [done |]. split; [done |]. split; [by apply Hraw |].
        exists other, d. split; [done |]. split; [done |]. right. left. eauto.
      * apply quiet_get_size_of_data.
      * intros s z s'. apply get_size_of_data_Ok_inv.
  - apply bind_Throw_inv in Hr as [Hr | (? & ? & _ & Hr)]; [| discriminate].
    destruct p as [| a o].
    + rewrite val_from_pointer_null in Hr. injection Hr as <- <-. simpl.
      split; [done |]. split; [done |]. split; [| eauto].
      intros a D x. apply raw_storage_keeps_objects, fresh_object_unallocated.
    + by rewrite val_from_pointer_spec in Hr.
  - apply bind_Throw_inv in Hr as [Hr | (? & ? & _ & Hr)]; [| discriminate].
    unfold val_clone in Hr.
    apply bind_Throw_inv in Hr as [Hr | (d & σ1 & _ & Hr)].
    + apply ptr_clone_throws in Hr as (-> & (d0 & Hd0 & Hnc) & Hh & Hb & Ho).
      rewrite Ho. split; [done |]. split; [done |]. split; [done |].
      exists v, d0. split; [done |]. split; [done |]. right. right. eauto.
    + apply bind_Throw_inv in Hr as [Hr | (q & σ2 & _ & Hr)];
        [by apply quiet_never_throws in Hr; [| apply quiet_data_load] |].
      destruct (ptr_add q (upcast_offset d)); discriminate.
  - by apply (never_throws _ _ _ _ _ (val_dtor_wp H v σ)) in Hr.
Qed.

Lemma header_throws_change_nothing_witness :
  ∃ w σ1 σ',
    val_from_rvalue shapes Unique 16 Unique [5] empty_state = Ok w σ1 ∧
    run_op shapes (MakeVal (CopyOf Unique w)) σ1 = Throw logic_error σ' ∧
    handles σ' = handles σ1 ∧ blocks σ' = blocks σ1.
Proof.
  eexists _, _, _. split; [vm_compute; reflexivity |].
  split; [vm_compute; reflexivity |].
  destruct (header_throws_change_nothing shapes
              (MakeVal (CopyOf Unique
                 {| SmallStorageSize := 16; small_storage := 1%positive;
                    data := 1%positive |}))
              (default empty_state
                 (final_state (val_from_rvalue shapes Unique 16 Unique [5] empty_state)))
              (default empty_state
                 (last_state
                    (run_op shapes
                       (MakeVal (CopyOf Unique
                          {| SmallStorageSize := 16; small_storage := 1%positive;
                             data := 1%positive |}))
                       (default empty_state
                          (final_state
                             (val_from_rvalue shapes Unique 16 Unique [5] empty_state))))))
              logic_error ltac:(vm_compute; reflexivity)) as (Hh & Hb & _).
  split; [exact Hh | exact Hb].
Defined.

(** ** The factory functions *)

(** X19: [VAL] and [make_val] give a container of type [val<T>] whose buffer
    has the default size, which for a complete [T] is the size of [T], and
    so is as large as the value they store; the value is on the heap all the
    same, in a fresh object, and the buffer stays raw.  The container reads
    back the copy, for [VAL], or the moved temporary, for [make_val], as a
    [T], dereferences to the start of the object, and reports the size of
    [T]. *)
Theorem factories_store_on_heap (H : hierarchy) (T : cls) (v : list Z) (σ : state) :
  base_disp H T T = Some 0 →
  let made (m : M val) (x : list Z) : Prop :=
    ∃ w σ' a,
      m σ = Ok w σ' ∧
      SmallStorageSize w = sizeof H T ∧
      value_of (get_size_of_data H (data w) σ') = Some (wrap_size (SmallStorageSize w)) ∧
      value_of (val_arrow w σ') = Some (Ptr a 0) ∧
      a ≠ small_storage w ∧
      objs σ !! a = None ∧
      objs σ' !! a = Some (Object T x) ∧
      objs σ' !! small_storage w = Some RawStorage ∧
      value_of (val_read w σ') = Some (T, x) in
  (∀ copy, copy_ctor H T = Some copy → made (VAL H T v) (copy v)) ∧
  (∀ move, move_ctor H T = Some move → made (make_val H T v) (move v)).
Proof.
  intros Hdisp made.
  assert (Hoff : compute_upcast_offset H T T = 0)
    by (by rewrite (compute_upcast_offset_up H T T 0 Hdisp)).
  assert (Hmade : ∀ m x tr,
    m σ = Ok {| SmallStorageSize := sizeof H T; small_storage := fresh (dom (objs σ));
                data := fresh (dom (handles σ)) |}
            (mkState
               (<[fresh (dom (blocks σ)) :=
                    block.mk 1 (Ptr (fresh (dom (<[fresh (dom (objs σ)) := RawStorage]>
                                                   (objs σ)))) 0)]> (blocks σ))
               (<[fresh (dom (<[fresh (dom (objs σ)) := RawStorage]> (objs σ))) :=
                    Object T x]> (<[fresh (dom (objs σ)) := RawStorage]> (objs σ)))
               (<[fresh (dom (handles σ)) :=
                    {| block_ptr := fresh (dom (blocks σ));
                       upcast_offset := compute_upcast_offset H T T; op_ptr := T |}]>
                  (handles σ)) tr) →
    made m x).
  { intros m x tr Hm. eexists _, _, _. split; [exact Hm |]. simpl.
    split; [done |].
    split.
    { erewrite get_size_of_data_spec by (simpl; apply lookup_insert_eq). done. }
    split.
    { unfold val_arrow. erewrite ptr_arrow_spec; simpl;
        [| apply lookup_insert_eq | apply lookup_insert_eq | done].
      simpl. by rewrite Hoff. }
    split; [apply fresh_insert_ne |].
    split; [apply fresh_insert_None |].
    split; [apply lookup_insert_eq |].
    split.
    { rewrite lookup_insert_ne by apply fresh_insert_ne. apply lookup_insert_eq. }
    eapply val_read_spec; simpl;
      [apply lookup_insert_eq | apply lookup_insert_eq | done | apply lookup_insert_eq]. }
  split.
  - intros copy Hc. eapply Hmade. unfold VAL, small_storage_size.
    apply (val_from_value_spec H T (sizeof H T) T v σ copy Hc).
  - intros move Hc. eapply Hmade. unfold make_val, small_storage_size.
    apply (val_from_rvalue_spec H T (sizeof H T) T v σ move Hc).
Qed.

Lemma factories_store_on_heap_witness :
  ∃ w σ', make_val shapes Unique [5] empty_state = Ok w σ' ∧
    value_of (val_read w σ') = Some (Unique, [5]) ∧
    objs σ' !! small_storage w = Some RawStorage.
Proof.
  destruct (proj2 (factories_store_on_heap shapes Unique [5] empty_state eq_refl)
              id eq_refl) as (w & σ' & a & Hr & _ & _ & _ & _ & _ & _ & Hs & Hv).
  exists w, σ'. split; [exact Hr |]. split; [exact Hv | exact Hs].
Defined.

(** ** Ownership and composition *)

(** X20: adoption does not record who owns an object.  Two containers can
    adopt the same pointer: both constructions return, each container gets a
    block of its own with counter one that points at the one object.
    Destroying the first container deletes the object; destroying the second
    then deletes it again, which has no defined behaviour. *)
Theorem double_adoption_deletes_twice (H : hierarchy) (T : cls) (n m : Z) (a : loc)
    (o : Z) (x : list Z) (σ : state) :
  objs σ !! a = Some (Object T x) →
  ∃ w1 σ1 w2 σ2 σ3 d1 d2,
    val_from_pointer T n (Ptr a o) σ = Ok w1 σ1 ∧
    val_from_pointer T m (Ptr a o) σ1 = Ok w2 σ2 ∧
    handles σ2 !! data w1 = Some d1 ∧
    handles σ2 !! data w2 = Some d2 ∧
    block_ptr d1 ≠ block_ptr d2 ∧
    blocks σ2 !! block_ptr d1 = Some (block.mk 1 (Ptr a o)) ∧
    blocks σ2 !! block_ptr d2 = Some (block.mk 1 (Ptr a o)) ∧
    val_dtor H w1 σ2 = Ok tt σ3 ∧
    objs σ3 !! a = None ∧
    val_dtor H w2 σ3 = Undefined.
Proof.
  intros Ho.
  pose proof (fresh_object_unallocated σ) as Hss.
  assert (Hne : a ≠ fresh (dom (objs σ))) by (intros ->; congruence).
  set (ss1 := fresh (dom (objs σ))) in *.
  set (b1 := fresh (dom (blocks σ))).
  set (h1 := fresh (dom (handles σ))).
  set (d1 := {| block_ptr := b1; upcast_offset := 0; op_ptr := T |}).
  pose proof (val_from_pointer_spec T n a o σ) as Hr1. simpl in Hr1.
  fold ss1 b1 h1 d1 in Hr1.
  set (σ1 := mkState (<[b1 := block.mk 1 (Ptr a o)]> (blocks σ))
               (<[ss1 := RawStorage]> (objs σ)) (<[h1 := d1]> (handles σ))
               (trace σ ++ [EvStoreDescriptor h1 d1; EvFetchAdd b1 0])) in *.
  pose proof (val_from_pointer_spec T m a o σ1) as Hr2. simpl in Hr2.
  set (ss2 := fresh (dom (<[ss1 := RawStorage]> (objs σ)))) in *.
  set (b2 := fresh (dom (<[b1 := block.mk 1 (Ptr a o)]> (blocks σ)))) in *.
  set (h2 := fresh (dom (<[h1 := d1]> (handles σ)))) in *.
  set (d2 := {| block_ptr := b2; upcast_offset := 0; op_ptr := T |}) in *.
  assert (Hb21 : b2 ≠ b1) by apply fresh_insert_ne.
  assert (Hh21 : h2 ≠ h1) by apply fresh_insert_ne.
  assert (Ha2 : a ≠ ss2).
  { intros ->. pose proof (fresh_insert_None (objs σ) ss1 RawStorage) as Hf.
    fold ss2 in Hf. congruence. }
  eexists _, _, _, _, _, d1, d2.
  split; [exact Hr1 |]. split; [exact Hr2 |]. simpl.
  split; [by rewrite lookup_insert_ne, lookup_insert_eq |].
  split; [apply lookup_insert_eq |].
  split; [done |].
  split; [by rewrite lookup_insert_ne, lookup_insert_eq |].
  split; [apply lookup_insert_eq |].
  split.
  { eapply (val_dtor_heap_spec H _ _ d1 (block.mk 1 (Ptr a o)) a o T x); simpl.
    - by rewrite lookup_insert_ne, lookup_insert_eq.
    - by rewrite lookup_insert_ne, lookup_insert_eq.
    - done.
    - done.
    - congruence.
    - by rewrite !lookup_insert_ne. }
  simpl. split; [apply lookup_delete_eq |].
  unfold val_dtor, val_dtor_body, get_descriptor, data_exchange, count_load.
  msimpl. rewrite lookup_delete_ne by done. rewrite lookup_insert_eq. msimpl.
  rewrite lookup_delete_ne by done. rewrite lookup_insert_eq. msimpl.
  rewrite lookup_insert_eq. msimpl.
  rewrite decide_False by congruence.
  unfold delete_, op, emit, delete_object. msimpl.
  by rewrite lookup_delete_eq.
Qed.

Lemma double_adoption_deletes_twice_witness :
  ∃ w1 σ1 w2 σ2 σ3,
    val_from_pointer Circle 16 (Ptr 2%positive 0) example_state = Ok w1 σ1 ∧
    val_from_pointer Circle 16 (Ptr 2%positive 0) σ1 = Ok w2 σ2 ∧
    val_dtor shapes w1 σ2 = Ok tt σ3 ∧
    val_dtor shapes w2 σ3 = Undefined.
Proof.
  destruct (double_adoption_deletes_twice shapes Circle 16 16 2%positive 0 [5]
              example_state ltac:(vm_compute; reflexivity))
    as (w1 & σ1 & w2 & σ2 & σ3 & d1 & d2 & Hr1 & Hr2 & _ & _ & _ & _ & _ & Hd1 & _ & Hd2).
  exists w1, σ1, w2, σ2, σ3. done.
Defined.

(** X21: widening composes.  For a base [T] of [U] at displacement [d1] and
    a base [S] of [T] at displacement [d2], [S] being a base of [U] at
    displacement [d1 + d2], a handle widened from [ptr<U>] to [ptr<T>] and
    then to [ptr<S>] has the descriptor of the handle widened from [ptr<U>]
    to [ptr<S>] at once, and the two dereference to the same address. *)
Theorem widening_composes (H : hierarchy) (S T U : cls) (d1 d2 : Z) (src : loc)
    (σ : state) (d : descriptor_t) (blk : block.t) (a : loc) (o : Z) :
  base_disp H T U = Some d1 →
  base_disp H S T = Some d2 →
  base_disp H S U = Some (d1 + d2) →
  handles σ !! src = Some d →
  blocks σ !! block_ptr d = Some blk →
  block.data blk = Ptr a o →
  ∃ h1 σ1 h2 σ2 h3 σ3 d',
    ptr_widen H T U src σ = Ok h1 σ1 ∧
    ptr_widen H S T h1 σ1 = Ok h2 σ2 ∧
    ptr_widen H S U src σ2 = Ok h3 σ3 ∧
    h2 ≠ h3 ∧
    handles σ3 !! h2 = Some d' ∧
    handles σ3 !! h3 = Some d' ∧
    d' = {| block_ptr := block_ptr d;
            upcast_offset := wrap_size (upcast_offset d + (d1 + d2));
            op_ptr := op_ptr d |} ∧
    value_of (ptr_arrow h2 σ3) = Some (Ptr a (wrap_size (o + upcast_offset d'))) ∧
    value_of (ptr_arrow h3 σ3) = Some (Ptr a (wrap_size (o + upcast_offset d'))).
Proof.
  intros H1 H2 H3 Hd Hb Hdat.
  set (gTU := λ d0, add_offset d0 (compute_upcast_offset H T U)).
  set (gST := λ d0, add_offset d0 (compute_upcast_offset H S T)).
  set (gSU := λ d0, add_offset d0 (compute_upcast_offset H S U)).
  set (dd := {| block_ptr := block_ptr d;
                upcast_offset := wrap_size (upcast_offset d + (d1 + d2));
                op_ptr := op_ptr d |}).
  assert (E1 : gST (gTU d) = dd).
  { unfold gST, gTU. rewrite (add_offset_up H T U d1 d H1).
    rewrite (add_offset_up H S T d2 _ H2). simpl. unfold dd. f_equal.
    by rewrite wrap_size_add_l, Z.add_assoc. }
  assert (E2 : gSU d = dd) by (unfold gSU; by rewrite (add_offset_up H S U _ d H3)).
  pose proof (share_tail_spec gTU src σ d blk Hd Hb) as Hr1.
  set (h1 := fresh (dom (handles σ))) in *.
  set (blk1 := block.mk (wrap_intptr (block.count blk + 1)) (block.data blk)).
  match type of Hr1 with _ = Ok _ ?s => set (σ1 := s) in * end.
  assert (Hh1 : handles σ1 !! h1 = Some (gTU d)) by (simpl; apply lookup_insert_eq).
  assert (Hb1 : blocks σ1 !! block_ptr (gTU d) = Some blk1)
    by (simpl; unfold bump; apply lookup_insert_eq).
  pose proof (share_tail_spec gST h1 σ1 (gTU d) blk1 Hh1 Hb1) as Hr2.
  set (h2 := fresh (dom (handles σ1))) in *.
  set (blk2 := block.mk (wrap_intptr (block.count blk1 + 1)) (block.data blk)).
  match type of Hr2 with _ = Ok _ ?s => set (σ2 := s) in * end.
  assert (Hsrc1 : h1 ≠ src).
  { intros E. pose proof (fresh_handle_unallocated σ) as Hf. fold h1 in Hf. congruence. }
  assert (Hsrc2 : h2 ≠ src).
  { intros E. pose proof (fresh_handle_unallocated σ1) as Hf. fold h2 in Hf.
    simpl in Hf. rewrite E, lookup_insert_ne in Hf by done. congruence. }
  assert (Hh2 : handles σ2 !! src = Some d).
  { simpl. by rewrite !lookup_insert_ne. }
  assert (Hb2 : blocks σ2 !! block_ptr d = Some blk2)
    by (simpl; unfold bump; apply lookup_insert_eq).
  pose proof (share_tail_spec gSU src σ2 d blk2 Hh2 Hb2) as Hr3.
  set (h3 := fresh (dom (handles σ2))) in *.
  match type of Hr3 with _ = Ok _ ?s => set (σ3 := s) in * end.
  assert (H32 : h2 ≠ h3).
  { intros E. pose proof (fresh_handle_unallocated σ2) as Hf. fold h3 in Hf.
    simpl in Hf. rewrite <- E, lookup_insert_eq in Hf. discriminate. }
  assert (Hd2 : handles σ3 !! h2 = Some dd).
  { simpl. rewrite lookup_insert_ne by done. rewrite lookup_insert_eq. by rewrite E1. }
  assert (Hd3 : handles σ3 !! h3 = Some dd).
  { simpl. rewrite lookup_insert_eq. by rewrite E2. }
  assert (Hb3 : blocks σ3 !! block_ptr dd
                = Some (block.mk (wrap_intptr (block.count blk2 + 1)) (block.data blk2)))
    by (simpl; unfold bump; apply lookup_insert_eq).
  exists h1, σ1, h2, σ2, h3, σ3, dd.
  split; [exact Hr1 |]. split; [exact Hr2 |]. split; [exact Hr3 |].
  split; [done |]. split; [done |]. split; [done |]. split; [done |].
  split.
  - by erewrite (ptr_arrow_spec h2 σ3 dd _ a o Hd2 Hb3 Hdat).
  - by erewrite (ptr_arrow_spec h3 σ3 dd _ a o Hd3 Hb3 Hdat).
Qed.

Lemma widening_composes_witness :
  ∃ h1 σ1 h2 σ2 h3 σ3 d',
    ptr_widen shapes Named Label 1%positive label_state = Ok h1 σ1 ∧
    ptr_widen shapes Named Named h1 σ1 = Ok h2 σ2 ∧
    ptr_widen shapes Named Label 1%positive σ2 = Ok h3 σ3 ∧
    handles σ3 !! h2 = Some d' ∧ handles σ3 !! h3 = Some d'.
Proof.
  destruct (widening_composes shapes Named Named Label 8 0 1%positive label_state
              {| block_ptr := 1%positive; upcast_offset := 0; op_ptr := Label |}
              (block.mk 1 (Ptr 2%positive 0)) 2%positive 0
              ltac:(reflexivity) ltac:(reflexivity) ltac:(reflexivity)
              ltac:(vm_compute; reflexivity) ltac:(vm_compute; reflexivity)
              ltac:(reflexivity))
    as (h1 & σ1 & h2 & σ2 & h3 & σ3 & d' & Hr1 & Hr2 & Hr3 & _ & Hd2 & Hd3 & _).
  exists h1, σ1, h2, σ2, h3, σ3, d'. done.
Defined.
